(** * A sequential model of the skip-list priority queue and its hazard domain

    The development embeds [lockfree_pq.hpp] (namespace [lf]): the class
    [HazardDomain] and the class template [LockFreePQ<T>], with [T] an integer
    key as in the demo driver.

    - Memory is an explicit store of nodes addressed by natural numbers;
      [nullptr] is address [0]; reading through a null or a freed address is
      a fault, which is how the undefined behaviour of the source shows.
    - One thread runs at a time: an atomic load reads the cell, a
      compare-exchange succeeds exactly when the cell holds the expected
      value, and a failed one writes the value found into its [expected]
      argument, which the source passes by reference.
    - [new] either hands out a fresh address or throws [std::bad_alloc];
      [push] and [pop] are [noexcept].  The vector [retired_] of the domain
      and the snapshot of [scan] take their blocks from the same allocator.
    - [delete] of what is no live object is undefined behaviour and shows as
      a fault, like a read through a bad pointer.
    - The random draws of [randomLevel] are given as a sequence of coin flips.
    - [count_] is a [size_t] of 64 bits.
    - Loops that the source writes as [while (true)] take a fuel argument. *)

From Stdlib Require Import ZArith List Lia Bool Sorted.
From stdpp Require Import base list.

Local Open Scope nat_scope.

(** Addresses.  [nullptr] is the address no object lives at. *)
Definition addr := nat.
Definition nullptr : addr := 0.

(* ------------------------------------------------------------------------- *)
(** ** class HazardDomain *)
(* ------------------------------------------------------------------------- *)

Module HazardDomain.
Section Domain.

(** The memory a deleter acts on (the deleter is a [std::function]). *)
Context {W : Type}.

Definition MAX_HAZARD_POINTERS : nat := 128.

(** [struct Retired]: the retired pointer and its deleter. *)
Record Retired := mkRetired { ptr : addr; deleter : addr -> W -> W }.

(** [hp_] is the array of hazard slots, [retired_] the retired vector. *)
Record t := mk { hp_ : list addr; retired_ : list Retired }.

(** The private constructor: every slot is [nullptr], nothing is retired. *)
Definition init : t :=
  {| hp_ := replicate MAX_HAZARD_POINTERS nullptr; retired_ := [] |}.

(** First loop of [scan]:
    [for (i = 0; i < MAX_HAZARD_POINTERS; ++i) { p = hp_[i]; if (p) hazards.push_back(p); }] *)
Definition snapshot (d : t) : list addr :=
  fold_left
    (fun hazards i =>
       let p := nth i (hp_ d) nullptr in
       if p =? nullptr then hazards else hazards ++ [p])
    (seq 0 MAX_HAZARD_POINTERS) [].

(** [std::find(hazards.begin(), hazards.end(), p) == hazards.end()] *)
Definition absent (hazards : list addr) (p : addr) : bool :=
  negb (existsb (Nat.eqb p) hazards).

(** Second loop of [scan]: the iterator walks [retired_]; a record whose
    pointer is absent from [hazards] has its deleter called and is erased,
    any other record is stepped over. *)
Fixpoint sweep (hazards : list addr) (rs : list Retired) (w : W)
  : list Retired * W :=
  match rs with
  | [] => ([], w)
  | r :: rest =>
      if absent hazards (ptr r)
      then sweep hazards rest (deleter r (ptr r) w)
      else let '(kept, w') := sweep hazards rest w in (r :: kept, w')
  end.

Definition scan (d : t) (w : W) : t * W :=
  let hazards := snapshot d in
  let '(kept, w') := sweep hazards (retired_ d) w in
  ({| hp_ := hp_ d; retired_ := kept |}, w').

(** [retired_.push_back({ptr, deleter}); if (retired_.size() > MAX_HAZARD_POINTERS) scan();] *)
Definition retire (d : t) (p : addr) (del : addr -> W -> W) (w : W) : t * W :=
  let d1 := {| hp_ := hp_ d; retired_ := retired_ d ++ [mkRetired p del] |} in
  if MAX_HAZARD_POINTERS <? length (retired_ d1) then scan d1 w else (d1, w).

(** What the claims say [scan] computes, in the words of the specification:
    the records whose pointer is in the snapshot stay, the others have
    their destructor invoked, in list order. *)
Definition protected_by (hazards : list addr) (r : Retired) : bool :=
  existsb (Nat.eqb (ptr r)) hazards.

Definition spec_kept (hazards : list addr) (rs : list Retired) : list Retired :=
  List.filter (protected_by hazards) rs.

Definition spec_deleted (hazards : list addr) (rs : list Retired) : list Retired :=
  List.filter (fun r => negb (protected_by hazards r)) rs.

Definition run_deleters (rs : list Retired) (w : W) : W :=
  fold_left (fun w r => deleter r (ptr r) w) rs w.

Definition nonnull (p : addr) : bool := negb (p =? nullptr).

(** The hazard slots [hp_[0]], ..., [hp_[MAX_HAZARD_POINTERS - 1]]. *)
Definition slots (d : t) : list addr :=
  map (fun i => nth i (hp_ d) nullptr) (seq 0 MAX_HAZARD_POINTERS).

(** How a call of [protect] ends: it returns the pointer it published, it
    writes outside [hp_], or the model ran out of fuel. *)
Inductive protection :=
| Protected (d : t) (p : addr)
| OutOfBounds
| Spinning.

(** The [do ... while] loop of [protect].  [load k] is what the [k]-th load
    of [addr] returns; other threads may store to [addr] between two loads.
    Each round reads the pointer, publishes it in slot [idx] and reads
    again; the loop ends when both reads agree. *)
Fixpoint protect_loop (fuel : nat) (d : t) (load : nat -> addr) (k idx : nat)
  : protection :=
  match fuel with
  | 0 => Spinning
  | S fuel' =>
      let p := load k in
      let d1 := {| hp_ := <[idx := p]> (hp_ d); retired_ := retired_ d |} in
      if p =? load (S k) then Protected d1 p
      else protect_loop fuel' d1 load (S (S k)) idx
  end.

(** [U* protect(std::atomic<U*>& addr, size_t idx)]; [hp_] has
    [MAX_HAZARD_POINTERS] cells and [idx] is not checked. *)
Definition protect (fuel : nat) (d : t) (load : nat -> addr) (idx : nat)
  : protection :=
  if idx <? MAX_HAZARD_POINTERS then protect_loop fuel d load 0 idx
  else OutOfBounds.

End Domain.
Arguments Retired : clear implicits.
Arguments t : clear implicits.
Arguments protection : clear implicits.
End HazardDomain.

(* ------------------------------------------------------------------------- *)
(** ** class LockFreePQ<T> *)
(* ------------------------------------------------------------------------- *)

Module LockFreePQ.

Definition MaxLevel : nat := 16.

(** [struct Node].  [next] has [MaxLevel + 1] cells; both constructors
    store [nullptr] in cells [0 .. level], the cells above are never read. *)
Record Node := mkNode {
  value : Z;
  topLevel : nat;
  next : list addr;
  marked : bool;
  fullyLinked : bool
}.

(** [Node(int level)]: the value is default-constructed. *)
Definition sentinel (level : nat) : Node :=
  {| value := 0%Z; topLevel := level;
     next := replicate (S MaxLevel) nullptr;
     marked := false; fullyLinked := false |}.

(** [Node(const T& val, int level)] *)
Definition value_node (val : Z) (level : nat) : Node :=
  {| value := val; topLevel := level;
     next := replicate (S MaxLevel) nullptr;
     marked := false; fullyLinked := false |}.

(** The free store: one cell per address ever handed out to a node, [None]
    once the object was deleted; [avail] is the number of further blocks the
    allocator can still provide (a node takes one, and so does the block of
    a vector). *)
Record Heap := mkHeap { cells : list (option Node); avail : nat }.

(** What [delete p] does to the store when [p] points to a live object: the
    object is gone and the allocator has one more object to give.
    [delete nullptr] does nothing. *)
Definition release (p : addr) (m : Heap) : Heap :=
  if p =? nullptr then m
  else {| cells := <[p := None]> (cells m); avail := S (avail m) |}.

(** [delete static_cast<Node*>(p)], the deleter [pop] hands to the domain.
    The memory a deleter acts on is the store, or [None] once a deleter has
    deleted what is no live object (a pointer that was deleted before, or
    that no [new] returned): the behaviour of the program is undefined from
    there on. *)
Definition free (p : addr) (w : option Heap) : option Heap :=
  match w with
  | Some m =>
      if p =? nullptr then Some m
      else match cells m !! p with
           | Some (Some _) => Some (release p m)
           | _ => None
           end
  | None => None
  end.

(** The queue object together with the store and the domain it points to.
    [retired_capacity_] is [retired_.capacity()] of the domain: the number of
    records the block of the vector has room for ([0]: it has no block). *)
Record PQ := mkPQ {
  mem : Heap;
  head_ : addr;
  tail_ : addr;
  count_ : Z;
  domain_ : HazardDomain.t (option Heap);
  retired_capacity_ : nat
}.

Definition with_mem (q : PQ) (m : Heap) : PQ :=
  {| mem := m; head_ := head_ q; tail_ := tail_ q;
     count_ := count_ q; domain_ := domain_ q;
     retired_capacity_ := retired_capacity_ q |}.

Definition with_count (q : PQ) (c : Z) : PQ :=
  {| mem := mem q; head_ := head_ q; tail_ := tail_ q;
     count_ := c; domain_ := domain_ q;
     retired_capacity_ := retired_capacity_ q |}.

Definition with_domain (q : PQ) (d : HazardDomain.t (option Heap)) : PQ :=
  {| mem := mem q; head_ := head_ q; tail_ := tail_ q;
     count_ := count_ q; domain_ := d;
     retired_capacity_ := retired_capacity_ q |}.

(** [std::atomic<size_t>] arithmetic wraps around. *)
Definition size_max : Z := 2 ^ 64.
Definition wrap (z : Z) : Z := (z mod size_max)%Z.

Inductive fault := NullDeref | UseAfterFree | DoubleFree.

(** How a call ends: it returns, it dereferences a bad pointer, it throws
    [std::bad_alloc] (carrying the state at the throw), the program is
    terminated, or the model ran out of fuel. *)
Inductive outcome (A : Type) :=
| Ok (a : A)
| Fault (f : fault)
| BadAlloc (q : PQ)
| Terminate
| OutOfFuel.
Arguments Ok {A} a.
Arguments Fault {A} f.
Arguments BadAlloc {A} q.
Arguments Terminate {A}.
Arguments OutOfFuel {A}.

Definition bind {A B} (x : outcome A) (k : A -> outcome B) : outcome B :=
  match x with
  | Ok a => k a
  | Fault f => Fault f
  | BadAlloc q => BadAlloc q
  | Terminate => Terminate
  | OutOfFuel => OutOfFuel
  end.

Arguments bind {A B} !x k /.

Notation "'let*' p ':=' e 'in' k" := (bind e (fun p => k))
  (at level 10, p pattern, e at level 100, k at level 200).

(** A function declared [noexcept]: an exception that reaches its boundary
    calls [std::terminate]. *)
Definition noexcept {A} (x : outcome A) : outcome A :=
  match x with
  | BadAlloc _ => Terminate
  | other => other
  end.

(** [p->...]: reading through a pointer. *)
Definition deref (q : PQ) (p : addr) : outcome Node :=
  if p =? nullptr then Fault NullDeref
  else match cells (mem q) !! p with
       | Some (Some n) => Ok n
       | _ => Fault UseAfterFree
       end.

(** [n.next[level].load()] *)
Definition next_at (n : Node) (level : nat) : addr := nth level (next n) nullptr.

(** [preds[level]], [succs[level]] *)
Definition at_level (a : list addr) (level : nat) : addr := nth level a nullptr.

Definition update (q : PQ) (p : addr) (f : Node -> Node) : PQ :=
  with_mem q
    {| cells := match cells (mem q) !! p with
                | Some (Some n) => <[p := Some (f n)]> (cells (mem q))
                | _ => cells (mem q)
                end;
       avail := avail (mem q) |}.

(** [p->next[level].store(v)] *)
Definition store_next (q : PQ) (p : addr) (level : nat) (v : addr) : PQ :=
  update q p (fun n =>
    {| value := value n; topLevel := topLevel n;
       next := <[level := v]> (next n);
       marked := marked n; fullyLinked := fullyLinked n |}).

Definition store_marked (q : PQ) (p : addr) (b : bool) : PQ :=
  update q p (fun n =>
    {| value := value n; topLevel := topLevel n; next := next n;
       marked := b; fullyLinked := fullyLinked n |}).

Definition store_fullyLinked (q : PQ) (p : addr) (b : bool) : PQ :=
  update q p (fun n =>
    {| value := value n; topLevel := topLevel n; next := next n;
       marked := marked n; fullyLinked := b |}).

(** [new Node(...)]: throws [std::bad_alloc] when the allocator is
    exhausted, otherwise the object lives at a fresh address. *)
Definition new_node (q : PQ) (n : Node) : outcome (PQ * addr) :=
  match avail (mem q) with
  | 0 => BadAlloc q
  | S a =>
      Ok (with_mem q {| cells := cells (mem q) ++ [Some n]; avail := a |},
          length (cells (mem q)))
  end.

(** [delete p] on the store of the queue, for a pointer [p] that was just
    read through or just returned by [new]. *)
Definition delete (q : PQ) (p : addr) : PQ := with_mem q (release p (mem q)).

(** [LockFreePQ(HazardDomain* domain)]: two sentinels of full height, every
    level of the head pointing at the tail; the tail keeps the [nullptr]
    successors its constructor stored.  [a] is what the allocator can
    provide, [d] the domain the queue is bound to; the vector of the domain
    has no room beyond its records (in a new program it is empty and has no
    block). *)
Definition construct (d : HazardDomain.t (option Heap)) (a : nat) : outcome PQ :=
  let c := length (HazardDomain.retired_ d) in
  let q0 := {| mem := {| cells := [None]; avail := a |};
               head_ := nullptr; tail_ := nullptr;
               count_ := 0%Z; domain_ := d; retired_capacity_ := c |} in
  let* (q1, h) := new_node q0 (sentinel MaxLevel) in
  let* (q2, t) := new_node q1 (sentinel MaxLevel) in
  let q3 := fold_left (fun q i => store_next q h i t) (seq 0 (S MaxLevel)) q2 in
  Ok {| mem := mem q3; head_ := h; tail_ := t; count_ := 0%Z; domain_ := d;
        retired_capacity_ := c |}.

(** [randomLevel]: [coin k] says whether the draw [dist_(rng_)] made while
    [lvl = k] falls below [Probability].  The draw is made first, then
    [lvl < MaxLevel] is tested.  The loop runs at most [MaxLevel] times, so
    [S MaxLevel] tests are enough. *)
Fixpoint randomLevel_loop (gas : nat) (coin : nat -> bool) (lvl : nat) : nat :=
  match gas with
  | 0 => lvl
  | S gas' =>
      if coin lvl && (lvl <? MaxLevel)
      then randomLevel_loop gas' coin (S lvl)
      else lvl
  end.

Definition randomLevel (coin : nat -> bool) : nat :=
  randomLevel_loop (S MaxLevel) coin 0.

(** The inner loop of [findNode], [while (curr->marked)]: a successful
    compare-exchange on [pred->next[level]] swings it from [curr] to [succ]
    and steps to [succ]; a failed one reloads [curr] and leaves [succ]. *)
Fixpoint skip_marked (fuel : nat) (q : PQ) (level : nat) (pred curr succ : addr)
  : outcome (PQ * addr * addr) :=
  match fuel with
  | 0 => OutOfFuel
  | S fuel' =>
      let* c := deref q curr in
      if marked c then
        let* p := deref q pred in
        if next_at p level =? curr then
          let q' := store_next q pred level succ in
          let* c' := deref q' succ in
          skip_marked fuel' q' level pred succ (next_at c' level)
        else
          skip_marked fuel' q level pred (next_at p level) succ
      else Ok (q, curr, succ)
  end.

(** The [while (true)] loop of [findNode] at one level; it ends at the
    [break] with the final [pred] and [curr]. *)
Fixpoint find_level (fuel : nat) (q : PQ) (key : Z) (level : nat) (pred curr : addr)
  : outcome (PQ * addr * addr) :=
  match fuel with
  | 0 => OutOfFuel
  | S fuel' =>
      let* c := deref q curr in
      let* (q1, curr1, succ1) := skip_marked fuel' q level pred curr (next_at c level) in
      if curr1 =? tail_ q1 then find_level fuel' q1 key level curr1 succ1
      else
        let* c1 := deref q1 curr1 in
        if (value c1 <? key)%Z then find_level fuel' q1 key level curr1 succ1
        else Ok (q1, pred, curr1)
  end.

(** The [for] loop of [findNode] over the levels [n - 1] down to [0]. *)
Fixpoint find_levels (fuel : nat) (q : PQ) (key : Z) (n : nat) (pred : addr)
    (preds succs : list addr) : outcome (PQ * list addr * list addr) :=
  match n with
  | 0 => Ok (q, preds, succs)
  | S level =>
      let* p := deref q pred in
      let* (q1, pred1, curr1) := find_level fuel q key level pred (next_at p level) in
      find_levels fuel q1 key level pred1
        (<[level := pred1]> preds) (<[level := curr1]> succs)
  end.

Definition findNode (fuel : nat) (q : PQ) (key : Z) (preds succs : list addr)
  : outcome (PQ * bool * list addr * list addr) :=
  let* (q1, preds1, succs1) :=
    find_levels fuel q key (S MaxLevel) (head_ q) preds succs in
  if at_level succs1 0 =? tail_ q1 then Ok (q1, false, preds1, succs1)
  else
    let* s := deref q1 (at_level succs1 0) in
    Ok (q1, (value s =? key)%Z, preds1, succs1).

(** The arrays [preds] and [succs] of [push] and [pop] before [findNode]
    fills them. *)
Definition no_nodes : list addr := replicate (S MaxLevel) nullptr.

(** [while (!preds[lvl]->next[lvl].compare_exchange_strong(succs[lvl], newNode)) findNode(...)] *)
Fixpoint link_level (fuel : nat) (q : PQ) (item : Z) (newNode : addr) (lvl : nat)
    (preds succs : list addr) : outcome (PQ * list addr * list addr) :=
  match fuel with
  | 0 => OutOfFuel
  | S fuel' =>
      let* p := deref q (at_level preds lvl) in
      if next_at p lvl =? at_level succs lvl then
        Ok (store_next q (at_level preds lvl) lvl newNode, preds, succs)
      else
        let* (q1, _, preds1, succs1) :=
          findNode fuel' q item preds (<[lvl := next_at p lvl]> succs) in
        link_level fuel' q1 item newNode lvl preds1 succs1
  end.

(** [for (lvl = 1; lvl <= topLevel; ++lvl)]: [n] levels are left, the next
    one is [lvl]. *)
Fixpoint link_levels (fuel : nat) (q : PQ) (item : Z) (newNode : addr) (n lvl : nat)
    (preds succs : list addr) : outcome PQ :=
  match n with
  | 0 => Ok q
  | S n' =>
      let* (q1, preds1, succs1) := link_level fuel q item newNode lvl preds succs in
      link_levels fuel q1 item newNode n' (S lvl) preds1 succs1
  end.

(** The [while (true)] loop of [push]. *)
Fixpoint push_loop (fuel : nat) (q : PQ) (item : Z) (topLevel : nat)
    (preds succs : list addr) : outcome PQ :=
  match fuel with
  | 0 => OutOfFuel
  | S fuel' =>
      let* (q1, _, preds1, succs1) := findNode fuel' q item preds succs in
      let* (q2, newNode) := new_node q1 (value_node item topLevel) in
      let q3 := fold_left
                  (fun q lvl => store_next q newNode lvl (at_level succs1 lvl))
                  (seq 0 (S topLevel)) q2 in
      let* p := deref q3 (at_level preds1 0) in
      if next_at p 0 =? at_level succs1 0 then
        let q4 := store_next q3 (at_level preds1 0) 0 newNode in
        let* q5 := link_levels fuel' q4 item newNode topLevel 1 preds1 succs1 in
        let q6 := store_fullyLinked q5 newNode true in
        Ok (with_count q6 (wrap (count_ q6 + 1)))
      else
        push_loop fuel' (delete q3 newNode) item topLevel preds1 succs1
  end.

(** [void push(const T& item) noexcept] *)
Definition push (fuel : nat) (q : PQ) (item : Z) (coin : nat -> bool) : outcome PQ :=
  noexcept (push_loop fuel q item (randomLevel coin) no_nodes no_nodes).

(** The unlink loop of [pop], levels [n - 1] down to [0].  [node] is the
    [expected] argument of the compare-exchange, which is passed by
    reference: a failed exchange overwrites it with the value found. *)
Fixpoint unlink_levels (q : PQ) (n : nat) (node : addr) (preds : list addr)
  : outcome (PQ * addr) :=
  match n with
  | 0 => Ok (q, node)
  | S lvl =>
      let* nd := deref q node in
      let* p := deref q (at_level preds lvl) in
      if next_at p lvl =? node then
        unlink_levels (store_next q (at_level preds lvl) lvl (next_at nd lvl)) lvl node preds
      else
        unlink_levels q lvl (next_at p lvl) preds
  end.

(** The block [retired_.push_back] needs (libstdc++): a vector with room
    left allocates nothing; a full one asks the allocator for a block of
    twice its size (of one record when it is empty), moves its records there
    and gives the old block, when it had one, back. *)
Definition grow_retired (q : PQ) : outcome PQ :=
  let n := length (HazardDomain.retired_ (domain_ q)) in
  if n <? retired_capacity_ q then Ok q
  else
    match avail (mem q) with
    | 0 => BadAlloc q
    | S a =>
        Ok {| mem := {| cells := cells (mem q);
                        avail := if retired_capacity_ q =? 0 then a else S a |};
              head_ := head_ q; tail_ := tail_ q; count_ := count_ q;
              domain_ := domain_ q;
              retired_capacity_ := n + Nat.max n 1 |}
    end.

(** [domain_->retire(node, deleter)] where the deleter is [delete]; the
    lambda has no captures, so the [std::function] allocates nothing.
    [retire] allocates in two places: [retired_.push_back], and
    [hazards.reserve(MAX_HAZARD_POINTERS)] when it goes on to [scan]; that
    block is asked for before the slots are read and is given back when
    [scan] returns.  [erase] allocates nothing and leaves the capacity. *)
Definition retire_node (q : PQ) (node : addr) : outcome PQ :=
  let* q1 := grow_retired q in
  let d := domain_ q1 in
  let pushed_back :=
    {| HazardDomain.hp_ := HazardDomain.hp_ d;
       HazardDomain.retired_ :=
         HazardDomain.retired_ d ++ [HazardDomain.mkRetired node free] |} in
  if (HazardDomain.MAX_HAZARD_POINTERS <? length (HazardDomain.retired_ pushed_back))
     && (avail (mem q1) =? 0)
  then BadAlloc (with_domain q1 pushed_back)
  else
    let '(d', w) := HazardDomain.retire d node free (Some (mem q1)) in
    match w with
    | Some m =>
        Ok {| mem := m; head_ := head_ q1; tail_ := tail_ q1;
              count_ := count_ q1; domain_ := d';
              retired_capacity_ := retired_capacity_ q1 |}
    | None => Fault DoubleFree
    end.

(** The [while (true)] loop of [pop]; [Some out] stands for [true] with the
    out-parameter set, [None] for [false]. *)
Fixpoint pop_loop (fuel : nat) (q : PQ) : outcome (PQ * option Z) :=
  match fuel with
  | 0 => OutOfFuel
  | S fuel' =>
      let* h := deref q (head_ q) in
      let node := next_at h 0 in
      if node =? tail_ q then Ok (q, None)
      else
        let* n := deref q node in
        if negb (fullyLinked n) then pop_loop fuel' q
        else if marked n then pop_loop fuel' q
        else
          let q1 := store_marked q node true in
          let out := value n in
          let* (q2, _, preds, succs) := findNode fuel' q1 out no_nodes no_nodes in
          let* (q3, node') := unlink_levels q2 (S (topLevel n)) node preds in
          let* q4 := retire_node q3 node' in
          Ok (with_count q4 (wrap (count_ q4 - 1)), Some out)
  end.

(** [bool pop(T& out) noexcept] *)
Definition pop (fuel : nat) (q : PQ) : outcome (PQ * option Z) :=
  noexcept (pop_loop fuel q).

(** [bool empty() const noexcept] *)
Definition empty (q : PQ) : bool := (count_ q =? 0)%Z.

(** [size_t size() const noexcept] *)
Definition size (q : PQ) : Z := count_ q.

(** The loop of the destructor: [node] is deleted after its bottom successor
    was read; the walk stops in front of the tail sentinel. *)
Fixpoint destroy_loop (fuel : nat) (q : PQ) (node : addr) : outcome PQ :=
  match fuel with
  | 0 => OutOfFuel
  | S fuel' =>
      if node =? nullptr then Ok q
      else
        let* n := deref q node in
        let next := next_at n 0 in
        destroy_loop fuel' (delete q node)
          (if next =? tail_ q then nullptr else next)
  end.

(** [delete p] of a pointer that may be stale: deleting [nullptr] does
    nothing, deleting an object that is gone is a fault. *)
Definition delete_object (q : PQ) (p : addr) : outcome PQ :=
  if p =? nullptr then Ok q
  else let* _ := deref q p in Ok (delete q p).

(** [~LockFreePQ()]: the loop, then [delete tail_]. *)
Definition destroy (fuel : nat) (q : PQ) : outcome PQ :=
  let* q1 := destroy_loop fuel q (head_ q) in
  delete_object q1 (tail_ q1).

End LockFreePQ.

(* ------------------------------------------------------------------------- *)
(** ** Observations on queue states and single-threaded runs *)
(* ------------------------------------------------------------------------- *)

Import LockFreePQ.

(** The state [construct] builds when the allocator can provide the two
    sentinels: the head lives at address [1], the tail at address [2]. *)
Definition head_node : Node :=
  {| value := 0%Z; topLevel := MaxLevel;
     next := replicate (S MaxLevel) 2;
     marked := false; fullyLinked := false |}.

Definition fresh (d : HazardDomain.t (option Heap)) (a : nat) : PQ :=
  {| mem := {| cells := [None; Some head_node; Some (sentinel MaxLevel)];
               avail := a |};
     head_ := 1; tail_ := 2; count_ := 0%Z; domain_ := d;
     retired_capacity_ := length (HazardDomain.retired_ d) |}.

(** Walking [next[level]] from [p]: the addresses visited before the tail
    sentinel, or [None] when the walk meets a bad pointer or does not reach
    the tail within [gas] steps. *)
Fixpoint walk (gas : nat) (q : PQ) (level : nat) (p : addr) : option (list addr) :=
  match gas with
  | 0 => None
  | S gas' =>
      match deref q p with
      | Ok n =>
          let s := next_at n level in
          if s =? tail_ q then Some []
          else option_map (cons s) (walk gas' q level s)
      | _ => None
      end
  end.

(** The nodes of a level, head and tail excluded.  A walk that visits no
    object twice takes at most as many steps as there are cells. *)
Definition level_nodes (q : PQ) (level : nat) : option (list addr) :=
  walk (length (cells (mem q))) q level (head_ q).

Definition bottom (q : PQ) : option (list addr) := level_nodes q 0.

Definition value_at (q : PQ) (p : addr) : Z :=
  match deref q p with
  | Ok n => value n
  | _ => 0%Z
  end.

(** I1: the bottom walk reaches the tail and the values on it never decrease. *)
Definition bottom_ordered (q : PQ) : Prop :=
  exists xs, bottom q = Some xs /\ Sorted Z.le (map (value_at q) xs).

(** Single-threaded use: a sequence of calls on one queue.  A [Push] carries
    the coin flips its [randomLevel] draws. *)
Inductive op :=
| Push (item : Z) (coin : nat -> bool)
| Pop.

Fixpoint run (fuel : nat) (q : PQ) (ops : list op) : outcome (PQ * list (option Z)) :=
  match ops with
  | [] => Ok (q, [])
  | Push item coin :: rest =>
      let* q1 := push fuel q item coin in
      run fuel q1 rest
  | Pop :: rest =>
      let* (q1, r) := pop fuel q in
      let* (q2, rs) := run fuel q1 rest in
      Ok (q2, r :: rs)
  end.

Definition is_push (o : op) : bool :=
  match o with Push _ _ => true | Pop => false end.

Definition pushes (ops : list op) : nat := length (List.filter is_push ops).

Definition is_hit (r : option Z) : bool :=
  match r with Some _ => true | None => false end.

Definition hits (rs : list (option Z)) : nat := length (List.filter is_hit rs).

(** One completed call of [push], [pop] or [findNode]. *)
Inductive step : PQ -> PQ -> Prop :=
| step_push fuel q item coin q' :
    push fuel q item coin = Ok q' -> step q q'
| step_pop fuel q q' r :
    pop fuel q = Ok (q', r) -> step q q'
| step_find fuel q key preds succs q' b preds' succs' :
    findNode fuel q key preds succs = Ok (q', b, preds', succs') -> step q q'.

(** The states a program can bring a queue into. *)
Inductive reachable (d : HazardDomain.t (option Heap)) (a : nat) : PQ -> Prop :=
| reach_fresh : reachable d a (fresh d a)
| reach_step q q' : reachable d a q -> step q q' -> reachable d a q'.

(** What the fields other than the cells hold. *)
Definition frame (q : PQ)
  : addr * addr * Z * HazardDomain.t (option Heap) * nat * nat :=
  (head_ q, tail_ q, count_ q, domain_ q, avail (mem q), retired_capacity_ q).

(** A store in which one node of full height with key [10] sits between the
    sentinels on every level (address [3]); the allocator can provide [a]
    more objects, and the vector of the domain [d] has no room to spare. *)
Definition tall_node : Node :=
  {| value := 10%Z; topLevel := MaxLevel;
     next := replicate (S MaxLevel) 2;
     marked := false; fullyLinked := true |}.

Definition one_tall (d : HazardDomain.t (option Heap)) (a : nat) : PQ :=
  {| mem := {| cells := [None;
                         Some {| value := 0%Z; topLevel := MaxLevel;
                                 next := replicate (S MaxLevel) 3;
                                 marked := false; fullyLinked := false |};
                         Some (sentinel MaxLevel);
                         Some tall_node];
               avail := a |};
     head_ := 1; tail_ := 2; count_ := 1%Z; domain_ := d;
     retired_capacity_ := length (HazardDomain.retired_ d) |}.

Definition heads : nat -> bool := fun _ => true.
Definition tails : nat -> bool := fun _ => false.

(** The levels of the store of [q] as lists of addresses, when they are all
    well formed. *)
Definition levels_are (q : PQ) (xs : list addr) : bool :=
  forallb
    (fun l => match level_nodes q l with
              | Some ys => bool_decide (xs = ys)
              | None => false
              end)
    (seq 0 (S MaxLevel)).

(** The store [push] builds from [one_tall] for key [5] and level [1]: the new
    node (address [4]) stands in front of the tall node on levels [0] and [1]. *)
Definition two_nodes (d : HazardDomain.t (option Heap)) (a : nat) : PQ :=
  {| mem := {| cells := [None;
                         Some {| value := 0%Z; topLevel := MaxLevel;
                                 next := [4; 4] ++ replicate 15 3;
                                 marked := false; fullyLinked := false |};
                         Some (sentinel MaxLevel);
                         Some tall_node;
                         Some {| value := 5%Z; topLevel := 1;
                                 next := [3; 3] ++ replicate 15 nullptr;
                                 marked := false; fullyLinked := true |}];
               avail := a |};
     head_ := 1; tail_ := 2; count_ := 2%Z; domain_ := d;
     retired_capacity_ := length (HazardDomain.retired_ d) |}.

Definition once : nat -> bool := fun k => k <? 1.

Definition node_marked (q : PQ) (p : addr) : option bool :=
  match deref q p with
  | Ok n => Some (marked n)
  | _ => None
  end.

Definition retired_addrs (q : PQ) : list addr :=
  map HazardDomain.ptr (HazardDomain.retired_ (domain_ q)).

(* ------------------------------------------------------------------------- *)
(** ** Levels as chains, and the shape of a skip list *)
(* ------------------------------------------------------------------------- *)

(** The successor of the object at [p] on level [l]. *)
Definition succ_of (q : PQ) (l : nat) (p : addr) : option addr :=
  match deref q p with
  | Ok n => Some (next_at n l)
  | _ => None
  end.

(** [chain q l p xs]: following [next[l]] from [p] visits exactly [xs] and
    then the tail sentinel. *)
Fixpoint chain (q : PQ) (l : nat) (p : addr) (xs : list addr) : Prop :=
  match xs with
  | [] => succ_of q l p = Some (tail_ q)
  | x :: xs' => succ_of q l p = Some x /\ x <> tail_ q /\ chain q l x xs'
  end.

(** An object that exists and is not marked. *)
Definition live (q : PQ) (p : addr) : bool :=
  match deref q p with
  | Ok n => negb (marked n)
  | _ => false
  end.

(** Every node has its [MaxLevel + 1] successor cells. *)
Definition sound_cell (o : option Node) : bool :=
  match o with
  | Some n => length (next n) =? S MaxLevel
  | None => true
  end.

(** The tail sentinel is as its constructor left it: unmarked, every
    successor [nullptr]. *)
Definition tail_ok (q : PQ) : bool :=
  match deref q (tail_ q) with
  | Ok t => negb (marked t)
            && forallb (fun l => next_at t l =? nullptr) (seq 0 (S MaxLevel))
  | _ => false
  end.

(** Level [l] is a list from head to tail of unmarked nodes. *)
Definition level_ok (q : PQ) (l : nat) : bool :=
  match level_nodes q l with
  | Some xs => forallb (live q) xs
  | None => false
  end.

(** I2 between two neighbouring levels: a node on level [l + 1] is on
    level [l]. *)
Definition contained (q : PQ) (l : nat) : bool :=
  match level_nodes q (S l), level_nodes q l with
  | Some hi, Some lo => forallb (fun x => existsb (Nat.eqb x) lo) hi
  | _, _ => false
  end.

(** The skip-list shape of the data model: towers contained in the levels
    below, no marked node linked, sentinels in place. *)
Definition well_formed (q : PQ) : bool :=
  forallb sound_cell (cells (mem q))
  && tail_ok q
  && forallb (level_ok q) (seq 0 (S MaxLevel))
  && forallb (contained q) (seq 0 MaxLevel).

(* ------------------------------------------------------------------------- *)
(** ** What a traversal and a completed [push] establish *)
(* ------------------------------------------------------------------------- *)

(** Where a key goes on level [l]: [c] is the first node of the level whose
    key is not below [key], [p] the node before it (the head when there is
    none). *)
Definition splice_at (q : PQ) (l : nat) (key : Z) (p c : addr) : Prop :=
  exists A B,
    level_nodes q l = Some (A ++ c :: B)
    /\ p = List.last A (head_ q)
    /\ (p = head_ q \/ (value_at q p < key)%Z)
    /\ (key <= value_at q c)%Z.

(** What the traversal knows about [pred] when it enters the levels below
    [n]: it is the head, or a node with a smaller key that stands on each of
    these levels. *)
Definition pred_ok (q : PQ) (n : nat) (key : Z) (pred : addr) : Prop :=
  pred = head_ q
  \/ ((value_at q pred < key)%Z
      /\ forall l, l < n -> exists L, level_nodes q l = Some L /\ pred ∈ L).

(** A list of stores [p->next[l] = v], done from left to right. *)
Definition apply_stores (q : PQ) (sts : list (addr * nat * addr)) : PQ :=
  fold_left (fun q st => store_next q st.1.1 st.1.2 st.2) sts q.

(** What the stores [sts] leave in cell [l] of the object at [x] when it held
    [cur] before. *)
Definition final (sts : list (addr * nat * addr)) (x : addr) (l : nat) (cur : addr) : addr :=
  fold_left (fun cur st => if (st.1.1 =? x) && (st.1.2 =? l) then st.2 else cur) sts cur.

(** The stores of a [push] whose compare-exchanges all succeed: the cells of
    the new node, then the predecessors on the levels below [j]. *)
Definition init_stores (newNode : addr) (succs : list addr) (k : nat) : list (addr * nat * addr) :=
  map (fun l => (newNode, l, at_level succs l)) (seq 0 (S k)).

Definition link_stores (newNode : addr) (preds : list addr) (i j : nat) : list (addr * nat * addr) :=
  map (fun l => (at_level preds l, l, newNode)) (seq i j).

(** Two nodes that differ at most in their successor cells. *)
Definition same_fields (n n' : Node) : Prop :=
  value n' = value n /\ topLevel n' = topLevel n /\ marked n' = marked n
  /\ fullyLinked n' = fullyLinked n /\ length (next n') = length (next n).

(** The store after a [push] of [item] with level [k] at the splice points
    [preds], [succs]: the objects that were there keep their fields and their
    successors, except that [preds[l]] now points at the new node on the
    levels up to [k]; the new node points at [succs[l]] on these levels and is
    fully linked; every node still has all its successor cells. *)
Definition pushed (q q' : PQ) (newNode : addr) (item : Z) (k : nat)
    (preds succs : list addr) : Prop :=
  newNode = length (cells (mem q))
  /\ head_ q' = head_ q /\ tail_ q' = tail_ q
  /\ count_ q' = wrap (count_ q + 1)
  /\ (forall x n, deref q x = Ok n ->
        exists n', deref q' x = Ok n' /\ same_fields n n'
                   /\ forall l, l < length (next n) ->
                        next_at n' l
                        = if (l <=? k) && (at_level preds l =? x)
                          then newNode else next_at n l)
  /\ (exists nd, deref q' newNode = Ok nd
                 /\ value nd = item /\ topLevel nd = k
                 /\ marked nd = false /\ fullyLinked nd = true
                 /\ forall l, l <= k -> next_at nd l = at_level succs l)
  /\ forallb sound_cell (cells (mem q')) = true.

(** Every level is ordered by key. *)
Definition levels_ordered (q : PQ) : Prop :=
  forall l L, l <= MaxLevel -> level_nodes q l = Some L ->
              Sorted Z.le (map (value_at q) L).

(** A node of full height whose key is not below [key]. *)
Definition has_stopper (q : PQ) (key : Z) : Prop :=
  exists T L, level_nodes q MaxLevel = Some L /\ T ∈ L /\ (key <= value_at q T)%Z.

(** The keys on the bottom level, in walk order. *)
Definition bottom_values (q : PQ) : option (list Z) :=
  option_map (map (value_at q)) (bottom q).

(** The pushes of scenario 1, each with level [1]. *)
Definition scenario_pushes : list op :=
  map (fun v => Push v once) [3; 1; 4; 1; 5; 9; 2; 6]%Z.

(** A list of pushes, each with the coin flips of its [randomLevel]. *)
Definition push_all (items : list (Z * (nat -> bool))) : list op :=
  map (fun ic => Push ic.1 ic.2) items.

(** The keys of a list of pushes. *)
Definition keys (items : list (Z * (nat -> bool))) : list Z := map fst items.

(** A node that stands on the bottom level only: it is fully linked, its
    height is [0], and level [1] does not hold it. *)
Definition bottom_only (q : PQ) (x : addr) : Prop :=
  (exists n, deref q x = Ok n /\ fullyLinked n = true /\ topLevel n = 0)
  /\ forall L, level_nodes q 1 = Some L -> x ∉ L.

(** The reference the queue is compared with: a list of keys in ascending
    order.  A push puts the key in front of the first key that is not below
    it, a pop takes the first key; popping the empty list is left
    undefined. *)
Fixpoint insert_key (v : Z) (ks : list Z) : list Z :=
  match ks with
  | [] => [v]
  | k :: ks' => if (k <? v)%Z then k :: insert_key v ks' else v :: ks
  end.

Fixpoint model_run (ks : list Z) (ops : list op)
  : option (list Z * list (option Z)) :=
  match ops with
  | [] => Some (ks, [])
  | Push v _ :: rest => model_run (insert_key v ks) rest
  | Pop :: rest =>
      match ks with
      | [] => None
      | k :: ks' =>
          match model_run ks' rest with
          | Some (ks2, rs) => Some (ks2, Some k :: rs)
          | None => None
          end
      end
  end.

(** A push of height [0] of a key that is at most [bound]; any pop. *)
Definition low_op (bound : Z) (o : op) : Prop :=
  match o with
  | Push v coin => randomLevel coin = 0 /\ (v <= bound)%Z
  | Pop => True
  end.

Definition pops (ops : list op) : nat :=
  length (List.filter (fun o => negb (is_push o)) ops).

(** The store [push] builds from [one_tall] for key [5] and level [0]: the
    new node (address [4]) stands in front of the tall node on the bottom
    level only. *)
Definition low_and_tall (d : HazardDomain.t (option Heap)) (a : nat) : PQ :=
  {| mem := {| cells := [None;
                         Some {| value := 0%Z; topLevel := MaxLevel;
                                 next := 4 :: replicate 16 3;
                                 marked := false; fullyLinked := false |};
                         Some (sentinel MaxLevel);
                         Some tall_node;
                         Some {| value := 5%Z; topLevel := 0;
                                 next := 3 :: replicate 16 nullptr;
                                 marked := false; fullyLinked := true |}];
               avail := a |};
     head_ := 1; tail_ := 2; count_ := 2%Z; domain_ := d;
     retired_capacity_ := length (HazardDomain.retired_ d) |}.

(** The domain is one object for the whole program
    ([HazardDomain::instance]), so the records of other queues stand in the
    same list.  [busy_domain n] holds the records of [n] nodes another queue
    has retired, the objects at the addresses [5], ..., [4 + n]; no hazard
    slot is set. *)
Definition busy_domain (n : nat) : HazardDomain.t (option Heap) :=
  {| HazardDomain.hp_ := replicate HazardDomain.MAX_HAZARD_POINTERS nullptr;
     HazardDomain.retired_ :=
       map (fun p => HazardDomain.mkRetired p free) (seq 5 n) |}.

(** The store of [low_and_tall] beside these [n] nodes. *)
Definition low_and_tall_beside (n a : nat) : PQ :=
  let q := low_and_tall (busy_domain n) a in
  with_mem q {| cells := cells (mem q) ++ replicate n (Some (value_node 0 0));
                avail := a |}.

(** The domain after [n] rounds of a push in front of the tall node and a
    pop: each of the pops has retired the tall node (address [3]). *)
Definition tall_retired (n : nat) : HazardDomain.t (option Heap) :=
  {| HazardDomain.hp_ := replicate HazardDomain.MAX_HAZARD_POINTERS nullptr;
     HazardDomain.retired_ := replicate n (HazardDomain.mkRetired 3 free) |}.

(** [n] rounds of a push of key [5] with height [0] and a pop. *)
Definition rounds (n : nat) : list op :=
  concat (repeat [Push 5%Z tails; Pop] n).

(* ------------------------------------------------------------------------- *)
(** ** The demo driver [main.cpp]: percentiles and histogram of the latencies *)
(* ------------------------------------------------------------------------- *)

Module Driver.

Local Open Scope Z_scope.

(** [long long] arithmetic: a result outside 64 signed bits is undefined
    behaviour. *)
Definition ll (z : Z) : option Z :=
  if (- 2 ^ 63 <=? z) && (z <? 2 ^ 63) then Some z else None.

(** [static_cast<int>] of a [long long]: the value modulo [2 ^ 32]. *)
Definition to_int (z : Z) : Z := (z + 2 ^ 31) mod 2 ^ 32 - 2 ^ 31.

(** [const int bins = 10] *)
Definition bins : Z := 10.

(** The lambda [percentile]: [x] stands for what
    [static_cast<size_t>((p / 100.0) * pops.size())] yields, a [size_t];
    [pops.size() - 1] is computed in [size_t]. *)
Definition percentile_index (x : Z) (pops : list Z) : Z :=
  Z.min x (wrap (Z.of_nat (length pops) - 1)).

(** [return pops[idx]]: the access is not checked, [None] is a read outside
    the vector. *)
Definition percentile (x : Z) (pops : list Z) : option Z :=
  pops !! Z.to_nat (percentile_index x pops).

(** The bin of one sample:
    [int bin = static_cast<int>((v - min_lat) * bins / range);
     if (bin >= bins) bin = bins - 1;] *)
Definition bin_of (min_lat range v : Z) : option Z :=
  match ll (v - min_lat) with
  | Some d =>
      match ll (d * bins) with
      | Some m =>
          if range =? 0 then None
          else
            match ll (Z.quot m range) with
            | Some b =>
                let bin := to_int b in
                Some (if bins <=? bin then bins - 1 else bin)
            | None => None
            end
      | None => None
      end
  | None => None
  end.

(** The loop over [pops] with [++counts[bin]]; the access is not checked. *)
Fixpoint count_bins (min_lat range : Z) (pops : list Z) (counts : list nat)
  : option (list nat) :=
  match pops with
  | [] => Some counts
  | v :: rest =>
      match bin_of min_lat range v with
      | Some bin =>
          if (0 <=? bin) && (bin <? Z.of_nat (length counts))
          then count_bins min_lat range rest (alter S (Z.to_nat bin) counts)
          else None
      | None => None
      end
  end.

(** [long long range = max_lat - min_lat + 1] *)
Definition range_of (min_lat max_lat : Z) : option Z :=
  match ll (max_lat - min_lat) with
  | Some d => ll (d + 1)
  | None => None
  end.

(** The counts of the histogram of a sorted, non-empty [pops]; for an empty
    [pops] the driver builds no histogram. *)
Definition histogram (pops : list Z) : option (list nat) :=
  match pops with
  | [] => Some []
  | front :: _ =>
      match range_of front (List.last pops front) with
      | Some range => count_bins front range pops (replicate (Z.to_nat bins) 0%nat)
      | None => None
      end
  end.

End Driver.

(* ------------------------------------------------------------------------- *)
(** ** The reclamation domain: [retire] and [scan] *)
(* ------------------------------------------------------------------------- *)

Section DomainFacts.
Context {W : Type}.
Implicit Types (d : HazardDomain.t W) (rs : list (HazardDomain.Retired W)) (w : W).

Lemma snapshot_fold d (idxs : list nat) (acc : list addr) :
  fold_left
    (fun hazards i =>
       let p := nth i (HazardDomain.hp_ d) nullptr in
       if p =? nullptr then hazards else hazards ++ [p]) idxs acc
  = acc ++ List.filter HazardDomain.nonnull (map (fun i => nth i (HazardDomain.hp_ d) nullptr) idxs).
Proof.
  revert acc. induction idxs as [|i idxs IH]; intros acc; simpl.
  - now rewrite app_nil_r.
  - rewrite IH. unfold HazardDomain.nonnull at 2.
    destruct (nth i (HazardDomain.hp_ d) nullptr =? nullptr); simpl.
    + reflexivity.
    + now rewrite <- app_assoc.
Qed.

Lemma snapshot_nonnull_slots d :
  HazardDomain.snapshot d = List.filter HazardDomain.nonnull (HazardDomain.slots d).
Proof. unfold HazardDomain.snapshot. now rewrite snapshot_fold. Qed.

Lemma sweep_filter hazards rs : forall w,
  HazardDomain.sweep hazards rs w
  = (HazardDomain.spec_kept hazards rs,
     HazardDomain.run_deleters (HazardDomain.spec_deleted hazards rs) w).
Proof.
  induction rs as [|r rs IH]; intros w; simpl; [reflexivity|].
  unfold HazardDomain.absent, HazardDomain.protected_by.
  destruct (existsb (Nat.eqb (HazardDomain.ptr r)) hazards); simpl.
  - now rewrite IH.
  - now rewrite IH.
Qed.

Lemma scan_filter d w :
  HazardDomain.scan d w
  = (HazardDomain.mk (HazardDomain.hp_ d)
       (HazardDomain.spec_kept (HazardDomain.snapshot d) (HazardDomain.retired_ d)),
     HazardDomain.run_deleters
       (HazardDomain.spec_deleted (HazardDomain.snapshot d) (HazardDomain.retired_ d)) w).
Proof. unfold HazardDomain.scan. now rewrite sweep_filter. Qed.


End DomainFacts.


(* ------------------------------------------------------------------------- *)
(** ** Level generation *)
(* ------------------------------------------------------------------------- *)

Lemma randomLevel_loop_le gas coin : forall lvl,
  lvl <= MaxLevel -> randomLevel_loop gas coin lvl <= MaxLevel.
Proof.
  induction gas as [|gas IH]; intros lvl Hl; simpl; [exact Hl|].
  destruct (coin lvl); simpl; [|exact Hl].
  destruct (Nat.ltb_spec lvl MaxLevel); [|exact Hl].
  apply IH. lia.
Qed.

Lemma randomLevel_loop_exit gas coin : forall lvl,
  MaxLevel < gas + lvl ->
  coin (randomLevel_loop gas coin lvl)
  && (randomLevel_loop gas coin lvl <? MaxLevel) = false.
Proof.
  induction gas as [|gas IH]; intros lvl Hg; simpl.
  - destruct (Nat.ltb_spec lvl MaxLevel); [lia|]. apply andb_false_r.
  - destruct (coin lvl && (lvl <? MaxLevel)) eqn:E; [|exact E].
    apply IH. lia.
Qed.

Lemma randomLevel_loop_heads gas : forall lvl,
  lvl <= MaxLevel -> MaxLevel < gas + lvl ->
  randomLevel_loop gas heads lvl = MaxLevel.
Proof.
  induction gas as [|gas IH]; intros lvl Hl Hg; simpl.
  - lia.
  - unfold heads at 1. simpl.
    destruct (Nat.ltb_spec lvl MaxLevel).
    + apply IH; lia.
    + lia.
Qed.

(* ------------------------------------------------------------------------- *)
(** ** What the traversal and the link loops leave alone *)
(* ------------------------------------------------------------------------- *)

Lemma bind_Ok {A B} (x : outcome A) (k : A -> outcome B) (b : B) :
  bind x k = Ok b -> exists a, x = Ok a /\ k a = Ok b.
Proof. destruct x; simpl; intros H; try discriminate. eauto. Qed.

Lemma noexcept_Ok {A} (x : outcome A) (a : A) : noexcept x = Ok a -> x = Ok a.
Proof. destruct x; simpl; intros H; try discriminate; exact H. Qed.

(** Split a hypothesis [let* p := e in k = Ok _] into the two calls. *)
Ltac bind_inv H :=
  let a := fresh "a" in
  let E := fresh "E" in
  apply bind_Ok in H as (a & E & H).

Lemma frame_store_next q p l v : frame (store_next q p l v) = frame q.
Proof. reflexivity. Qed.

Lemma skip_marked_frame fuel : forall q level pred curr succ q' c s,
  skip_marked fuel q level pred curr succ = Ok (q', c, s) -> frame q' = frame q.
Proof.
  induction fuel as [|fuel IH]; intros q level pred curr succ q' c s H; simpl in H.
  - discriminate.
  - bind_inv H. destruct (marked a).
    + bind_inv H. destruct (next_at a0 level =? curr).
      * bind_inv H. apply IH in H. now rewrite H.
      * now apply IH in H.
    + now inversion H.
Qed.

Lemma find_level_frame fuel : forall q key level pred curr q' p c,
  find_level fuel q key level pred curr = Ok (q', p, c) -> frame q' = frame q.
Proof.
  induction fuel as [|fuel IH]; intros q key level pred curr q' p c H; simpl in H.
  - discriminate.
  - bind_inv H. bind_inv H. destruct a0 as [[q1 curr1] succ1].
    apply skip_marked_frame in E0.
    destruct (curr1 =? tail_ q1).
    + apply IH in H. congruence.
    + bind_inv H. destruct (value a0 <? key)%Z.
      * apply IH in H. congruence.
      * inversion H; subst. exact E0.
Qed.

Lemma find_levels_frame fuel key n : forall q pred preds succs q' preds' succs',
  find_levels fuel q key n pred preds succs = Ok (q', preds', succs') ->
  frame q' = frame q.
Proof.
  induction n as [|n IH]; intros q pred preds succs q' preds' succs' H; simpl in H.
  - now inversion H.
  - bind_inv H. bind_inv H. destruct a0 as [[q1 pred1] curr1].
    apply find_level_frame in E0. apply IH in H. congruence.
Qed.

Lemma findNode_frame fuel q key preds succs q' b preds' succs' :
  findNode fuel q key preds succs = Ok (q', b, preds', succs') -> frame q' = frame q.
Proof.
  unfold findNode. intros H. bind_inv H. destruct a as [[q1 preds1] succs1].
  apply find_levels_frame in E.
  destruct (at_level succs1 0 =? tail_ q1).
  - inversion H; subst. exact E.
  - bind_inv H. inversion H; subst. exact E.
Qed.

Lemma link_level_frame fuel : forall q item newNode lvl preds succs q' preds' succs',
  link_level fuel q item newNode lvl preds succs = Ok (q', preds', succs') ->
  frame q' = frame q.
Proof.
  induction fuel as [|fuel IH]; intros q item newNode lvl preds succs q' preds' succs' H;
    simpl in H.
  - discriminate.
  - bind_inv H. destruct (next_at a lvl =? at_level succs lvl).
    + now inversion H.
    + bind_inv H. destruct a0 as [[[q1 b] preds1] succs1].
      apply findNode_frame in E0. apply IH in H. congruence.
Qed.

Lemma link_levels_frame fuel item newNode n : forall q lvl preds succs q',
  link_levels fuel q item newNode n lvl preds succs = Ok q' -> frame q' = frame q.
Proof.
  induction n as [|n IH]; intros q lvl preds succs q' H; simpl in H.
  - now inversion H.
  - bind_inv H. destruct a as [[q1 preds1] succs1].
    apply link_level_frame in E. apply IH in H. congruence.
Qed.

Lemma init_next_frame newNode succs (lvls : list nat) : forall q,
  frame (fold_left (fun q lvl => store_next q newNode lvl (at_level succs lvl)) lvls q)
  = frame q.
Proof.
  induction lvls as [|l lvls IH]; intros q; simpl; [reflexivity|].
  now rewrite IH.
Qed.

Lemma unlink_levels_frame preds n : forall q node q' node',
  unlink_levels q n node preds = Ok (q', node') -> frame q' = frame q.
Proof.
  induction n as [|n IH]; intros q node q' node' H; simpl in H.
  - now inversion H.
  - bind_inv H. bind_inv H. destruct (next_at a0 n =? node).
    + apply IH in H. now rewrite H.
    + now apply IH in H.
Qed.

Lemma frame_count q q' : frame q' = frame q -> count_ q' = count_ q.
Proof. unfold frame. intros H. now inversion H. Qed.

Lemma frame_avail q q' : frame q' = frame q -> avail (mem q') = avail (mem q).
Proof. unfold frame. intros H. now inversion H. Qed.

(** A completed [push] adds one to the counter. *)
Lemma push_loop_count fuel : forall q item lvl preds succs q',
  push_loop fuel q item lvl preds succs = Ok q' ->
  count_ q' = wrap (count_ q + 1).
Proof.
  induction fuel as [|fuel IH]; intros q item lvl preds succs q' H; simpl in H.
  - discriminate.
  - bind_inv H. destruct a as [[[q1 b] preds1] succs1].
    apply findNode_frame, frame_count in E.
    bind_inv H. destruct a as [q2 newNode].
    assert (count_ q2 = count_ q1) as E2.
    { unfold new_node in E0. destruct (avail (mem q1)); [discriminate|].
      now inversion E0. }
    bind_inv H.
    match type of H with
    | (if _ then _ else push_loop _ (delete ?q3 _) _ _ _ _) = _ =>
        assert (count_ q3 = count_ q2) as E3
          by (apply frame_count; rewrite init_next_frame; reflexivity)
    end.
    destruct (next_at a 0 =? at_level succs1 0).
    + bind_inv H. apply link_levels_frame, frame_count in E4.
      inversion H; subst. cbn [count_ with_count store_fullyLinked update with_mem].
      cbn [count_ store_next update with_mem] in E4. congruence.
    + apply IH in H. cbn [count_ delete with_mem] in H. congruence.
Qed.

Lemma push_count fuel q item coin q' :
  push fuel q item coin = Ok q' -> count_ q' = wrap (count_ q + 1).
Proof. intros H. apply noexcept_Ok in H. eapply push_loop_count, H. Qed.

(** What a completed [retire] leaves as it was, and what it is made of. *)
Lemma grow_retired_Ok q q1 :
  grow_retired q = Ok q1 ->
  cells (mem q1) = cells (mem q) /\ head_ q1 = head_ q /\ tail_ q1 = tail_ q
  /\ count_ q1 = count_ q /\ domain_ q1 = domain_ q.
Proof.
  unfold grow_retired.
  destruct (length (HazardDomain.retired_ (domain_ q)) <? retired_capacity_ q).
  - intros H. inversion H; subst. repeat split.
  - destruct (avail (mem q)); [discriminate|].
    intros H. inversion H; subst. repeat split.
Qed.

Lemma retire_node_Ok q node q4 :
  retire_node q node = Ok q4 ->
  exists q1,
    grow_retired q = Ok q1
    /\ HazardDomain.retire (domain_ q) node free (Some (mem q1))
       = (domain_ q4, Some (mem q4))
    /\ head_ q4 = head_ q /\ tail_ q4 = tail_ q /\ count_ q4 = count_ q
    /\ retired_capacity_ q4 = retired_capacity_ q1.
Proof.
  unfold retire_node. intros H.
  destruct (grow_retired q) as [q1| | | |] eqn:Eg; try discriminate H.
  cbn [bind] in H.
  destruct (grow_retired_Ok _ _ Eg) as (_ & Hh & Ht & Hc & Hd).
  destruct (_ && _); [discriminate H|].
  rewrite Hd in H.
  destruct (HazardDomain.retire (domain_ q) node free (Some (mem q1))) as [d' w] eqn:Er.
  destruct w as [m|]; [|discriminate H].
  inversion H; subst q4. exists q1. cbn. repeat split; assumption.
Qed.

(** A [pop] that returns a value takes one from the counter; a [pop] that
    returns the empty indicator leaves the whole state as it was. *)
Lemma pop_loop_result fuel : forall q q' r,
  pop_loop fuel q = Ok (q', r) ->
  match r with
  | Some _ => count_ q' = wrap (count_ q - 1)
  | None => q' = q
  end.
Proof.
  induction fuel as [|fuel IH]; intros q q' r H; simpl in H.
  - discriminate.
  - bind_inv H. destruct (next_at a 0 =? tail_ q).
    + now inversion H.
    + bind_inv H. destruct (fullyLinked a0); simpl in H; [|now apply IH].
      destruct (marked a0); [now apply IH|].
      bind_inv H. destruct a1 as [[[q2 b] preds] succs].
      apply findNode_frame, frame_count in E1.
      bind_inv H. destruct a1 as [q3 node'].
      apply (unlink_levels_frame preds (S (topLevel a0))), frame_count in E2.
      bind_inv H. inversion H; subst.
      apply retire_node_Ok in E3 as (_ & _ & _ & _ & _ & E4 & _).
      cbn [count_ with_count]. rewrite E4, E2, E1. reflexivity.
Qed.

Lemma pop_result fuel q q' r :
  pop fuel q = Ok (q', r) ->
  match r with
  | Some _ => count_ q' = wrap (count_ q - 1)
  | None => q' = q
  end.
Proof. intros H. apply noexcept_Ok in H. eapply pop_loop_result, H. Qed.

(* ------------------------------------------------------------------------- *)
(** ** The freshly constructed queue *)
(* ------------------------------------------------------------------------- *)

Lemma construct_fresh d a : construct d (S (S a)) = Ok (fresh d a).
Proof. reflexivity. Qed.

(** On the fresh queue the traversal starts at level [MaxLevel] with
    [curr = tail_]; the test [curr == tail_ || curr->value < key] makes it
    step to [tail_->next[MaxLevel]], which is [nullptr], and the next
    iteration reads through it. *)
Lemma findNode_fresh fuel d a key preds succs :
  findNode fuel (fresh d a) key preds succs
  = if fuel <? 2 then OutOfFuel else Fault NullDeref.
Proof. destruct fuel as [|[|fuel]]; reflexivity. Qed.

Lemma push_fresh fuel d a item coin :
  push fuel (fresh d a) item coin
  = if fuel <? 3 then OutOfFuel else Fault NullDeref.
Proof.
  unfold push. generalize (randomLevel coin). intros lvl.
  destruct fuel as [|[|[|fuel]]]; reflexivity.
Qed.

Lemma pop_fresh fuel d a :
  pop fuel (fresh d a)
  = if fuel <? 1 then OutOfFuel else Ok (fresh d a, None).
Proof. destruct fuel; reflexivity. Qed.

Lemma run_fresh_first_push fuel d a item coin rest :
  run fuel (fresh d a) (Push item coin :: rest)
  = if fuel <? 3 then OutOfFuel else Fault NullDeref.
Proof. cbn [run]. rewrite push_fresh. now destruct (fuel <? 3). Qed.

(** A run on the fresh queue that completes made no [push], returned the
    empty indicator from every [pop] and is still in the fresh state. *)
Lemma run_fresh_Ok fuel d a ops : forall q' rs,
  run fuel (fresh d a) ops = Ok (q', rs) ->
  pushes ops = 0 /\ q' = fresh d a /\ hits rs = 0.
Proof.
  induction ops as [|[item coin|] ops IH]; intros q' rs H.
  - inversion H. now subst.
  - rewrite run_fresh_first_push in H. now destruct (fuel <? 3).
  - cbn [run] in H. rewrite pop_fresh in H. destruct (fuel <? 1); [discriminate|].
    cbn [bind] in H. bind_inv H. destruct a0 as [q2 rs2].
    inversion H; subst. apply IH in E. unfold pushes, hits in *. simpl. tauto.
Qed.

Lemma reachable_fresh d a q : reachable d a q -> q = fresh d a.
Proof.
  induction 1 as [|q q' _ IH Hs]; [reflexivity|]. subst q.
  inversion Hs as [fuel q item coin q1 H | fuel q q1 r H
                  | fuel q key preds succs q1 b preds' succs' H]; subst.
  - rewrite push_fresh in H. now destruct (fuel <? 3).
  - rewrite pop_fresh in H. destruct (fuel <? 1); [discriminate|]. now inversion H.
  - rewrite findNode_fresh in H. now destruct (fuel <? 2).
Qed.

Lemma fresh_well_formed d a : well_formed (fresh d a) = true.
Proof. reflexivity. Qed.

Lemma bottom_ordered_fresh d a : bottom_ordered (fresh d a).
Proof. exists []. split; [reflexivity|constructor]. Qed.

Lemma bottom_empty_head q :
  bottom q = Some [] ->
  exists h, deref q (head_ q) = Ok h /\ next_at h 0 = tail_ q.
Proof.
  unfold bottom, level_nodes. destruct (length (cells (mem q))) as [|gas]; simpl.
  - discriminate.
  - destruct (deref q (head_ q)) as [h| | | |]; try discriminate.
    destruct (Nat.eqb_spec (next_at h 0) (tail_ q)) as [E|E].
    + intros _. now exists h.
    + destruct (walk gas q 0 (next_at h 0)); discriminate.
Qed.

(* ------------------------------------------------------------------------- *)
(** ** Chains *)
(* ------------------------------------------------------------------------- *)

Lemma walk_chain gas q l : forall p xs,
  walk gas q l p = Some xs -> chain q l p xs.
Proof.
  induction gas as [|gas IH]; intros p xs H; simpl in H; [discriminate|].
  destruct (deref q p) as [n| | | |] eqn:E; try discriminate.
  destruct (Nat.eqb_spec (next_at n l) (tail_ q)) as [Et|Et].
  - inversion H; subst. simpl. unfold succ_of. now rewrite E, Et.
  - destruct (walk gas q l (next_at n l)) as [ys|] eqn:W; [|discriminate].
    inversion H; subst. simpl. unfold succ_of. rewrite E.
    split; [reflexivity|]. split; [exact Et|]. now apply IH.
Qed.

Lemma level_nodes_chain q l L :
  level_nodes q l = Some L -> chain q l (head_ q) L.
Proof. apply walk_chain. Qed.

Lemma chain_functional q l : forall xs p ys,
  chain q l p xs -> chain q l p ys -> xs = ys.
Proof.
  induction xs as [|x xs IH]; intros p [|y ys] Hx Hy; simpl in *.
  - reflexivity.
  - destruct Hy as (Hy & Hn & _). congruence.
  - destruct Hx as (Hx & Hn & _). congruence.
  - destruct Hx as (Hx & _ & Hx'), Hy as (Hy & _ & Hy').
    assert (x = y) by congruence. subst y. f_equal. eapply IH; eauto.
Qed.

Lemma chain_app q l : forall A p x B,
  chain q l p (A ++ x :: B) -> chain q l x B.
Proof.
  induction A as [|a A IH]; intros p x B H; simpl in H.
  - tauto.
  - destruct H as (_ & _ & H). eapply IH, H.
Qed.

Lemma chain_not_tail q l : forall xs p, chain q l p xs -> tail_ q ∉ xs.
Proof.
  induction xs as [|x xs IH]; intros p H; simpl in H.
  - apply not_elem_of_nil.
  - destruct H as (_ & Hn & H). apply not_elem_of_cons. split; [congruence|].
    eapply IH, H.
Qed.

Lemma chain_NoDup q l : forall xs p, chain q l p xs -> NoDup (p :: xs).
Proof.
  intros xs p H. apply NoDup_ListNoDup.
  assert (forall ys p', chain q l p' ys -> ~ In p' ys) as Hnot.
  { intros ys p' Hc Hin. apply in_split in Hin as (A & B & ->).
    pose proof (chain_app _ _ _ _ _ _ Hc) as Hc'.
    pose proof (chain_functional _ _ _ _ _ Hc Hc') as E.
    apply (f_equal (@length addr)) in E. rewrite length_app in E. simpl in E. lia. }
  revert p H. induction xs as [|x xs IH]; intros p H.
  - constructor; [intros []|constructor].
  - constructor; [now apply Hnot|]. simpl in H. apply IH. tauto.
Qed.

(* ------------------------------------------------------------------------- *)
(** ** Well-formed stores *)
(* ------------------------------------------------------------------------- *)

Lemma live_node q x :
  live q x = true -> exists n, deref q x = Ok n /\ marked n = false.
Proof.
  unfold live. destruct (deref q x) as [n| | | |]; try discriminate.
  intros H. exists n. split; [reflexivity|]. now destruct (marked n).
Qed.

Lemma wf_tail q :
  well_formed q = true ->
  exists t, deref q (tail_ q) = Ok t /\ marked t = false
            /\ forall l, l <= MaxLevel -> next_at t l = nullptr.
Proof.
  unfold well_formed, tail_ok. rewrite !andb_true_iff. intros [[[_ H] _] _].
  destruct (deref q (tail_ q)) as [t| | | |]; try discriminate.
  apply andb_true_iff in H as [Hm Hn]. exists t. split; [reflexivity|]. split.
  - now destruct (marked t).
  - intros l Hl. rewrite forallb_forall in Hn. apply Nat.eqb_eq, Hn, in_seq. lia.
Qed.

Lemma wf_level q l :
  well_formed q = true -> l <= MaxLevel ->
  exists L, level_nodes q l = Some L /\ chain q l (head_ q) L
            /\ Forall (fun x => live q x = true) L.
Proof.
  unfold well_formed. rewrite !andb_true_iff. intros [[_ H] _] Hl.
  rewrite forallb_forall in H. specialize (H l). unfold level_ok in H.
  destruct (level_nodes q l) as [L|] eqn:E.
  - exists L. split; [reflexivity|]. split.
    + eapply walk_chain, E.
    + apply Forall_forall. intros x Hx. rewrite forallb_forall in H.
      apply H; [apply in_seq; lia|]. now apply list_elem_of_In.
  - discriminate H. apply in_seq. lia.
Qed.

Lemma wf_contained q l L' L :
  well_formed q = true -> l < MaxLevel ->
  level_nodes q (S l) = Some L' -> level_nodes q l = Some L ->
  forall x, x ∈ L' -> x ∈ L.
Proof.
  unfold well_formed. rewrite !andb_true_iff. intros [_ H] Hl E' E x Hx.
  rewrite forallb_forall in H. specialize (H l). unfold contained in H.
  rewrite E', E in H. rewrite forallb_forall in H.
  assert (existsb (Nat.eqb x) L = true) as Hex.
  { apply H; [apply in_seq; lia|]. now apply list_elem_of_In. }
  apply existsb_exists in Hex as (y & Hy & Exy). apply Nat.eqb_eq in Exy. subst y.
  now apply list_elem_of_In.
Qed.

Lemma wf_sound q p n :
  well_formed q = true -> deref q p = Ok n -> length (next n) = S MaxLevel.
Proof.
  unfold well_formed. rewrite !andb_true_iff. intros [[[H _] _] _] E.
  unfold deref in E. destruct (p =? nullptr); [discriminate|].
  destruct (cells (mem q) !! p) as [[m|]|] eqn:Ec; try discriminate.
  inversion E; subst m. rewrite forallb_forall in H.
  apply Nat.eqb_eq. apply (H (Some n)).
  apply list_elem_of_In. eapply list_elem_of_lookup_2, Ec.
Qed.

(* ------------------------------------------------------------------------- *)
(** ** The traversal on a well-formed store *)
(* ------------------------------------------------------------------------- *)

Lemma last_cons {A} (x : A) (xs : list A) (d : A) :
  List.last (x :: xs) d = List.last xs x.
Proof.
  revert x d. induction xs as [|y ys IH]; intros x d; [reflexivity|].
  change (List.last (x :: y :: ys) d) with (List.last (y :: ys) d).
  now rewrite (IH y d), (IH y x).
Qed.

Lemma skip_marked_live fuel q l pred curr succ :
  live q curr = true ->
  skip_marked (S fuel) q l pred curr succ = Ok (q, curr, succ).
Proof.
  intros H. apply live_node in H as (n & E & Hm). simpl. rewrite E. simpl.
  now rewrite Hm.
Qed.

(** Where [find_level] stops on a chain of unmarked nodes: the nodes passed
    have keys below [key], the node it stops at does not, and the store is
    the one it started in. *)
Lemma find_level_spec fuel : forall q key l pred xs q1 p c t,
  deref q (tail_ q) = Ok t -> marked t = false -> next_at t l = nullptr ->
  chain q l pred xs -> Forall (fun x => live q x = true) xs ->
  find_level fuel q key l pred (hd (tail_ q) xs) = Ok (q1, p, c) ->
  q1 = q /\ exists A B, xs = A ++ c :: B /\ p = List.last A pred
                        /\ Forall (fun x => (value_at q x < key)%Z) A
                        /\ (key <= value_at q c)%Z.
Proof.
  induction fuel as [|fuel IH]; intros q key l pred xs q1 p c t Ht Hm Hn Hc Hl H.
  - discriminate H.
  - destruct xs as [|x xs]; cbn [hd] in H.
    + exfalso. cbn [find_level] in H. rewrite Ht in H. cbn [bind] in H.
      destruct fuel as [|fuel]; [discriminate H|].
      rewrite skip_marked_live in H by (unfold live; now rewrite Ht, Hm).
      cbn [bind] in H. rewrite Nat.eqb_refl, Hn in H. discriminate H.
    + destruct Hc as (Hs & Hx & Hc). inversion Hl as [|? ? Hlx Hl']; subst.
      pose proof Hlx as Hlive. apply live_node in Hlx as (n & En & Hmn).
      cbn [find_level] in H. rewrite En in H. cbn [bind] in H.
      destruct fuel as [|fuel]; [discriminate H|].
      rewrite skip_marked_live in H by exact Hlive. cbn [bind] in H.
      destruct (Nat.eqb_spec x (tail_ q)) as [|_]; [contradiction|].
      rewrite En in H. cbn [bind] in H.
      assert (value_at q x = value n) as Ev by (unfold value_at; now rewrite En).
      destruct (Z.ltb_spec (value n) key) as [Hlt|Hge].
      * assert (next_at n l = hd (tail_ q) xs) as Enext.
        { destruct xs as [|y ys]; simpl in Hc; unfold succ_of in Hc;
            rewrite En in Hc; [|destruct Hc as (Hc & _)]; now inversion Hc. }
        rewrite Enext in H.
        eapply IH in H; eauto. destruct H as (-> & A & B & -> & -> & HA & Hk).
        split; [reflexivity|]. exists (x :: A), B.
        split; [reflexivity|]. split; [now rewrite last_cons|].
        split; [constructor; [lia|exact HA]|exact Hk].
      * inversion H; subst. split; [reflexivity|]. exists [], xs.
        split; [reflexivity|]. split; [reflexivity|]. split; [constructor|lia].
Qed.

Lemma at_level_insert_eq (a : list addr) l x :
  l < length a -> at_level (<[l := x]> a) l = x.
Proof.
  intros H. unfold at_level. rewrite nth_lookup, list_lookup_insert_eq by exact H.
  reflexivity.
Qed.

Lemma at_level_insert_ne (a : list addr) l l' x :
  l <> l' -> at_level (<[l := x]> a) l' = at_level a l'.
Proof.
  intros H. unfold at_level. rewrite !nth_lookup, list_lookup_insert_ne by exact H.
  reflexivity.
Qed.

Lemma last_app_cons {A} (xs ys : list A) (y d : A) :
  List.last (xs ++ y :: ys) d = List.last ys y.
Proof.
  induction xs as [|x xs IH]; simpl app.
  - apply last_cons.
  - rewrite last_cons. rewrite <- IH. destruct xs; simpl app; now rewrite !last_cons.
Qed.

Lemma last_in {A} (xs : list A) (d : A) : List.last xs d = d \/ List.last xs d ∈ xs.
Proof.
  revert d. induction xs as [|x xs IH]; intros d; [now left|].
  right. rewrite last_cons. destruct (IH x) as [E|E].
  - rewrite E. apply list_elem_of_here.
  - now apply list_elem_of_further.
Qed.

Lemma wf_contained_le q : well_formed q = true ->
  forall l' l L' L, l <= l' -> l' <= MaxLevel ->
  level_nodes q l' = Some L' -> level_nodes q l = Some L ->
  forall x, x ∈ L' -> x ∈ L.
Proof.
  intros Hwf l'. induction l' as [|l' IH]; intros l L' L Hle Hmax E' E x Hx.
  - assert (l = 0) by lia. subst. congruence.
  - destruct (Nat.eq_dec l (S l')) as [->|Hne]; [congruence|].
    destruct (wf_level q l' Hwf) as (M & EM & _); [lia|].
    apply (IH l M L); [lia | lia | exact EM | exact E |].
    apply (wf_contained q l' L' M); auto.
Qed.

Lemma chain_succ_hd q l p xs :
  chain q l p xs -> succ_of q l p = Some (hd (tail_ q) xs).
Proof. destruct xs; simpl; tauto. Qed.

(** The part of level [n] that follows [pred]. *)
Lemma level_suffix q n key pred L :
  level_nodes q n = Some L -> pred_ok q (S n) key pred ->
  exists A0 xs, L = A0 ++ xs /\ chain q n pred xs
                /\ List.last A0 (head_ q) = pred.
Proof.
  intros EL Hok. pose proof (level_nodes_chain _ _ _ EL) as HcL.
  destruct Hok as [->|(_ & Hin)].
  - exists [], L. repeat split; auto.
  - destruct (Hin n) as (L2 & EL2 & Hin2); [lia|].
    assert (L2 = L) by congruence. subst L2.
    apply list_elem_of_split in Hin2 as (X & Y & ->).
    exists (X ++ [pred]), Y. rewrite <- app_assoc. simpl. split; [reflexivity|].
    split; [eapply chain_app, HcL|]. now rewrite last_app_cons.
Qed.

(** One level of the traversal on a well-formed store. *)
Lemma find_level_at fuel q key n pred pn q1 p1 c1 :
  well_formed q = true -> n <= MaxLevel ->
  pred_ok q (S n) key pred -> deref q pred = Ok pn ->
  find_level fuel q key n pred (next_at pn n) = Ok (q1, p1, c1) ->
  q1 = q /\ pred_ok q n key p1 /\ splice_at q n key p1 c1.
Proof.
  intros Hwf Hn Hok E E0. destruct (wf_tail q Hwf) as (t & Ht & Hmt & Hnt).
  destruct (wf_level q n Hwf Hn) as (L & EL & HcL & HlL).
  destruct (level_suffix q n key pred L EL Hok) as (A0 & xs & EA & Hc & Elast).
  assert (next_at pn n = hd (tail_ q) xs) as Enext.
  { apply chain_succ_hd in Hc. unfold succ_of in Hc. rewrite E in Hc.
    now inversion Hc. }
  rewrite Enext in E0.
  eapply find_level_spec in E0; eauto.
  2:{ subst L. now apply Forall_app in HlL as [_ ?]. }
  destruct E0 as (-> & A & B & -> & -> & HA & Hk).
  assert (pred_ok q n key (List.last A pred)) as Hok'.
  { destruct (last_in A pred) as [E1|E1].
    - rewrite E1. destruct Hok as [->|(Hv & Hin)]; [now left|].
      right. split; [exact Hv|]. intros l Hl. apply Hin. lia.
    - right. split.
      + rewrite Forall_forall in HA. now apply HA.
      + intros l Hl. destruct (wf_level q l Hwf) as (M & EM & _); [lia|].
        exists M. split; [exact EM|].
        eapply (wf_contained_le q Hwf n l L M); eauto; [lia|].
        subst L. apply elem_of_app. right. apply elem_of_app. now left. }
  split; [reflexivity|]. split; [exact Hok'|].
  exists (A0 ++ A), B. split; [rewrite EL, EA, <- app_assoc; reflexivity|].
  split.
  { destruct A as [|a A]; [now rewrite app_nil_r|].
    now rewrite last_app_cons, last_cons. }
  split; [|exact Hk].
  destruct Hok' as [E1|[E1 _]]; [now left|now right].
Qed.

(** The traversal of the levels below [n] on a well-formed store: it changes
    nothing and fills [preds] and [succs] with the splice points. *)
Lemma find_levels_spec fuel q key :
  well_formed q = true ->
  forall n pred preds succs q1 preds1 succs1,
    n <= S MaxLevel ->
    length preds = S MaxLevel -> length succs = S MaxLevel ->
    pred_ok q n key pred ->
    find_levels fuel q key n pred preds succs = Ok (q1, preds1, succs1) ->
    q1 = q
    /\ length preds1 = S MaxLevel /\ length succs1 = S MaxLevel
    /\ (forall l, l < n ->
          splice_at q l key (at_level preds1 l) (at_level succs1 l))
    /\ (forall l, n <= l ->
          at_level preds1 l = at_level preds l
          /\ at_level succs1 l = at_level succs l).
Proof.
  intros Hwf.
  induction n as [|n IH]; intros pred preds succs q1 preds1 succs1 Hn Hp Hs Hok H;
    cbn [find_levels] in H.
  - inversion H; subst. repeat split; auto. intros l Hl. lia.
  - bind_inv H. rename a into pn. bind_inv H. destruct a as [[q2 pred1] curr1].
    apply (find_level_at fuel q key n pred pn) in E0; auto; [|lia].
    destruct E0 as (-> & Hok' & Hsplice).
    apply IH in H; auto; [|lia|now rewrite length_insert|now rewrite length_insert].
    destruct H as (-> & Hp1 & Hs1 & Hsp & Hrest).
    split; [reflexivity|]. split; [exact Hp1|]. split; [exact Hs1|]. split.
    + intros l Hl. destruct (Nat.eq_dec l n) as [->|Hne].
      * destruct (Hrest n) as [Ep Es]; [lia|].
        now rewrite Ep, Es, !at_level_insert_eq by lia.
      * apply Hsp. lia.
    + intros l Hl. destruct (Hrest l) as [Ep Es]; [lia|].
      rewrite Ep, Es, !at_level_insert_ne by lia. now split.
Qed.

Lemma findNode_spec fuel q key preds succs q1 b preds1 succs1 :
  well_formed q = true ->
  length preds = S MaxLevel -> length succs = S MaxLevel ->
  findNode fuel q key preds succs = Ok (q1, b, preds1, succs1) ->
  q1 = q
  /\ length preds1 = S MaxLevel /\ length succs1 = S MaxLevel
  /\ forall l, l <= MaxLevel ->
       splice_at q l key (at_level preds1 l) (at_level succs1 l).
Proof.
  intros Hwf Hlp Hls H. unfold findNode in H. bind_inv H. destruct a as [[q2 p2] s2].
  apply (find_levels_spec fuel q key Hwf) in E; auto; [|now left].
  destruct E as (-> & Hp & Hs & Hsp & _).
  assert (q1 = q /\ preds1 = p2 /\ succs1 = s2) as (-> & -> & ->).
  { destruct (at_level s2 0 =? tail_ q); [now inversion H|].
    bind_inv H. now inversion H. }
  repeat split; auto. intros l Hl. apply Hsp. lia.
Qed.

(* ------------------------------------------------------------------------- *)
(** ** Stores *)
(* ------------------------------------------------------------------------- *)

Lemma deref_update q p f x :
  deref (update q p f) x
  = match deref q x with
    | Ok n => Ok (if x =? p then f n else n)
    | o => o
    end.
Proof.
  unfold deref, update. cbn [mem with_mem cells].
  destruct (Nat.eqb_spec x nullptr) as [|Hx]; [reflexivity|].
  destruct (Nat.eqb_spec x p) as [->|Hne].
  - destruct (cells (mem q) !! p) as [[n|]|] eqn:E; rewrite ?E; try reflexivity.
    rewrite list_lookup_insert_eq; [reflexivity|]. eapply lookup_lt_Some, E.
  - assert (forall c, <[p := c]> (cells (mem q)) !! x = cells (mem q) !! x) as Hi
      by (intros c; apply list_lookup_insert_ne; congruence).
    destruct (cells (mem q) !! p) as [[n|]|] eqn:E; rewrite ?Hi;
      destruct (cells (mem q) !! x) as [[m|]|]; reflexivity.
Qed.

Lemma store_next_obs q p l0 v x n :
  deref q x = Ok n ->
  exists n', deref (store_next q p l0 v) x = Ok n'
             /\ same_fields n n'
             /\ forall l, l < length (next n) ->
                  next_at n' l = if (p =? x) && (l0 =? l) then v else next_at n l.
Proof.
  intros E. unfold store_next. rewrite deref_update, E.
  rewrite (Nat.eqb_sym p x).
  destruct (Nat.eqb_spec x p) as [->|Hne]; cbn [andb].
  - eexists. split; [reflexivity|]. split.
    + unfold same_fields. cbn. now rewrite length_insert.
    + intros l Hl. unfold next_at. cbn [next].
      destruct (Nat.eqb_spec l0 l) as [->|Hl0].
      * now apply at_level_insert_eq.
      * now apply at_level_insert_ne.
  - exists n. split; [reflexivity|]. split; [now unfold same_fields|]. reflexivity.
Qed.

Lemma same_fields_trans n1 n2 n3 :
  same_fields n1 n2 -> same_fields n2 n3 -> same_fields n1 n3.
Proof. unfold same_fields. intuition congruence. Qed.

(** What a list of stores leaves in an object that was there before. *)
Lemma apply_stores_obs sts : forall q x n,
  deref q x = Ok n ->
  exists n', deref (apply_stores q sts) x = Ok n'
             /\ same_fields n n'
             /\ forall l, l < length (next n) ->
                  next_at n' l = final sts x l (next_at n l).
Proof.
  induction sts as [|[[p l0] v] sts IH]; intros q x n E.
  - exists n. split; [exact E|]. split; [now unfold same_fields|]. reflexivity.
  - destruct (store_next_obs q p l0 v x n E) as (n1 & E1 & F1 & N1).
    destruct (IH _ x n1 E1) as (n2 & E2 & F2 & N2).
    exists n2. split; [exact E2|]. split; [eapply same_fields_trans; eauto|].
    intros l Hl. rewrite N2 by (destruct F1 as (_ & _ & _ & _ & ->); exact Hl).
    cbn [final fold_left fst snd]. now rewrite N1.
Qed.

Lemma apply_stores_frame sts : forall q, frame (apply_stores q sts) = frame q.
Proof.
  unfold apply_stores.
  induction sts as [|st sts IH]; intros q; [reflexivity|].
  cbn [fold_left]. now rewrite IH.
Qed.

Lemma apply_stores_app q s1 s2 :
  apply_stores q (s1 ++ s2) = apply_stores (apply_stores q s1) s2.
Proof. unfold apply_stores. apply fold_left_app. Qed.

Lemma final_app s1 s2 x l cur :
  final (s1 ++ s2) x l cur = final s2 x l (final s1 x l cur).
Proof. unfold final. apply fold_left_app. Qed.

Lemma fold_store_map {I} (g : I -> addr * nat * addr) (is_ : list I) : forall q,
  fold_left (fun q i => store_next q (g i).1.1 (g i).1.2 (g i).2) is_ q
  = apply_stores q (map g is_).
Proof.
  induction is_ as [|i is_ IH]; intros q; [reflexivity|]. cbn. apply IH.
Qed.

Lemma final_init newNode succs k x l cur :
  final (init_stores newNode succs k) x l cur
  = if (newNode =? x) && (l <=? k) then at_level succs l else cur.
Proof.
  unfold init_stores. induction k as [|k IH].
  - cbn. destruct (newNode =? x); cbn [andb]; [|reflexivity].
    destruct l; reflexivity.
  - rewrite seq_S, map_app, final_app, IH. cbn [map final fold_left fst snd Nat.add].
    destruct (newNode =? x); cbn [andb]; [|reflexivity].
    destruct (Nat.eqb_spec (S k) l) as [<-|Hne].
    + now rewrite Nat.leb_refl.
    + destruct (Nat.leb_spec l k), (Nat.leb_spec l (S k)); try lia; reflexivity.
Qed.

Lemma final_link newNode preds i j x l cur :
  final (link_stores newNode preds i j) x l cur
  = if (i <=? l) && (l <? i + j) && (at_level preds l =? x) then newNode else cur.
Proof.
  unfold link_stores. revert cur. induction j as [|j IH]; intros cur.
  - change (final (map (fun l0 => (at_level preds l0, l0, newNode)) (seq i 0)) x l cur)
      with cur.
    destruct (Nat.leb_spec i l), (Nat.ltb_spec l (i + 0)); try lia; reflexivity.
  - rewrite seq_S, map_app, final_app, IH. cbn [map final fold_left fst snd].
    destruct (Nat.eqb_spec (i + j) l) as [<-|Hne].
    + rewrite andb_true_r.
      destruct (Nat.leb_spec i (i + j)), (Nat.ltb_spec (i + j) (i + j)),
        (Nat.ltb_spec (i + j) (i + S j)); try lia. cbn [andb].
      destruct (at_level preds (i + j) =? x); reflexivity.
    + rewrite andb_false_r.
      destruct (Nat.leb_spec i l), (Nat.ltb_spec l (i + j)), (Nat.ltb_spec l (i + S j));
        try lia; reflexivity.
Qed.

Lemma sound_update q p f :
  (forall n, length (next (f n)) = length (next n)) ->
  forallb sound_cell (cells (mem q)) = true ->
  forallb sound_cell (cells (mem (update q p f))) = true.
Proof.
  intros Hf H. unfold update. cbn [mem with_mem cells].
  destruct (cells (mem q) !! p) as [[n|]|] eqn:E; try exact H.
  apply forallb_forall. intros c Hc. apply list_elem_of_In in Hc.
  revert c Hc. apply Forall_forall, Forall_insert.
  - apply Forall_forall. intros c Hc. rewrite forallb_forall in H.
    apply H. now apply list_elem_of_In.
  - cbn [sound_cell]. rewrite Hf. rewrite forallb_forall in H.
    apply (H (Some n)). apply list_elem_of_In. eapply list_elem_of_lookup_2, E.
Qed.

Lemma sound_apply_stores sts : forall q,
  forallb sound_cell (cells (mem q)) = true ->
  forallb sound_cell (cells (mem (apply_stores q sts))) = true.
Proof.
  unfold apply_stores.
  induction sts as [|st sts IH]; intros q H; [exact H|].
  cbn [fold_left]. apply IH. unfold store_next. apply sound_update; [|exact H].
  intros n. cbn [next]. apply length_insert.
Qed.

Lemma deref_lt q x n : deref q x = Ok n -> x <> nullptr /\ x < length (cells (mem q)).
Proof.
  unfold deref. destruct (Nat.eqb_spec x nullptr); [discriminate|].
  destruct (cells (mem q) !! x) as [[m|]|] eqn:E; try discriminate.
  intros _. split; [assumption|]. eapply lookup_lt_Some, E.
Qed.

Lemma new_node_obs q nd q2 newNode :
  new_node q nd = Ok (q2, newNode) ->
  newNode = length (cells (mem q))
  /\ head_ q2 = head_ q /\ tail_ q2 = tail_ q /\ count_ q2 = count_ q
  /\ (forall x n, deref q x = Ok n -> deref q2 x = Ok n)
  /\ (forall x n, deref q x = Ok n -> deref q2 newNode = Ok nd).
Proof.
  unfold new_node. destruct (avail (mem q)) as [|a]; [discriminate|].
  intros H. inversion H; subst. repeat split; try reflexivity.
  - intros x n E. pose proof (deref_lt _ _ _ E) as [Hx Hlt]. unfold deref in *.
    cbn [mem with_mem cells].
    destruct (x =? nullptr); [discriminate|].
    now rewrite lookup_app_l by exact Hlt.
  - intros x n E. pose proof (deref_lt _ _ _ E) as [Hx Hlt]. unfold deref.
    cbn [mem with_mem cells].
    destruct (Nat.eqb_spec (length (cells (mem q))) nullptr) as [E0|_].
    + rewrite E0 in Hlt. inversion Hlt.
    + rewrite lookup_app_r by lia. now rewrite Nat.sub_diag.
Qed.

Lemma chain_last q l : forall A h c B,
  chain q l h (A ++ c :: B) -> succ_of q l (List.last A h) = Some c.
Proof.
  induction A as [|a A IH]; intros h c B H; simpl in H.
  - tauto.
  - rewrite last_cons. destruct H as (_ & _ & H). eapply IH, H.
Qed.

(** At a splice point the compare-exchange of [push] finds what it expects. *)
Lemma splice_cas q l key p c :
  splice_at q l key p c ->
  exists n, deref q p = Ok n /\ next_at n l = c.
Proof.
  intros (A & B & EL & -> & _). apply level_nodes_chain, chain_last in EL.
  unfold succ_of in EL. destruct (deref q (List.last A (head_ q))) as [n| | | |];
    try discriminate.
  exists n. split; [reflexivity|]. now inversion EL.
Qed.

Lemma init_fold newNode succs k q :
  fold_left (fun q lvl => store_next q newNode lvl (at_level succs lvl)) (seq 0 (S k)) q
  = apply_stores q (init_stores newNode succs k).
Proof.
  exact (fold_store_map (fun l => (newNode, l, at_level succs l)) (seq 0 (S k)) q).
Qed.

(** When every compare-exchange of the upper levels finds what it expects,
    the link loop is the list of its stores. *)
Lemma link_levels_spec fuel item newNode preds succs n : forall lvl q q5,
  (forall l, lvl <= l < lvl + n ->
     exists pn, deref q (at_level preds l) = Ok pn
                /\ next_at pn l = at_level succs l) ->
  link_levels fuel q item newNode n lvl preds succs = Ok q5 ->
  q5 = apply_stores q (link_stores newNode preds lvl n).
Proof.
  induction n as [|n IH]; intros lvl q q5 Hcas H; cbn [link_levels] in H.
  - now inversion H.
  - bind_inv H. destruct a as [[q1 preds1] succs1].
    destruct fuel as [|fuel]; [discriminate E|]. cbn [link_level] in E.
    destruct (Hcas lvl) as (pn & Epn & Enext); [lia|].
    rewrite Epn in E. cbn [bind] in E. rewrite Enext, Nat.eqb_refl in E.
    inversion E; subst. apply IH in H.
    + rewrite H. reflexivity.
    + intros l Hl. destruct (Hcas l) as (pl & Epl & Enl); [lia|].
      destruct (store_next_obs q (at_level preds1 lvl) lvl newNode _ _ Epl)
        as (pl' & Epl' & F & N).
      exists pl'. split; [exact Epl'|].
      destruct (Nat.lt_ge_cases l (length (next pl))) as [Hlt|Hge].
      * rewrite N by exact Hlt.
        destruct (Nat.eqb_spec lvl l); [lia|]. now rewrite andb_false_r.
      * unfold next_at in *. destruct F as (_ & _ & _ & _ & F).
        rewrite nth_overflow in * by lia. exact Enl.
Qed.

(** A completed [push] on a well-formed store: the traversal found a splice
    point on every level and the new node was linked there on the levels up
    to its own. *)
Lemma push_loop_spec fuel q item k q' :
  well_formed q = true -> k <= MaxLevel ->
  push_loop fuel q item k no_nodes no_nodes = Ok q' ->
  exists preds succs,
    (forall l, l <= MaxLevel ->
       splice_at q l item (at_level preds l) (at_level succs l))
    /\ pushed q q' (length (cells (mem q))) item k preds succs.
Proof.
  intros Hwf Hk H. destruct fuel as [|fuel]; [discriminate H|].
  cbn [push_loop] in H. bind_inv H. destruct a as [[[q1 b] preds] succs].
  apply findNode_spec in E; [|exact Hwf|reflexivity|reflexivity]. destruct E as (-> & Hlp & Hls & Hsp).
  bind_inv H. destruct a as [q2 newNode].
  rewrite init_fold in H.
  (* the compare-exchange of every level finds what it expects in [q] *)
  assert (forall l, l <= MaxLevel ->
            exists n, deref q (at_level preds l) = Ok n
                      /\ next_at n l = at_level succs l) as Hcas.
  { intros l Hl. eapply splice_cas, Hsp, Hl. }
  destruct (Hcas 0) as (h0 & Eh0 & _); [lia|].
  destruct (new_node_obs _ _ _ _ E) as (-> & Hh2 & Ht2 & Hc2 & Hold2 & Hnew2).
  specialize (Hnew2 _ _ Eh0).
  set (newNode := length (cells (mem q))) in *.
  assert (forall l n, deref q (at_level preds l) = Ok n -> at_level preds l <> newNode)
    as Hfresh.
  { intros l n En. apply deref_lt in En. unfold newNode. lia. }
  set (q3 := apply_stores q2 (init_stores newNode succs k)) in *.
  assert (forall l, l <= MaxLevel ->
            exists n, deref q3 (at_level preds l) = Ok n
                      /\ next_at n l = at_level succs l) as Hcas3.
  { intros l Hl. destruct (Hcas l Hl) as (n & En & Enext).
    destruct (apply_stores_obs (init_stores newNode succs k) q2 _ n (Hold2 _ _ En))
      as (n' & En' & F & N).
    exists n'. split; [exact En'|]. rewrite N.
    - rewrite final_init. destruct (Nat.eqb_spec newNode (at_level preds l)) as [E1|_].
      + exfalso. apply (Hfresh l n En). now symmetry.
      + exact Enext.
    - rewrite (wf_sound q _ n Hwf En). lia. }
  bind_inv H. rename a into p0.
  destruct (Hcas3 0) as (p0' & Ep0 & Enext0); [lia|].
  assert (p0' = p0) by congruence. subst p0'.
  rewrite Enext0, Nat.eqb_refl in H.
  bind_inv H. rename a into q5.
  apply link_levels_spec in E1.
  2:{ intros l Hl. destruct (Hcas3 l) as (n & En & Enext); [lia|].
      destruct (store_next_obs q3 (at_level preds 0) 0 newNode _ _ En)
        as (n' & En' & F & N).
      exists n'. split; [exact En'|].
      destruct (Nat.lt_ge_cases l (length (next n))) as [Hlt|Hge].
      - rewrite N by exact Hlt. destruct (Nat.eqb_spec 0 l); [lia|].
        now rewrite andb_false_r.
      - unfold next_at in *. destruct F as (_ & _ & _ & _ & F).
        rewrite nth_overflow in * by lia. exact Enext. }
  assert (q5 = apply_stores q2 (init_stores newNode succs k
                                ++ link_stores newNode preds 0 (S k))) as E5.
  { rewrite E1, apply_stores_app. reflexivity. }
  clear E1. inversion H; subst q'. clear H.
  exists preds, succs. split; [exact Hsp|].
  unfold pushed. split; [reflexivity|].
  assert (frame q5 = frame q2) as Hfr by (rewrite E5; apply apply_stores_frame).
  unfold frame in Hfr. inversion Hfr as [[Hh5 Ht5 Hc5 Hd5 Ha5]].
  split; [cbn; congruence|]. split; [cbn; congruence|].
  split; [cbn [count_ with_count store_fullyLinked update with_mem]; congruence|].
  split; [|split].
  - intros x n En.
    destruct (apply_stores_obs (init_stores newNode succs k
                                ++ link_stores newNode preds 0 (S k)) q2 x n
                (Hold2 _ _ En)) as (n' & En' & F & N).
    rewrite <- E5 in En'.
    assert (x <> newNode) as Hx by (apply deref_lt in En; unfold newNode; lia).
    exists n'. split.
    + assert (deref (store_fullyLinked q5 newNode true) x = Ok n') as D.
      { unfold store_fullyLinked. rewrite deref_update, En'.
        destruct (Nat.eqb_spec x newNode); [contradiction|reflexivity]. }
      exact D.
    + split; [exact F|]. intros l Hl. rewrite N by exact Hl.
      rewrite final_app, final_init, final_link.
      destruct (Nat.eqb_spec newNode x) as [E1|_]; [now symmetry in E1|].
      cbn [andb Nat.add]. destruct (Nat.leb_spec l k), (Nat.ltb_spec l (S k));
        try lia; reflexivity.
  - destruct (apply_stores_obs (init_stores newNode succs k
                                ++ link_stores newNode preds 0 (S k)) q2 newNode _
                Hnew2) as (nd & End & F & N).
    rewrite <- E5 in End.
    eexists. split.
    + assert (deref (store_fullyLinked q5 newNode true) newNode
              = Ok {| value := value nd; topLevel := topLevel nd; next := next nd;
                      marked := marked nd; fullyLinked := true |}) as D.
      { unfold store_fullyLinked. rewrite deref_update, End.
        now rewrite Nat.eqb_refl. }
      exact D.
    + destruct F as (Fv & Ft & Fm & _ & Fl). cbn [value topLevel marked fullyLinked].
      split; [exact Fv|]. split; [exact Ft|]. split; [exact Fm|].
      split; [reflexivity|]. intros l Hl. unfold next_at at 1. cbn [next].
      change (nth l (next nd) nullptr) with (next_at nd l).
      rewrite N
        by (change (length (next (value_node item k))) with (S MaxLevel); lia).
      rewrite final_app, final_init, final_link, Nat.eqb_refl.
      destruct (Nat.leb_spec l k); [|lia]. cbn [andb].
      destruct (Nat.eqb_spec (at_level preds l) newNode) as [E1|_].
      * destruct (Hcas l) as (n & En & _); [lia|]. exfalso. exact (Hfresh l n En E1).
      * now rewrite andb_false_r.
  - rewrite E5. apply sound_update; [reflexivity|].
    apply sound_apply_stores.
    unfold new_node in E. destruct (avail (mem q)); [discriminate|].
    inversion E; subst q2. cbn [mem with_mem cells].
    rewrite forallb_app. apply andb_true_iff. split; [|reflexivity].
    revert Hwf. unfold well_formed. rewrite !andb_true_iff. tauto.
Qed.

Lemma chain_deref q l : forall xs p x,
  chain q l p xs -> x ∈ p :: xs -> exists n, deref q x = Ok n.
Proof.
  induction xs as [|y ys IH]; intros p x H Hin.
  - apply list_elem_of_singleton in Hin as ->. simpl in H. unfold succ_of in H.
    destruct (deref q p) as [n| | | |]; try discriminate. now exists n.
  - simpl in H. destruct H as (Hs & _ & H).
    apply elem_of_cons in Hin as [->|Hin].
    + unfold succ_of in Hs. destruct (deref q p) as [n| | | |]; try discriminate.
      now exists n.
    + eapply IH; eauto.
Qed.

Lemma chain_ext q q' l :
  tail_ q' = tail_ q ->
  forall xs p,
    (forall x, x ∈ p :: xs -> succ_of q' l x = succ_of q l x) ->
    chain q l p xs -> chain q' l p xs.
Proof.
  intros Ht. induction xs as [|y ys IH]; intros p Hsame H; simpl in *.
  - rewrite Hsame, Ht by apply list_elem_of_here. exact H.
  - destruct H as (Hs & Hy & H). rewrite Hsame, Ht by apply list_elem_of_here.
    split; [exact Hs|]. split; [exact Hy|]. apply IH; [|exact H].
    intros x Hx. apply Hsame. now apply list_elem_of_further.
Qed.

(** Swinging the successor of the last node of [A] to a new node that points
    at [c] puts the new node between [A] and [c]. *)
Lemma chain_insert q q' l newNode :
  tail_ q' = tail_ q -> newNode <> tail_ q ->
  forall A h c B,
    chain q l h (A ++ c :: B) ->
    succ_of q' l (List.last A h) = Some newNode ->
    succ_of q' l newNode = Some c ->
    (forall x, x ∈ h :: A ++ c :: B -> x <> List.last A h ->
       succ_of q' l x = succ_of q l x) ->
    chain q' l h (A ++ newNode :: c :: B).
Proof.
  intros Ht Hnew. induction A as [|a A IH]; intros h c B H Hp Hn Hsame.
  - cbn [app List.last] in *. pose proof (chain_NoDup _ _ _ _ H) as Hnd.
    destruct H as (Hs & Hc & H). cbn [chain].
    split; [exact Hp|]. split; [congruence|]. split; [exact Hn|].
    split; [congruence|]. apply (chain_ext q q' l Ht); [|exact H].
    intros x Hx. apply Hsame; [now apply list_elem_of_further|].
    intros ->. apply NoDup_cons in Hnd as [Hnd _]. contradiction.
  - rewrite last_cons in *. pose proof (chain_NoDup _ _ _ _ H) as Hnd.
    cbn [app chain] in *. destruct H as (Hs & Ha & H).
    assert (h <> List.last A a) as Hne.
    { intros ->. apply NoDup_cons in Hnd as [Hnd _]. apply Hnd.
      destruct (last_in A a) as [E|E].
      - rewrite E. apply list_elem_of_here.
      - apply list_elem_of_further, elem_of_app. now left. }
    split; [rewrite Hsame; [exact Hs|apply list_elem_of_here|exact Hne]|].
    split; [congruence|]. apply IH; auto.
    intros x Hx. apply Hsame. now apply list_elem_of_further.
Qed.

Lemma chain_walk q l : forall xs p gas,
  chain q l p xs -> length xs < gas -> walk gas q l p = Some xs.
Proof.
  induction xs as [|x xs IH]; intros p gas H Hg;
    (destruct gas as [|gas]; [inversion Hg|]); simpl in *; unfold succ_of in H.
  - destruct (deref q p) as [n| | | |]; try discriminate.
    inversion H as [E]. now rewrite E, Nat.eqb_refl.
  - destruct H as (Hs & Hx & H).
    destruct (deref q p) as [n| | | |]; try discriminate.
    inversion Hs as [E]. rewrite E.
    destruct (Nat.eqb_spec x (tail_ q)); [contradiction|].
    rewrite (IH x gas H) by lia. reflexivity.
Qed.

(** A chain from the head visits fewer objects than there are cells. *)
Lemma chain_short q l xs p :
  chain q l p xs -> length xs < length (cells (mem q)).
Proof.
  intros H. pose proof (chain_NoDup _ _ _ _ H) as Hnd.
  assert (List.NoDup (nullptr :: p :: xs)) as Hnd2.
  { constructor; [|now apply NoDup_ListNoDup].
    intros Hin. apply list_elem_of_In in Hin.
    destruct (chain_deref _ _ _ _ _ H Hin) as (n & En). apply deref_lt in En. tauto. }
  assert (incl (nullptr :: p :: xs) (seq 0 (length (cells (mem q))))) as Hincl.
  { intros x [<-|Hin]; apply in_seq.
    - destruct (chain_deref _ _ _ p p H (list_elem_of_here _ _)) as (n & En).
      apply deref_lt in En. unfold nullptr in *. lia.
    - apply list_elem_of_In in Hin.
      destruct (chain_deref _ _ _ _ _ H Hin) as (n & En). apply deref_lt in En. lia. }
  pose proof (NoDup_incl_length Hnd2 Hincl) as Hlen.
  rewrite length_seq in Hlen. simpl in Hlen. lia.
Qed.

Lemma chain_level_nodes q l L :
  chain q l (head_ q) L -> level_nodes q l = Some L.
Proof. intros H. apply chain_walk; [exact H|]. eapply chain_short, H. Qed.

(** The levels after a completed [push]: up to the level of the new node it
    stands at the splice point, the levels above are as before. *)
Lemma pushed_levels q q' newNode item k preds succs :
  well_formed q = true ->
  (forall l, l <= MaxLevel ->
     splice_at q l item (at_level preds l) (at_level succs l)) ->
  pushed q q' newNode item k preds succs ->
  forall l, l <= MaxLevel ->
    exists A c B,
      level_nodes q l = Some (A ++ c :: B)
      /\ at_level preds l = List.last A (head_ q) /\ at_level succs l = c
      /\ (at_level preds l = head_ q \/ (value_at q (at_level preds l) < item)%Z)
      /\ (item <= value_at q c)%Z
      /\ level_nodes q' l
         = Some (if l <=? k then A ++ newNode :: c :: B else A ++ c :: B).
Proof.
  intros Hwf Hsp (Enew & Hh & Ht & _ & Hold & (nd & End & _ & _ & _ & _ & Hnd) & _) l Hl.
  destruct (Hsp l Hl) as (A & B & EL & Ep & Hv & Hk).
  exists A, (at_level succs l), B. repeat (split; [assumption || reflexivity|]).
  pose proof (level_nodes_chain _ _ _ EL) as Hc.
  destruct (wf_tail q Hwf) as (t & Etl & _ & _).
  assert (forall x, x ∈ head_ q :: A ++ at_level succs l :: B ->
            exists n, deref q x = Ok n
                      /\ succ_of q l x = Some (next_at n l)
                      /\ succ_of q' l x
                         = Some (if (l <=? k) && (at_level preds l =? x)
                                 then newNode else next_at n l)) as Hobs.
  { intros x Hx. destruct (chain_deref _ _ _ _ _ Hc Hx) as (n & En).
    exists n. split; [exact En|]. unfold succ_of. rewrite En. split; [reflexivity|].
    destruct (Hold x n En) as (n' & En' & _ & N). rewrite En'.
    rewrite N; [reflexivity|]. rewrite (wf_sound q x n Hwf En). lia. }
  apply chain_level_nodes. rewrite Hh.
  destruct (Nat.leb_spec l k) as [Hlk|Hlk].
  - apply (chain_insert q q' l newNode Ht).
    + apply deref_lt in Etl. lia.
    + exact Hc.
    + rewrite <- Ep.
      assert (at_level preds l ∈ head_ q :: A ++ at_level succs l :: B) as Hin.
      { rewrite Ep. destruct (last_in A (head_ q)) as [E|E].
        - rewrite E. apply list_elem_of_here.
        - apply list_elem_of_further, elem_of_app. now left. }
      destruct (Hobs _ Hin) as (n & _ & _ & ->).
      destruct (Nat.leb_spec l k); [|lia]. now rewrite Nat.eqb_refl.
    + unfold succ_of. rewrite End. now rewrite Hnd.
    + intros x Hx Hne. destruct (Hobs x Hx) as (n & _ & -> & ->).
      destruct (Nat.eqb_spec (at_level preds l) x) as [E|_]; [congruence|].
      now rewrite andb_false_r.
  - apply (chain_ext q q' l Ht); [|exact Hc].
    intros x Hx. destruct (Hobs x Hx) as (n & _ & -> & ->).
    destruct (Nat.leb_spec l k); [lia|]. reflexivity.
Qed.


(* ------------------------------------------------------------------------- *)
(** ** The bottom level stays ordered *)
(* ------------------------------------------------------------------------- *)

Lemma sorted_insert (f : addr -> Z) (newNode h : addr) : forall A c B,
  Sorted Z.le (map f (A ++ c :: B)) ->
  (A = [] \/ (f (List.last A h) <= f newNode)%Z) ->
  (f newNode <= f c)%Z ->
  Sorted Z.le (map f (A ++ newNode :: c :: B)).
Proof.
  induction A as [|a A IH]; intros c B Hs Hl Hc; cbn [app map] in *.
  - constructor; [exact Hs|]. now constructor.
  - inversion Hs as [|x xs Hs' Hhd [Ex Exs]].
    assert ((f (List.last (a :: A) h) <= f newNode)%Z) as Hlast
      by (destruct Hl; [discriminate|assumption]).
    rewrite last_cons in Hlast. constructor.
    + apply IH; auto. destruct A as [|b A]; [now left|right].
      now rewrite last_cons in *.
    + destruct A as [|b A]; cbn [app map List.last] in *.
      * now constructor.
      * inversion Hhd. now constructor.
Qed.

Lemma value_at_same q q' x n n' :
  deref q x = Ok n -> deref q' x = Ok n' -> same_fields n n' ->
  value_at q' x = value_at q x.
Proof. unfold value_at. intros -> -> (E & _). exact E. Qed.

(** A level that was ordered is ordered after the [push]. *)
Lemma pushed_level_order q q' newNode item k preds succs :
  well_formed q = true ->
  (forall l, l <= MaxLevel ->
     splice_at q l item (at_level preds l) (at_level succs l)) ->
  pushed q q' newNode item k preds succs ->
  forall l L L', l <= MaxLevel ->
    level_nodes q l = Some L -> level_nodes q' l = Some L' ->
    Sorted Z.le (map (value_at q) L) -> Sorted Z.le (map (value_at q') L').
Proof.
  intros Hwf Hsp Hp l L L' Hl EL0 EL0' Hsorted.
  destruct (pushed_levels _ _ _ _ _ _ _ Hwf Hsp Hp l Hl) as
    (A & c & B & EL & Ep & Ec & Hv & Hc & EL').
  rewrite EL in EL0. inversion EL0; subst L. rewrite EL' in EL0'.
  inversion EL0'; subst L'. clear EL0 EL0'.
  destruct Hp as (_ & _ & _ & _ & Hold & (nd & End & Hnv & _) & _).
  pose proof (level_nodes_chain _ _ _ EL) as Hchain.
  pose proof (chain_NoDup _ _ _ _ Hchain) as Hnd.
  assert (forall x, x ∈ A ++ c :: B -> value_at q' x = value_at q x) as Hsame.
  { intros x Hx.
    destruct (chain_deref _ _ _ _ x Hchain (list_elem_of_further _ _ _ Hx)) as (n & En).
    destruct (Hold x n En) as (n' & En' & F & _).
    eapply value_at_same; eauto. }
  assert (Sorted Z.le (map (value_at q') (A ++ c :: B))) as Hs'.
  { erewrite map_ext_in; [exact Hsorted|].
    intros x Hx. apply Hsame. now apply list_elem_of_In. }
  destruct (l <=? k); [|exact Hs'].
  assert (value_at q' newNode = item) as Evn by (unfold value_at; now rewrite End).
  apply (sorted_insert (value_at q') newNode (head_ q)); rewrite ?Evn.
  - exact Hs'.
  - destruct A as [|a A]; [now left|right].
    assert (List.last (a :: A) (head_ q) ∈ a :: A) as Hin.
    { rewrite last_cons. destruct (last_in A a) as [E|E].
      - rewrite E. apply list_elem_of_here.
      - now apply list_elem_of_further. }
    rewrite Hsame by (apply elem_of_app; now left).
    rewrite <- Ep. destruct Hv as [Hv|Hv]; [|lia].
    exfalso. apply NoDup_cons in Hnd as [Hnd _]. apply Hnd.
    rewrite <- Hv, Ep. apply elem_of_app. now left.
  - rewrite Hsame by (apply elem_of_app; right; apply list_elem_of_here). exact Hc.
Qed.

(** On a well-formed store whose bottom level is ordered, a completed [push]
    leaves the bottom level ordered. *)
Lemma push_keeps_bottom_order fuel q item coin q' :
  well_formed q = true -> bottom_ordered q ->
  push fuel q item coin = Ok q' ->
  bottom_ordered q'.
Proof.
  intros Hwf (xs & Exs & Hsorted) H. apply noexcept_Ok in H.
  assert (randomLevel coin <= MaxLevel) as Hk by (apply randomLevel_loop_le, Nat.le_0_l).
  apply push_loop_spec in H; [|exact Hwf|exact Hk].
  destruct H as (preds & succs & Hsp & Hp).
  destruct (pushed_levels _ _ _ _ _ _ _ Hwf Hsp Hp 0) as
    (A & c & B & _ & _ & _ & _ & _ & EL'); [lia|].
  eexists. split; [exact EL'|].
  eapply (pushed_level_order _ _ _ _ _ _ _ Hwf Hsp Hp 0); eauto. lia.
Qed.

(* ------------------------------------------------------------------------- *)
(** ** When [push] returns *)
(* ------------------------------------------------------------------------- *)

Lemma find_level_unfold fuel q key level pred curr :
  find_level (S fuel) q key level pred curr
  = (let* c := deref q curr in
     let* (q1, curr1, succ1) := skip_marked fuel q level pred curr (next_at c level) in
     if curr1 =? tail_ q1 then find_level fuel q1 key level curr1 succ1
     else
       let* c1 := deref q1 curr1 in
       if (value c1 <? key)%Z then find_level fuel q1 key level curr1 succ1
       else Ok (q1, pred, curr1)).
Proof. reflexivity. Qed.

(** [find_level] returns when a node with a key not below [key] is ahead. *)
Lemma find_level_returns q key l t : forall xs pred fuel,
  deref q (tail_ q) = Ok t ->
  chain q l pred xs -> Forall (fun x => live q x = true) xs ->
  Exists (fun x => (key <= value_at q x)%Z) xs ->
  length xs + 2 <= fuel ->
  exists r, find_level fuel q key l pred (hd (tail_ q) xs) = Ok r.
Proof.
  induction xs as [|x xs IH]; intros pred fuel Ht Hc Hl Hex Hf.
  - inversion Hex.
  - destruct fuel as [|[|fuel]]; [simpl in Hf; lia ..|].
    destruct Hc as (Hs & Hx & Hc). inversion Hl as [|? ? Hlx Hl']; subst.
    pose proof Hlx as Hlive. apply live_node in Hlx as (n & En & Hmn).
    cbn [hd]. rewrite find_level_unfold, En. cbn [bind].
    rewrite skip_marked_live by exact Hlive. cbn [bind].
    destruct (Nat.eqb_spec x (tail_ q)) as [|_]; [contradiction|].
    rewrite En. cbn [bind].
    destruct (Z.ltb_spec (value n) key) as [Hlt|Hge]; [|eauto].
    assert (next_at n l = hd (tail_ q) xs) as ->.
    { apply chain_succ_hd in Hc. unfold succ_of in Hc. rewrite En in Hc.
      now inversion Hc. }
    apply IH; auto.
    + inversion Hex as [? ? Hk|]; subst; [|assumption].
      unfold value_at in Hk. rewrite En in Hk. lia.
    + simpl in Hf. lia.
Qed.

Lemma sorted_before (f : addr -> Z) : forall X p Y a,
  Sorted Z.le (map f (X ++ p :: Y)) -> a ∈ X -> (f a <= f p)%Z.
Proof.
  intros X p Y a Hs Ha. apply Sorted_StronglySorted in Hs.
  2:{ intros x y z. apply Z.le_trans. }
  induction X as [|x X IH]; [now apply elem_of_nil in Ha|].
  cbn [app map] in Hs. apply StronglySorted_inv in Hs as [Hs Hall].
  apply elem_of_cons in Ha as [->|Ha]; [|now apply IH].
  rewrite Forall_forall in Hall. apply Hall.
  apply list_elem_of_In, in_map, list_elem_of_In. apply elem_of_app. right.
  apply list_elem_of_here.
Qed.

Lemma find_levels_returns fuel q key :
  well_formed q = true -> levels_ordered q -> has_stopper q key ->
  length (cells (mem q)) + 2 <= fuel ->
  forall n pred preds succs,
    n <= S MaxLevel ->
    length preds = S MaxLevel -> length succs = S MaxLevel ->
    pred_ok q n key pred ->
    exists r, find_levels fuel q key n pred preds succs = Ok r.
Proof.
  intros Hwf Hord (T & LT & ELT & HT & HkT) Hf.
  destruct (wf_tail q Hwf) as (t & Ht & _ & _).
  induction n as [|n IH]; intros pred preds succs Hn Hp Hs Hok; cbn [find_levels].
  - eauto.
  - destruct (wf_level q n Hwf) as (L & EL & HcL & HlL); [lia|].
    destruct (level_suffix q n key pred L EL Hok) as (A0 & xs & EA & Hc & Elast).
    destruct (chain_deref _ _ _ _ pred Hc (list_elem_of_here _ _)) as (pn & Epn).
    rewrite Epn. cbn [bind].
    assert (next_at pn n = hd (tail_ q) xs) as Enext.
    { apply chain_succ_hd in Hc. unfold succ_of in Hc. rewrite Epn in Hc.
      now inversion Hc. }
    (* the stopper is ahead of [pred] on this level *)
    assert (T ∈ xs) as HTxs.
    { assert (T ∈ L) as HTL
        by (eapply (wf_contained_le q Hwf MaxLevel n LT L); eauto; lia).
      rewrite EA in HTL. apply elem_of_app in HTL as [HTA|HTxs]; [|exact HTxs].
      exfalso. destruct A0 as [|a A0]; [now apply elem_of_nil in HTA|].
      assert (a :: A0 = removelast (a :: A0) ++ [pred]) as Esplit.
      { rewrite <- Elast. apply app_removelast_last. discriminate. }
      set (X := removelast (a :: A0)) in *. rewrite Esplit in EA, HTA.
      rewrite <- app_assoc in EA. cbn [app] in EA.
      destruct Hok as [Eh|(Hv & _)].
      - pose proof (chain_NoDup _ _ _ _ HcL) as Hnd.
        apply NoDup_cons in Hnd as [Hnd _]. apply Hnd. rewrite EA, <- Eh.
        apply elem_of_app. right. apply list_elem_of_here.
      - specialize (Hord n L ltac:(lia) EL). rewrite EA in Hord.
        apply elem_of_app in HTA as [HTX|HTp].
        + pose proof (sorted_before _ _ _ _ _ Hord HTX). lia.
        + apply list_elem_of_singleton in HTp. subst T. lia. }
    destruct (find_level_returns q key n t xs pred fuel Ht Hc) as ([[q1 p1] c1] & E1).
    { subst L. now apply Forall_app in HlL as [_ ?]. }
    { apply Exists_exists. exists T. split; [exact HTxs|exact HkT]. }
    { pose proof (chain_short _ _ _ _ Hc). lia. }
    rewrite Enext, E1. cbn [bind].
    rewrite <- Enext in E1.
    apply (find_level_at fuel q key n pred pn) in E1; auto; [|lia].
    destruct E1 as (-> & Hok' & _).
    apply IH; auto; [lia|now rewrite length_insert|now rewrite length_insert].
Qed.

Lemma findNode_returns fuel q key :
  well_formed q = true -> levels_ordered q -> has_stopper q key ->
  length (cells (mem q)) + 2 <= fuel ->
  exists b preds succs,
    findNode fuel q key no_nodes no_nodes = Ok (q, b, preds, succs).
Proof.
  intros Hwf Hord Hst Hf.
  destruct (find_levels_returns fuel q key Hwf Hord Hst Hf (S MaxLevel) (head_ q)
              no_nodes no_nodes) as ([[q1 p1] s1] & E); auto; [now left|].
  pose proof E as E'.
  apply (find_levels_spec fuel q key Hwf) in E'; auto; [|now left].
  destruct E' as (-> & _ & _ & Hsp & _).
  unfold findNode. rewrite E. cbn [bind].
  destruct (at_level s1 0 =? tail_ q); [eauto|].
  destruct (Hsp 0) as (A & B & EL & _); [lia|].
  apply level_nodes_chain in EL.
  destruct (chain_deref _ _ _ _ (at_level s1 0) EL) as (n & En).
  { apply list_elem_of_further, elem_of_app. right. apply list_elem_of_here. }
  rewrite En. cbn [bind]. eauto.
Qed.

Lemma store_other_level q p l0 v x n l :
  deref q x = Ok n -> l <> l0 ->
  exists n', deref (store_next q p l0 v) x = Ok n' /\ next_at n' l = next_at n l.
Proof.
  intros En Hl. destruct (store_next_obs q p l0 v x n En) as (n' & En' & F & N).
  exists n'. split; [exact En'|].
  destruct (Nat.lt_ge_cases l (length (next n))) as [Hlt|Hge].
  - rewrite N by exact Hlt. destruct (Nat.eqb_spec l0 l); [congruence|].
    now rewrite andb_false_r.
  - unfold next_at. destruct F as (_ & _ & _ & _ & F).
    now rewrite !nth_overflow by lia.
Qed.

Lemma link_levels_returns fuel item newNode preds succs n : forall lvl q,
  (forall l, lvl <= l < lvl + n ->
     exists pn, deref q (at_level preds l) = Ok pn
                /\ next_at pn l = at_level succs l) ->
  exists q5, link_levels (S fuel) q item newNode n lvl preds succs = Ok q5.
Proof.
  induction n as [|n IH]; intros lvl q Hcas; cbn [link_levels link_level].
  - eauto.
  - destruct (Hcas lvl) as (pn & Epn & Enext); [lia|].
    rewrite Epn. cbn [bind]. rewrite Enext, Nat.eqb_refl. cbn [bind].
    apply IH. intros l Hl. destruct (Hcas l) as (pl & Epl & Enl); [lia|].
    destruct (store_other_level q (at_level preds lvl) lvl newNode _ pl l Epl)
      as (pl' & Epl' & N); [lia|].
    exists pl'. split; [exact Epl'|congruence].
Qed.

Lemma push_loop_unfold fuel q item topLevel preds succs :
  push_loop (S fuel) q item topLevel preds succs
  = (let* (q1, _, preds1, succs1) := findNode fuel q item preds succs in
     let* (q2, newNode) := new_node q1 (value_node item topLevel) in
     let q3 := fold_left
                 (fun q lvl => store_next q newNode lvl (at_level succs1 lvl))
                 (seq 0 (S topLevel)) q2 in
     let* p := deref q3 (at_level preds1 0) in
     if next_at p 0 =? at_level succs1 0 then
       let q4 := store_next q3 (at_level preds1 0) 0 newNode in
       let* q5 := link_levels fuel q4 item newNode topLevel 1 preds1 succs1 in
       let q6 := store_fullyLinked q5 newNode true in
       Ok (with_count q6 (wrap (count_ q6 + 1)))
     else
       push_loop fuel (delete q3 newNode) item topLevel preds1 succs1).
Proof. reflexivity. Qed.

(** [push] returns on a well-formed, ordered store that holds a node of full
    height with a key not below the pushed one, when the allocator can
    provide the node. *)
Lemma push_returns fuel q item coin :
  well_formed q = true -> levels_ordered q -> has_stopper q item ->
  avail (mem q) <> 0 ->
  length (cells (mem q)) + 3 <= fuel ->
  exists q', push fuel q item coin = Ok q'.
Proof.
  intros Hwf Hord Hst Ha Hfuel. unfold push.
  destruct fuel as [|[|fuel]]; [lia ..|].
  destruct (findNode_returns (S fuel) q item Hwf Hord Hst) as (b & preds & succs & E);
    [lia|].
  pose proof E as Es. apply findNode_spec in Es; auto.
  destruct Es as (_ & _ & _ & Hsp).
  rewrite push_loop_unfold, E. cbn [bind].
  destruct (new_node q (value_node item (randomLevel coin))) as [[q2 newNode]| | | |] eqn:En;
    try (unfold new_node in En; destruct (avail (mem q)); [contradiction|discriminate]).
  cbn [bind]. rewrite init_fold.
  destruct (new_node_obs _ _ _ _ En) as (-> & _ & _ & _ & Hold2 & _).
  assert (forall l, l <= MaxLevel ->
            exists n, deref (apply_stores q2 (init_stores (length (cells (mem q))) succs
                                               (randomLevel coin)))
                        (at_level preds l) = Ok n
                      /\ next_at n l = at_level succs l) as Hcas3.
  { intros l Hl. destruct (splice_cas _ _ _ _ _ (Hsp l Hl)) as (n & En0 & Enext).
    destruct (apply_stores_obs (init_stores (length (cells (mem q))) succs
                                  (randomLevel coin)) q2 _ n (Hold2 _ _ En0))
      as (n' & En' & F & N).
    exists n'. split; [exact En'|]. rewrite N.
    - rewrite final_init.
      destruct (Nat.eqb_spec (length (cells (mem q))) (at_level preds l)) as [E1|_].
      + apply deref_lt in En0. lia.
      + exact Enext.
    - rewrite (wf_sound q _ n Hwf En0). lia. }
  destruct (Hcas3 0) as (p0 & Ep0 & Enext0); [lia|].
  rewrite Ep0. cbn [bind]. rewrite Enext0, Nat.eqb_refl.
  match goal with
  | |- context [link_levels _ ?q4 ?i ?nn ?k ?lv ?ps ?ss] =>
      destruct (link_levels_returns fuel i nn ps ss k lv q4) as (q5 & E5)
  end.
  { intros l Hl. pose proof (randomLevel_loop_le (S MaxLevel) coin 0 (Nat.le_0_l _)).
    unfold randomLevel in Hl.
    destruct (Hcas3 l) as (n & En0 & Enext); [lia|].
    destruct (store_other_level _ (at_level preds 0) 0 (length (cells (mem q))) _ n l En0)
      as (n' & En' & N); [lia|].
    exists n'. split; [exact En'|congruence]. }
  rewrite E5. cbn [bind noexcept]. eauto.
Qed.

(* ------------------------------------------------------------------------- *)
(** ** When the traversal walks off the tail *)
(* ------------------------------------------------------------------------- *)

(** When every node ahead on the level has a key below [key], [find_level]
    reaches the tail, steps to its [nullptr] successor and reads through it. *)
Lemma find_level_faults q key l t : forall xs pred fuel,
  deref q (tail_ q) = Ok t -> marked t = false -> next_at t l = nullptr ->
  chain q l pred xs -> Forall (fun x => live q x = true) xs ->
  Forall (fun x => (value_at q x < key)%Z) xs ->
  length xs + 2 <= fuel ->
  find_level fuel q key l pred (hd (tail_ q) xs) = Fault NullDeref.
Proof.
  induction xs as [|x xs IH]; intros pred fuel Ht Hm Hn Hc Hl Hv Hf.
  - destruct fuel as [|[|fuel]]; [simpl in Hf; lia ..|].
    cbn [hd]. rewrite find_level_unfold, Ht. cbn [bind].
    rewrite skip_marked_live by (unfold live; now rewrite Ht, Hm). cbn [bind].
    rewrite Nat.eqb_refl, Hn. reflexivity.
  - destruct fuel as [|[|fuel]]; [simpl in Hf; lia ..|].
    destruct Hc as (Hs & Hx & Hc). inversion Hl as [|? ? Hlx Hl']; subst.
    inversion Hv as [|? ? Hvx Hv']; subst.
    pose proof Hlx as Hlive. apply live_node in Hlx as (n & En & Hmn).
    cbn [hd]. rewrite find_level_unfold, En. cbn [bind].
    rewrite skip_marked_live by exact Hlive. cbn [bind].
    destruct (Nat.eqb_spec x (tail_ q)) as [|_]; [contradiction|].
    rewrite En. cbn [bind]. unfold value_at in Hvx. rewrite En in Hvx.
    destruct (Z.ltb_spec (value n) key) as [_|Hge]; [|lia].
    assert (next_at n l = hd (tail_ q) xs) as ->.
    { apply chain_succ_hd in Hc. unfold succ_of in Hc. rewrite En in Hc.
      now inversion Hc. }
    apply IH; auto. simpl in Hf. lia.
Qed.

(** [push] on a well-formed store faults whenever no node of full height has
    a key that is not below the pushed one; the fresh queue, whose top level
    is empty, is the first such store. *)
Lemma push_faults_without_stopper q item coin fuel :
  well_formed q = true ->
  (forall L T, level_nodes q MaxLevel = Some L -> T ∈ L ->
               (value_at q T < item)%Z) ->
  push (length (cells (mem q)) + 3 + fuel) q item coin = Fault NullDeref.
Proof.
  intros Hwf Hsmall. destruct (wf_tail q Hwf) as (t & Ht & Hm & Hn).
  destruct (wf_level q MaxLevel Hwf) as (L & EL & Hc & Hl); [lia|].
  destruct (chain_deref _ _ _ _ (head_ q) Hc (list_elem_of_here _ _)) as (h & Eh).
  unfold push.
  replace (length (cells (mem q)) + 3 + fuel)
    with (S (length (cells (mem q)) + 2 + fuel)) by lia.
  rewrite push_loop_unfold. unfold findNode.
  change (find_levels ?f q item (S MaxLevel) (head_ q) no_nodes no_nodes)
    with (let* p := deref q (head_ q) in
          let* (q1, pred1, curr1) :=
            find_level f q item MaxLevel (head_ q) (next_at p MaxLevel) in
          find_levels f q1 item MaxLevel pred1
            (<[MaxLevel := pred1]> no_nodes) (<[MaxLevel := curr1]> no_nodes)).
  rewrite Eh. cbn [bind].
  assert (next_at h MaxLevel = hd (tail_ q) L) as ->.
  { apply chain_succ_hd in Hc. unfold succ_of in Hc. rewrite Eh in Hc.
    now inversion Hc. }
  rewrite (find_level_faults q item MaxLevel t L); auto.
  - apply Forall_forall. intros x Hx. eapply Hsmall; eauto.
  - pose proof (chain_short _ _ _ _ Hc). lia.
Qed.

(* ------------------------------------------------------------------------- *)
(** ** [push] keeps the store well formed and its levels ordered *)
(* ------------------------------------------------------------------------- *)

Lemma wf_head_tail q : well_formed q = true -> head_ q <> tail_ q.
Proof.
  intros Hwf E. destruct (wf_tail q Hwf) as (t & Ht & _ & Hn).
  destruct (wf_level q 0 Hwf) as (L & _ & Hc & _); [lia|].
  pose proof (chain_succ_hd _ _ _ _ Hc) as Hs. unfold succ_of in Hs.
  rewrite E, Ht, Hn in Hs by lia. inversion Hs as [E0].
  destruct L as [|x L]; cbn [hd] in E0.
  - apply deref_lt in Ht. rewrite <- E0 in Ht. tauto.
  - destruct (chain_deref _ _ _ _ x Hc) as (n & En).
    { apply list_elem_of_further, list_elem_of_here. }
    apply deref_lt in En. rewrite <- E0 in En. tauto.
Qed.

Lemma splice_pred_not_tail q l key p c :
  well_formed q = true -> splice_at q l key p c -> p <> tail_ q.
Proof.
  intros Hwf (A & B & EL & -> & _) E. apply level_nodes_chain in EL.
  destruct (last_in A (head_ q)) as [E1|E1].
  - rewrite E1 in E. now apply wf_head_tail in E.
  - apply chain_not_tail in EL. apply EL. rewrite <- E.
    apply elem_of_app. now left.
Qed.

Lemma existsb_elem (x : addr) (L : list addr) :
  x ∈ L -> existsb (Nat.eqb x) L = true.
Proof.
  intros H. apply existsb_exists. exists x. split; [now apply list_elem_of_In|].
  apply Nat.eqb_refl.
Qed.

Lemma pushed_well_formed q q' newNode item k preds succs :
  well_formed q = true ->
  (forall l, l <= MaxLevel ->
     splice_at q l item (at_level preds l) (at_level succs l)) ->
  pushed q q' newNode item k preds succs ->
  well_formed q' = true.
Proof.
  intros Hwf Hsp Hp.
  pose proof (pushed_levels _ _ _ _ _ _ _ Hwf Hsp Hp) as Hlev.
  destruct Hp as (Enew & Hh & Ht & _ & Hold & (nd & End & _ & _ & Hmnd & _ & _) & Hsound).
  (* who stands on a level afterwards *)
  assert (forall l L', l <= MaxLevel -> level_nodes q' l = Some L' ->
            exists L, level_nodes q l = Some L
                      /\ (forall x, x ∈ L -> x ∈ L')
                      /\ (forall x, x ∈ L' -> x ∈ L \/ (x = newNode /\ l <= k))) as Hmem.
  { intros l L' Hl EL'. destruct (Hlev l Hl) as (A & c & B & EL & _ & _ & _ & _ & E').
    rewrite EL' in E'. inversion E' as [E2]. clear E'.
    exists (A ++ c :: B). split; [exact EL|].
    destruct (Nat.leb_spec l k); split; intros x Hx.
    - apply elem_of_app in Hx as [Hx|Hx]; apply elem_of_app; [now left|right].
      now apply list_elem_of_further.
    - apply elem_of_app in Hx as [Hx|Hx]; [left; apply elem_of_app; now left|].
      apply elem_of_cons in Hx as [->|Hx]; [now right|].
      left. apply elem_of_app. now right.
    - exact Hx.
    - now left. }
  assert (forall x, live q x = true -> live q' x = true) as Hlive.
  { intros x Hx. apply live_node in Hx as (n & En & Hm).
    destruct (Hold x n En) as (n' & En' & (_ & _ & Hm' & _) & _).
    unfold live. rewrite En', Hm', Hm. reflexivity. }
  unfold well_formed. rewrite !andb_true_iff. repeat split.
  - exact Hsound.
  - destruct (wf_tail q Hwf) as (t & Etl & Hmt & Hnt).
    destruct (Hold _ t Etl) as (t' & Et' & (_ & _ & Hm' & _) & N).
    unfold tail_ok. rewrite Ht, Et', Hm', Hmt. cbn [negb andb].
    apply forallb_forall. intros l Hl. apply in_seq in Hl. apply Nat.eqb_eq.
    rewrite N by (rewrite (wf_sound q _ t Hwf Etl); lia).
    destruct (Nat.eqb_spec (at_level preds l) (tail_ q)) as [E|_].
    + exfalso. eapply splice_pred_not_tail; [exact Hwf| |exact E]. apply Hsp. lia.
    + rewrite andb_false_r. apply Hnt. lia.
  - apply forallb_forall. intros l Hl. apply in_seq in Hl.
    destruct (Hlev l) as (A & c & B & EL & _ & _ & _ & _ & EL'); [lia|].
    unfold level_ok. rewrite EL'.
    destruct (Hmem l _ ltac:(lia) EL') as (L & EL2 & _ & Hback).
    destruct (wf_level q l Hwf) as (L3 & EL3 & _ & HlL); [lia|].
    assert (L3 = L) by congruence. subst L3.
    apply forallb_forall. intros x Hx. apply list_elem_of_In in Hx.
    destruct (Hback x Hx) as [HxL|[-> _]].
    + apply Hlive. rewrite Forall_forall in HlL. now apply HlL.
    + unfold live. now rewrite End, Hmnd.
  - apply forallb_forall. intros l Hl. apply in_seq in Hl.
    destruct (Hlev (S l)) as (A1 & c1 & B1 & EL1 & _ & _ & _ & _ & EL1'); [lia|].
    destruct (Hlev l) as (A0 & c0 & B0 & EL0 & _ & _ & _ & _ & EL0'); [lia|].
    unfold contained. rewrite EL1', EL0'.
    destruct (Hmem (S l) _ ltac:(lia) EL1') as (L1 & E1 & _ & Hback1).
    destruct (Hmem l _ ltac:(lia) EL0') as (L0 & E0 & Hfwd0 & _).
    apply forallb_forall. intros x Hx. apply list_elem_of_In in Hx.
    apply existsb_elem.
    destruct (Hback1 x Hx) as [HxL|[-> Hk]].
    + apply Hfwd0. eapply (wf_contained q l L1 L0); eauto. lia.
    + rewrite (proj2 (Nat.leb_le l k)) by lia.
      apply elem_of_app. right. apply list_elem_of_here.
Qed.

(** The shape, the order of every level and a node of full height with a key
    not below [bound] are kept by a completed [push]: a store that has them
    takes any number of pushes of keys up to [bound]. *)
Lemma push_invariant fuel q item coin q' bound :
  well_formed q = true -> levels_ordered q -> has_stopper q bound ->
  push fuel q item coin = Ok q' ->
  well_formed q' = true /\ levels_ordered q' /\ has_stopper q' bound.
Proof.
  intros Hwf Hord (T & LT & ELT & HT & HkT) H. apply noexcept_Ok in H.
  assert (randomLevel coin <= MaxLevel) as Hk by (apply randomLevel_loop_le, Nat.le_0_l).
  apply push_loop_spec in H; [|exact Hwf|exact Hk].
  destruct H as (preds & succs & Hsp & Hp).
  split; [eapply pushed_well_formed; eauto|]. split.
  - intros l L' Hl EL'.
    destruct (wf_level q l Hwf Hl) as (L & EL & _).
    eapply (pushed_level_order _ _ _ _ _ _ _ Hwf Hsp Hp l); eauto.
  - destruct (pushed_levels _ _ _ _ _ _ _ Hwf Hsp Hp MaxLevel) as
      (A & c & B & EL & _ & _ & _ & _ & EL'); [lia|].
    rewrite ELT in EL. inversion EL; subst LT.
    exists T. eexists. split; [exact EL'|]. split.
    + destruct (MaxLevel <=? randomLevel coin); [|exact HT].
      apply elem_of_app in HT as [HT|HT]; apply elem_of_app; [now left|right].
      now apply list_elem_of_further.
    + apply level_nodes_chain in ELT.
      destruct (chain_deref _ _ _ _ T ELT (list_elem_of_further _ _ _ HT)) as (n & En).
      destruct Hp as (_ & _ & _ & _ & Hold & _).
      destruct (Hold T n En) as (n' & En' & F & _).
      now rewrite (value_at_same _ _ _ _ _ En En' F).
Qed.
Lemma push_builds_two_nodes d a :
  push 3 (one_tall d (S a)) 5 once = Ok (two_nodes d a).
Proof. reflexivity. Qed.

(* ------------------------------------------------------------------------- *)
(** ** The scenarios in front of a node of full height *)
(* ------------------------------------------------------------------------- *)

(** Pushed into a store where a key of full height stops every traversal, the
    values of scenario 1 are linked in order and the store stays well formed. *)
Lemma pushes_in_front_of_tall_node :
  exists q', run 12 (one_tall HazardDomain.init 8) scenario_pushes = Ok (q', [])
             /\ bottom_values q' = Some [1; 1; 2; 3; 4; 5; 6; 9; 10]%Z
             /\ well_formed q' = true.
Proof. eexists. split; [vm_compute; reflexivity|]. split; reflexivity. Qed.

(** The pops that follow do not return them in order: the first returns [1]
    and takes the second [1] off the bottom level as well, the second returns
    [2] and leaves its marked node linked behind the head. *)
Lemma pops_after_pushes_lose_a_value :
  exists q', run 12 (one_tall HazardDomain.init 10) (scenario_pushes ++ [Pop; Pop])
             = Ok (q', [Some 1; Some 2]%Z)
             /\ bottom_values q' = Some [2; 3; 4; 5; 6; 9; 10]%Z
             /\ option_map (node_marked q') (option_map (hd nullptr) (bottom q'))
                = Some (Some true).
Proof. eexists. split; [vm_compute; reflexivity|]. split; reflexivity. Qed.

(** Three equal keys pushed in front of the tall node are returned by three
    pops, each of which retires the node behind the one it marked; the pop of
    the tall node itself walks off the tail. *)
Lemma three_equal_keys_in_front_of_tall_node :
  let pushes := [Push 5 tails; Push 5 tails; Push 5 tails] in
  (exists q', run 6 (one_tall HazardDomain.init 5) (pushes ++ [Pop; Pop; Pop])
              = Ok (q', [Some 5; Some 5; Some 5]%Z)
              /\ bottom_values q' = Some [10%Z]
              /\ retired_addrs q' = [5; 4; 3])
  /\ run 6 (one_tall HazardDomain.init 5) (pushes ++ [Pop; Pop; Pop; Pop])
     = Fault NullDeref.
Proof.
  split; [eexists; split; [vm_compute; reflexivity|split; reflexivity]|].
  vm_compute. reflexivity.
Qed.

(** With a marked or not yet fully linked node behind the head, [pop] goes
    round its loop without changing anything: no fuel makes it return. *)
Lemma pop_spins_behind_head fuel q h n :
  deref q (head_ q) = Ok h -> next_at h 0 <> tail_ q ->
  deref q (next_at h 0) = Ok n ->
  marked n = true \/ fullyLinked n = false ->
  pop fuel q = OutOfFuel.
Proof.
  intros Hh Ht Hn Hm. unfold pop.
  induction fuel as [|fuel IH]; [reflexivity|].
  cbn [pop_loop]. rewrite Hh. cbn [bind].
  destruct (Nat.eqb_spec (next_at h 0) (tail_ q)); [contradiction|].
  rewrite Hn. cbn [bind].
  destruct (fullyLinked n); cbn [negb].
  - destruct Hm as [->|Hm]; [exact IH|discriminate].
  - exact IH.
Qed.

(* ------------------------------------------------------------------------- *)
(** ** End-to-end scenarios *)
(* ------------------------------------------------------------------------- *)

(** C1.  The scenario of R1 on the code: the first [push] into the fresh
    queue, here of [3], reads through [nullptr] inside [findNode]; no fuel
    makes the run of the eight pushes and eight pops complete, and the same
    holds for the first push of any sequence. *)
Theorem sorted_drain_stops_at_first_push d a coin fuel item rest :
  let ops := map (fun v => Push v coin) [3; 1; 4; 1; 5; 9; 2; 6]%Z ++ repeat Pop 8 in
  run (3 + fuel) (fresh d a) ops = Fault NullDeref
  /\ (forall f q' rs, run f (fresh d a) ops <> Ok (q', rs))
  /\ push (3 + fuel) (fresh d a) 3 coin = Fault NullDeref
  /\ run (3 + fuel) (fresh d a) (Push item coin :: rest) = Fault NullDeref.
Proof.
  intros ops. unfold ops. cbn [map app].
  rewrite !run_fresh_first_push, push_fresh. cbn [Nat.ltb Nat.leb Nat.add].
  repeat split; try reflexivity.
  intros f q' rs H. rewrite run_fresh_first_push in H. now destruct (f <? 3).
Qed.

(** C2.  On the code a pushed value is lost: [push 5] into the fresh queue
    ends in a fault, so [5] is neither in the queue nor returned by the
    [pop] that follows.  And where a [pop] does complete (on [two_nodes]) it
    marks the node of key [5] at address [4] but retires the unmarked node of
    key [10] at address [3], which it also unlinks from the bottom level. *)
Theorem pushed_value_lost_and_other_node_retired d a coin fuel :
  run (3 + fuel) (fresh d a) [Push 5 coin; Pop] = Fault NullDeref
  /\ (forall f q' rs, run f (fresh d a) [Push 5 coin; Pop] <> Ok (q', rs))
  /\ exists q', pop 4 (two_nodes HazardDomain.init (S a)) = Ok (q', Some 5%Z)
                /\ node_marked q' 4 = Some true
                /\ node_marked q' 3 = Some false
                /\ retired_addrs q' = [3]
                /\ bottom q' = Some [].
Proof.
  rewrite run_fresh_first_push. split; [reflexivity|]. split.
  - intros f q' rs H. rewrite run_fresh_first_push in H. now destruct (f <? 3).
  - eexists. split; [vm_compute; reflexivity|]. repeat split.
Qed.

(** C3.  Scenario 5 on the code: the first [push 5] into the fresh queue
    faults, so none of the three pushes and four pops completes. *)
Theorem three_equal_keys_stop_at_first_push d a coin fuel :
  let ops := [Push 5 coin; Push 5 coin; Push 5 coin; Pop; Pop; Pop; Pop] in
  run (3 + fuel) (fresh d a) ops = Fault NullDeref
  /\ (forall f q' rs, run f (fresh d a) ops <> Ok (q', rs)).
Proof.
  intros ops. unfold ops. rewrite run_fresh_first_push. split; [reflexivity|].
  intros f q' rs H. rewrite run_fresh_first_push in H. now destruct (f <? 3).
Qed.

(* ------------------------------------------------------------------------- *)
(** ** Invariants and single operations *)
(* ------------------------------------------------------------------------- *)




(** On a well-formed store no marked node is linked, so a bottom level
    without a live entry is an empty one. *)
Lemma no_live_entry_is_empty q L :
  well_formed q = true -> bottom q = Some L ->
  Forall (fun x => live q x = false) L -> L = [].
Proof.
  intros Hwf EL Hdead. destruct (wf_level q 0 Hwf) as (L' & EL' & _ & Hlive); [lia|].
  unfold bottom in EL. assert (L' = L) by congruence. subst L'.
  destruct L as [|x L]; [reflexivity|].
  inversion Hdead; subst. inversion Hlive; subst. congruence.
Qed.

(** C7 as amended.  When the bottom level holds no entry, [pop] returns the
    empty indicator in its first iteration and the state is the one it was
    called in. *)
Theorem pop_on_empty_returns_false fuel q :
  bottom q = Some [] -> pop (S fuel) q = Ok (q, None).
Proof.
  intros H. apply bottom_empty_head in H as (h & Hh & Ht).
  unfold pop. cbn [pop_loop]. rewrite Hh. cbn [bind].
  rewrite Ht, Nat.eqb_refl. reflexivity.
Qed.

Lemma pop_on_empty_returns_false_witness :
  bottom (fresh HazardDomain.init 0) = Some []
  /\ pop 1 (fresh HazardDomain.init 0) = Ok (fresh HazardDomain.init 0, None).
Proof.
  split; [reflexivity|].
  apply (pop_on_empty_returns_false 0 (fresh HazardDomain.init 0)). reflexivity.
Defined.

(** C7 as the specification states it, for a bottom level without live
    entries, fails: when the only node of the bottom level is marked (a
    [pop] has claimed it and not yet unlinked it), no entry is live, and
    [pop] neither returns the empty indicator nor anything else; it goes
    round its loop until the node is unlinked. *)
Lemma pop_blocks_behind_a_marked_node :
  let q := store_marked (one_tall HazardDomain.init 0) 3 true in
  bottom q = Some [3]
  /\ Forall (fun x => live q x = false) [3]
  /\ forall fuel, pop fuel q = OutOfFuel.
Proof.
  intros q. split; [reflexivity|]. split; [repeat constructor|].
  intros fuel. eapply (pop_spins_behind_head fuel q).
  - reflexivity.
  - cbn. discriminate.
  - reflexivity.
  - left. reflexivity.
Qed.

(** C6 as the code has it.  With the allocator exhausted, [new] throws inside
    the loop of [push] once the traversal is done, in the state the traversal
    left and before any compare-exchange on a link; [push] is [noexcept], so
    the program is terminated and nothing reaches the caller. *)
Theorem push_out_of_memory_terminates fuel q item coin q1 b preds succs :
  avail (mem q) = 0 ->
  findNode fuel q item no_nodes no_nodes = Ok (q1, b, preds, succs) ->
  push_loop (S fuel) q item (randomLevel coin) no_nodes no_nodes = BadAlloc q1
  /\ push (S fuel) q item coin = Terminate
  /\ forall f, match push f q item coin with
               | Ok _ | BadAlloc _ => False
               | _ => True
               end.
Proof.
  intros Ha Hf.
  assert (forall f q2 b2 p2 s2,
            findNode f q item no_nodes no_nodes = Ok (q2, b2, p2, s2) ->
            new_node q2 (value_node item (randomLevel coin)) = BadAlloc q2) as Hn.
  { intros f q2 b2 p2 s2 H. apply findNode_frame, frame_avail in H.
    unfold new_node. now rewrite H, Ha. }
  assert (push_loop (S fuel) q item (randomLevel coin) no_nodes no_nodes = BadAlloc q1) as Hl.
  { cbn [push_loop]. rewrite Hf. cbn [bind]. erewrite Hn by exact Hf. reflexivity. }
  split; [exact Hl|]. split; [unfold push; now rewrite Hl|].
  intros [|f]; [exact I|]. unfold push. cbn [push_loop].
  destruct (findNode f q item no_nodes no_nodes) as [[[[q2 b2] p2] s2]| | | |] eqn:E;
    cbn [bind noexcept]; try exact I.
  erewrite Hn by exact E. exact I.
Qed.

Lemma push_out_of_memory_terminates_witness :
  push_loop 3 (one_tall HazardDomain.init 0) 5 (randomLevel tails) no_nodes no_nodes
  = BadAlloc (one_tall HazardDomain.init 0)
  /\ push 3 (one_tall HazardDomain.init 0) 5 tails = Terminate.
Proof.
  pose proof (push_out_of_memory_terminates 2 (one_tall HazardDomain.init 0) 5 tails
                (one_tall HazardDomain.init 0) false
                (replicate 17 1) (replicate 17 3) eq_refl eq_refl) as (H1 & H2 & _).
  split; [exact H1 | exact H2].
Defined.

(** C6 as the specification states it fails: in a store where the traversal
    of [push 5] completes and the allocator is exhausted, the caller does not
    get an out-of-memory condition, the program is terminated. *)
Lemma out_of_memory_not_surfaced :
  push 3 (one_tall HazardDomain.init 0) 5 tails = Terminate
  /\ ~ exists q', push 3 (one_tall HazardDomain.init 0) 5 tails = BadAlloc q'.
Proof. split; [reflexivity|]. intros [q' H]. discriminate H. Qed.

(** C10.  [empty] is [size() == 0]; over a completed single-threaded run the
    counter moves by the number of pushes minus the number of pops that
    returned a value (in [size_t] arithmetic), and a [pop] that returns the
    empty indicator leaves the state, hence the counter, as it was. *)
Theorem size_is_pushes_minus_pops fuel q ops q' rs :
  (0 <= size q < size_max)%Z ->
  run fuel q ops = Ok (q', rs) ->
  (empty q' = true <-> size q' = 0%Z)
  /\ size q' = wrap (size q + Z.of_nat (pushes ops) - Z.of_nat (hits rs))
  /\ (forall f q2, pop f q' = Ok (q2, None) -> q2 = q' /\ size q2 = size q').
Proof.
  intros Hq Hrun. split; [unfold empty, size; apply Z.eqb_eq|]. split.
  - revert q q' rs Hq Hrun.
    induction ops as [|[item coin|] ops IH]; intros q q' rs Hq Hrun; cbn [run] in Hrun.
    + inversion Hrun; subst. unfold pushes, hits, wrap. simpl.
      rewrite Z.add_0_r, Z.sub_0_r. symmetry. now apply Z.mod_small.
    + bind_inv Hrun. apply push_count in E. unfold size in *.
      apply IH in Hrun.
      * rewrite Hrun, E. unfold pushes, wrap. cbn [List.filter is_push length].
        rewrite Nat2Z.inj_succ.
        rewrite <- Z.add_sub_assoc, Z.add_mod_idemp_l by (unfold size_max; lia).
        f_equal. lia.
      * rewrite E. unfold wrap. apply Z.mod_pos_bound. unfold size_max. lia.
    + bind_inv Hrun. destruct a as [q1 r]. bind_inv Hrun. destruct a as [q2 rs2].
      inversion Hrun; subst. apply pop_result in E. unfold size in *.
      apply IH in E0.
      * rewrite E0. unfold pushes, hits. cbn [List.filter is_push].
        destruct r as [v|]; cbn [List.filter is_hit length].
        -- rewrite E, Nat2Z.inj_succ. unfold wrap.
           rewrite <- Z.add_sub_assoc, Z.add_mod_idemp_l by (unfold size_max; lia).
           f_equal. lia.
        -- now subst.
      * destruct r; [|now subst]. rewrite E. unfold wrap.
        apply Z.mod_pos_bound. unfold size_max. lia.
  - intros f q2 H. apply pop_result in H. now subst.
Qed.

Lemma size_is_pushes_minus_pops_witness :
  let q := one_tall HazardDomain.init 3 in
  let ops := [Push 5 once; Push 7 tails; Pop] in
  (0 <= size q < size_max)%Z
  /\ match run 4 q ops with
     | Ok (q', rs) =>
         size q' = wrap (size q + Z.of_nat (pushes ops) - Z.of_nat (hits rs))
     | _ => False
     end.
Proof.
  intros q ops.
  assert (0 <= size q < size_max)%Z as Hq by (vm_compute; split; [discriminate | reflexivity]).
  split; [exact Hq|].
  destruct (run 4 q ops) as [[q' rs]| | | |] eqn:E;
    [|vm_compute in E; discriminate E ..].
  exact (proj1 (proj2 (size_is_pushes_minus_pops 4 q ops q' rs Hq E))).
Defined.

(** A tower of full height where [push] works: in front of the tall node the
    node of level [MaxLevel] is linked on all [17] levels. *)
Lemma forced_tall_push_in_front_of_tall_node :
  exists q', push 3 (one_tall HazardDomain.init 1) 5 heads = Ok q'
             /\ levels_are q' [4; 3] = true
             /\ option_map topLevel (nth 4 (cells (mem q')) None) = Some MaxLevel.
Proof. eexists. split; [vm_compute; reflexivity|]. split; vm_compute; reflexivity. Qed.

(** Where a key of full height stops the traversal, a push whose coin flips
    all succeed returns, and its node, of level [MaxLevel], stands on every
    level; the levels stay ordered by key. *)
Lemma forced_tall_push_links_all_levels fuel q item coin :
  well_formed q = true -> levels_ordered q -> has_stopper q item ->
  avail (mem q) <> 0 -> length (cells (mem q)) + 3 <= fuel ->
  randomLevel coin = MaxLevel ->
  exists q',
    push fuel q item coin = Ok q'
    /\ well_formed q' = true /\ levels_ordered q'
    /\ (exists nd, deref q' (length (cells (mem q))) = Ok nd
                   /\ value nd = item /\ topLevel nd = MaxLevel)
    /\ forall l, l <= MaxLevel ->
         exists A B,
           level_nodes q l = Some (A ++ B)
           /\ level_nodes q' l = Some (A ++ length (cells (mem q)) :: B).
Proof.
  intros Hwf Hord Hst Hav Hf Hk.
  destruct (push_returns fuel q item coin Hwf Hord Hst Hav Hf) as (q' & E).
  destruct (push_invariant fuel q item coin q' item Hwf Hord Hst E) as (Hwf' & Hord' & _).
  exists q'. split; [exact E|]. split; [exact Hwf'|]. split; [exact Hord'|].
  apply noexcept_Ok in E.
  apply push_loop_spec in E; [|exact Hwf|rewrite Hk; apply Nat.le_refl].
  destruct E as (preds & succs & Hsp & Hp). rewrite Hk in Hp.
  pose proof Hp as (_ & _ & _ & _ & _ & (nd & End & Hv & Htl & _) & _).
  split; [exists nd; repeat split; assumption|].
  intros l Hl.
  destruct (pushed_levels _ _ _ _ _ _ _ Hwf Hsp Hp l Hl)
    as (A & c & B & EL & _ & _ & _ & _ & EL').
  rewrite (proj2 (Nat.leb_le _ _) Hl) in EL'.
  exists A, (c :: B). split; [exact EL|exact EL'].
Qed.

(** C8.  [randomLevel] returns a level between [0] and [MaxLevel]: its loop
    stops because its condition is false, not later than at [MaxLevel], and
    the new node has [MaxLevel + 1] successor cells, so the indices used
    during insertion are in bounds.  But the forced-tall tower of B3 does
    not insert: on a queue built from scratch the [push] whose coin flips
    all succeed reads through [nullptr] inside [findNode], like every other
    first [push], before the level is used. *)
Theorem forced_tall_push_stops_in_findNode d a fuel item coin :
  (0 <= randomLevel coin <= MaxLevel
   /\ coin (randomLevel coin) && (randomLevel coin <? MaxLevel) = false
   /\ randomLevel coin < length (next (value_node item (randomLevel coin)))
   /\ randomLevel heads = MaxLevel)
  /\ push (3 + fuel) (fresh d a) item heads = Fault NullDeref
  /\ (forall f q', push f (fresh d a) item heads <> Ok q').
Proof.
  split; [|split].
  - split; [split; [lia | apply randomLevel_loop_le; apply Nat.le_0_l]|].
    split; [apply randomLevel_loop_exit; unfold MaxLevel; lia|].
    split; [|apply randomLevel_loop_heads; unfold MaxLevel; lia].
    change (length (next (value_node item (randomLevel coin)))) with (S MaxLevel).
    pose proof (randomLevel_loop_le (S MaxLevel) coin 0 (Nat.le_0_l _)) as H.
    unfold randomLevel. lia.
  - now rewrite push_fresh.
  - intros f q' H. rewrite push_fresh in H. now destruct (f <? 3).
Qed.

(* ------------------------------------------------------------------------- *)
(** ** The reclamation domain: [protect], and how it composes with [scan] *)
(* ------------------------------------------------------------------------- *)

Lemma map_nth_seq {A} (l : list A) (d : A) :
  map (fun i => nth i l d) (seq 0 (length l)) = l.
Proof.
  induction l as [|a l IH]; [reflexivity|].
  cbn [length seq map nth]. f_equal.
  rewrite <- seq_shift, map_map. exact IH.
Qed.

Lemma filter_twice {A} (f : A -> bool) (l : list A) :
  List.filter f (List.filter f l) = List.filter f l.
Proof.
  induction l as [|a l IH]; [reflexivity|]. cbn [List.filter].
  destruct (f a) eqn:E; [|exact IH]. cbn [List.filter]. now rewrite E, IH.
Qed.

Lemma filter_none {A} (f : A -> bool) (l : list A) :
  List.filter (fun a => negb (f a)) (List.filter f l) = [].
Proof.
  induction l as [|a l IH]; [reflexivity|]. cbn [List.filter].
  destruct (f a) eqn:E; [|exact IH]. cbn [List.filter]. now rewrite E.
Qed.

Section ProtectFacts.
Context {W : Type}.
Implicit Types (d : HazardDomain.t W) (rs : list (HazardDomain.Retired W)) (w : W).

(** With all its cells in place, [hp_] is the list of the slots. *)
Lemma slots_hp d :
  length (HazardDomain.hp_ d) = HazardDomain.MAX_HAZARD_POINTERS ->
  HazardDomain.slots d = HazardDomain.hp_ d.
Proof.
  intros E. unfold HazardDomain.slots. rewrite <- E. apply map_nth_seq.
Qed.

(** The snapshot reads the slots only. *)
Lemma snapshot_hp d rs :
  HazardDomain.snapshot (HazardDomain.mk (HazardDomain.hp_ d) rs)
  = HazardDomain.snapshot d.
Proof. unfold HazardDomain.snapshot. cbn [HazardDomain.hp_]. reflexivity. Qed.

(** The loop returns in the first round in which both loads agree. *)
Lemma protect_loop_rounds n : forall fuel d load k idx,
  (forall j, j < n -> load (k + 2 * j) <> load (S (k + 2 * j))) ->
  load (k + 2 * n) = load (S (k + 2 * n)) ->
  n < fuel ->
  HazardDomain.protect_loop fuel d load k idx
  = HazardDomain.Protected
      (HazardDomain.mk (<[idx := load (k + 2 * n)]> (HazardDomain.hp_ d))
                       (HazardDomain.retired_ d))
      (load (k + 2 * n)).
Proof.
  induction n as [|n IH]; intros fuel d load k idx Hne Heq Hf;
    (destruct fuel as [|fuel]; [lia|]); cbn [HazardDomain.protect_loop].
  - replace (k + 2 * 0) with k in * by lia.
    rewrite <- Heq, Nat.eqb_refl. reflexivity.
  - destruct (Nat.eqb_spec (load k) (load (S k))) as [E|_].
    + exfalso. apply (Hne 0); [lia|]. now replace (k + 2 * 0) with k by lia.
    + rewrite (IH fuel _ load (S (S k)) idx).
      * cbn [HazardDomain.hp_ HazardDomain.retired_].
        rewrite list_insert_insert_eq.
        now replace (S (S k) + 2 * n) with (k + 2 * S n) by lia.
      * intros j Hj. replace (S (S k) + 2 * j) with (k + 2 * S j) by lia.
        apply Hne. lia.
      * now replace (S (S k) + 2 * n) with (k + 2 * S n) by lia.
      * lia.
Qed.

(** What a call that returns has done to the domain. *)
Lemma protect_loop_inv fuel : forall d load k idx d' p,
  HazardDomain.protect_loop fuel d load k idx = HazardDomain.Protected d' p ->
  HazardDomain.hp_ d' = <[idx := p]> (HazardDomain.hp_ d)
  /\ HazardDomain.retired_ d' = HazardDomain.retired_ d.
Proof.
  induction fuel as [|fuel IH]; intros d load k idx d' p H; [discriminate H|].
  cbn [HazardDomain.protect_loop] in H.
  destruct (load k =? load (S k)).
  - inversion H; subst. split; reflexivity.
  - apply IH in H. cbn [HazardDomain.hp_ HazardDomain.retired_] in H.
    now rewrite list_insert_insert_eq in H.
Qed.

Lemma protect_inv fuel d load idx d' p :
  HazardDomain.protect fuel d load idx = HazardDomain.Protected d' p ->
  idx < HazardDomain.MAX_HAZARD_POINTERS
  /\ HazardDomain.hp_ d' = <[idx := p]> (HazardDomain.hp_ d)
  /\ HazardDomain.retired_ d' = HazardDomain.retired_ d.
Proof.
  unfold HazardDomain.protect.
  destruct (Nat.ltb_spec idx HazardDomain.MAX_HAZARD_POINTERS) as [Hlt|_];
    [|discriminate].
  intros H. split; [exact Hlt|]. exact (protect_loop_inv _ _ _ _ _ _ _ H).
Qed.

(** X1.  [protect] returns in the first round in which the two loads of
    [addr] agree, whatever was stored to [addr] in the rounds before; it
    returns the pointer both loads saw, that pointer is then the content of
    slot [idx], and the other slots and the retired list are as before. *)
Theorem protect_publishes_the_stable_pointer fuel d load idx n :
  idx < HazardDomain.MAX_HAZARD_POINTERS ->
  length (HazardDomain.hp_ d) = HazardDomain.MAX_HAZARD_POINTERS ->
  (forall j, j < n -> load (2 * j) <> load (S (2 * j))) ->
  load (2 * n) = load (S (2 * n)) ->
  n < fuel ->
  exists d',
    HazardDomain.protect fuel d load idx = HazardDomain.Protected d' (load (2 * n))
    /\ HazardDomain.slots d' = <[idx := load (2 * n)]> (HazardDomain.slots d)
    /\ HazardDomain.retired_ d' = HazardDomain.retired_ d.
Proof.
  intros Hidx Hlen Hne Heq Hf. eexists. split; [|split].
  - unfold HazardDomain.protect.
    destruct (Nat.ltb_spec idx HazardDomain.MAX_HAZARD_POINTERS); [|lia].
    apply (protect_loop_rounds n fuel d load 0 idx); assumption.
  - rewrite !slots_hp; [reflexivity|exact Hlen|].
    cbn [HazardDomain.hp_]. now rewrite length_insert.
  - reflexivity.
Qed.

(** X2.  A pointer that [protect] returned is safe from [scan]: as long as
    the slot holds it, a scan keeps every retired record of that pointer and
    runs the deleter of none of them. *)
Theorem protected_pointer_survives_scan fuel d load idx d' p w :
  length (HazardDomain.hp_ d) = HazardDomain.MAX_HAZARD_POINTERS ->
  HazardDomain.protect fuel d load idx = HazardDomain.Protected d' p ->
  p <> nullptr ->
  let kept := HazardDomain.retired_ (HazardDomain.scan d' w).1 in
  List.filter (fun r => HazardDomain.ptr r =? p) kept
  = List.filter (fun r => HazardDomain.ptr r =? p) (HazardDomain.retired_ d)
  /\ exists gone,
       (HazardDomain.scan d' w).2 = HazardDomain.run_deleters gone w
       /\ Forall (fun r => HazardDomain.ptr r <> p) gone
       /\ forall r, r ∈ gone -> r ∈ HazardDomain.retired_ d.
Proof.
  intros Hlen H Hp kept. apply protect_inv in H as (Hidx & Ehp & Ers).
  assert (existsb (Nat.eqb p) (HazardDomain.snapshot d') = true) as Hin.
  { rewrite snapshot_nonnull_slots, slots_hp
      by (rewrite Ehp, length_insert; exact Hlen).
    apply existsb_exists. exists p. split; [|apply Nat.eqb_refl].
    apply filter_In. split.
    - apply list_elem_of_In, (list_elem_of_lookup_2 _ idx).
      rewrite Ehp. apply list_lookup_insert_eq. now rewrite Hlen.
    - unfold HazardDomain.nonnull. now destruct (Nat.eqb_spec p nullptr). }
  subst kept. rewrite scan_filter. cbn [fst snd HazardDomain.retired_]. rewrite Ers.
  revert Hin. generalize (HazardDomain.snapshot d') as hz. intros hz Hin.
  clear Ers Ehp. split.
  - unfold HazardDomain.spec_kept. induction (HazardDomain.retired_ d) as [|r rs IH];
      [reflexivity|]. cbn [List.filter].
    unfold HazardDomain.protected_by at 1.
    destruct (Nat.eqb_spec (HazardDomain.ptr r) p) as [E|E].
    + rewrite E, Hin. cbn [List.filter]. rewrite E, Nat.eqb_refl.
      f_equal. exact IH.
    + destruct (existsb (Nat.eqb (HazardDomain.ptr r)) hz); [|exact IH].
      cbn [List.filter].
      destruct (Nat.eqb_spec (HazardDomain.ptr r) p); [contradiction|exact IH].
  - eexists. split; [reflexivity|]. split.
    + apply List.Forall_forall. intros r Hr. apply filter_In in Hr as [_ Hr].
      intros E. unfold HazardDomain.protected_by in Hr.
      rewrite E, Hin in Hr. discriminate Hr.
    + intros r Hr. apply list_elem_of_In in Hr. apply filter_In in Hr as [Hr _].
      now apply list_elem_of_In.
Qed.

(** X3.  A scan that follows a scan finds nothing to reclaim: it calls no
    deleter and leaves the retired list as it is. *)
Theorem scan_after_scan_reclaims_nothing d w w' :
  HazardDomain.scan (HazardDomain.scan d w).1 w' = ((HazardDomain.scan d w).1, w').
Proof.
  rewrite (scan_filter d w). cbn [fst]. rewrite scan_filter.
  cbn [HazardDomain.hp_ HazardDomain.retired_]. rewrite snapshot_hp.
  unfold HazardDomain.spec_kept, HazardDomain.spec_deleted.
  now rewrite filter_twice, filter_none.
Qed.

Lemma filter_length_le {A} (f : A -> bool) (l : list A) :
  length (List.filter f l) <= length l.
Proof.
  induction l as [|a l IH]; [reflexivity|]. cbn [List.filter].
  destruct (f a); cbn [length]; lia.
Qed.

(** X4.  [retire] bounds the garbage: when it returns, at most
    [MAX_HAZARD_POINTERS] retired records are not protected by a slot, and
    if the list was full before the call every record left is protected. *)
Theorem retire_bounds_the_unprotected_records d (p : addr) (del : addr -> W -> W) w :
  let d' := (HazardDomain.retire d p del w).1 in
  length (HazardDomain.spec_deleted (HazardDomain.snapshot d') (HazardDomain.retired_ d'))
  <= HazardDomain.MAX_HAZARD_POINTERS
  /\ (HazardDomain.MAX_HAZARD_POINTERS <= length (HazardDomain.retired_ d) ->
      HazardDomain.spec_deleted (HazardDomain.snapshot d') (HazardDomain.retired_ d') = []).
Proof.
  intros d'. subst d'. unfold HazardDomain.retire.
  cbn [HazardDomain.retired_ HazardDomain.hp_].
  rewrite scan_filter. cbn [HazardDomain.retired_ HazardDomain.hp_].
  rewrite length_app. cbn [length].
  generalize HazardDomain.MAX_HAZARD_POINTERS as N. intros N.
  destruct (Nat.ltb_spec N (length (HazardDomain.retired_ d) + 1)) as [Hlt|Hge];
    cbn [fst HazardDomain.retired_].
  - rewrite !snapshot_hp. unfold HazardDomain.spec_kept, HazardDomain.spec_deleted.
    rewrite filter_none. cbn [length]. split; [lia|reflexivity].
  - rewrite snapshot_hp. split; [|lia].
    etransitivity; [apply filter_length_le|]. rewrite length_app. cbn [length]. lia.
Qed.


End ProtectFacts.

Lemma protect_publishes_the_stable_pointer_witness :
  exists d',
    HazardDomain.protect 2 (@HazardDomain.init Heap) (fun k => if k <? 1 then 7 else 9) 3
    = HazardDomain.Protected d' 9
    /\ HazardDomain.slots d' = <[3 := 9]> (HazardDomain.slots (@HazardDomain.init Heap))
    /\ HazardDomain.retired_ d' = [].
Proof.
  apply (protect_publishes_the_stable_pointer
           2 (@HazardDomain.init Heap) (fun k => if k <? 1 then 7 else 9) 3 1).
  - unfold HazardDomain.MAX_HAZARD_POINTERS. lia.
  - reflexivity.
  - intros j Hj. assert (j = 0) as -> by lia. simpl. lia.
  - reflexivity.
  - lia.
Defined.

Lemma protected_pointer_survives_scan_witness :
  let d := HazardDomain.mk (replicate HazardDomain.MAX_HAZARD_POINTERS nullptr)
             [HazardDomain.mkRetired 4 free; HazardDomain.mkRetired 3 free] in
  let m := Some {| cells := [None; None; None; Some tall_node; Some tall_node]; avail := 0 |} in
  exists d', HazardDomain.protect 1 d (fun _ => 3) 0 = HazardDomain.Protected d' 3
    /\ List.filter (fun r => HazardDomain.ptr r =? 3)
         (HazardDomain.retired_ (HazardDomain.scan d' m).1)
       = [HazardDomain.mkRetired 3 free].
Proof.
  intros d m. eexists. split; [reflexivity|].
  refine (proj1 (protected_pointer_survives_scan 1 d (fun _ => 3) 0 _ 3 m _ _ _)).
  - reflexivity.
  - reflexivity.
  - discriminate.
Defined.


(* ------------------------------------------------------------------------- *)
(** ** Construction and destruction *)
(* ------------------------------------------------------------------------- *)

(** X6.  The constructor needs two objects from the allocator.  Given them
    it builds a well-formed queue with every level empty, size [0] and the
    domain it was handed; given fewer it throws, and a head sentinel it had
    already allocated stays allocated. *)
Theorem construct_builds_an_empty_queue_or_throws d a :
  match construct d a with
  | Ok q =>
      2 <= a /\ well_formed q = true /\ levels_are q [] = true
      /\ size q = 0%Z /\ empty q = true
      /\ avail (mem q) = a - 2 /\ domain_ q = d
  | BadAlloc q0 =>
      a < 2 /\ avail (mem q0) = 0
      /\ cells (mem q0) = None :: replicate a (Some (sentinel MaxLevel))
  | _ => False
  end.
Proof.
  destruct a as [|[|a]].
  - cbn. repeat split; lia.
  - cbn. repeat split; lia.
  - rewrite construct_fresh. split; [lia|]. split; [apply fresh_well_formed|].
    repeat split. cbn [avail mem fresh]. lia.
Qed.

Lemma deref_delete q p x : x <> p -> deref (delete q p) x = deref q x.
Proof.
  intros Hx. unfold deref, delete, release. destruct (x =? nullptr); [reflexivity|].
  destruct (p =? nullptr); cbn [mem with_mem cells]; [reflexivity|].
  rewrite list_lookup_insert_ne by congruence. reflexivity.
Qed.

Lemma deref_deletes ps : forall q x,
  x ∉ ps -> deref (fold_left delete ps q) x = deref q x.
Proof.
  induction ps as [|p ps IH]; intros q x Hx; [reflexivity|]. cbn [fold_left].
  rewrite IH by (intros H; apply Hx; now apply list_elem_of_further).
  apply deref_delete. intros ->. apply Hx, list_elem_of_here.
Qed.

Lemma frame_deletes ps : forall q,
  head_ (fold_left delete ps q) = head_ q
  /\ tail_ (fold_left delete ps q) = tail_ q
  /\ count_ (fold_left delete ps q) = count_ q
  /\ domain_ (fold_left delete ps q) = domain_ q.
Proof.
  induction ps as [|p ps IH]; intros q; [repeat split|]. cbn [fold_left].
  destruct (IH (delete q p)) as (-> & -> & -> & ->). repeat split.
Qed.

(** What a run of [delete]s leaves of the store. *)
Lemma cells_deletes ps : forall q,
  Forall (fun p => p <> nullptr /\ p < length (cells (mem q))) ps ->
  let q' := fold_left delete ps q in
  length (cells (mem q')) = length (cells (mem q))
  /\ avail (mem q') = avail (mem q) + length ps
  /\ (forall x, x ∈ ps -> cells (mem q') !! x = Some None)
  /\ (forall x, x ∉ ps -> cells (mem q') !! x = cells (mem q) !! x).
Proof.
  induction ps as [|p ps IH]; intros q Hps q'; subst q'.
  - cbn [fold_left length]. split; [reflexivity|]. split; [lia|]. split.
    + intros x Hx. now apply elem_of_nil in Hx.
    + reflexivity.
  - apply Forall_cons in Hps as ((Hp & Hlt) & Hps). cbn [fold_left].
    assert (cells (mem (delete q p)) = <[p := None]> (cells (mem q))
            /\ avail (mem (delete q p)) = S (avail (mem q))) as (Ec & Ea).
    { unfold delete, release. destruct (Nat.eqb_spec p nullptr); [contradiction|].
      split; reflexivity. }
    destruct (IH (delete q p)) as (Hl & Hav & Hin & Hout).
    { rewrite Ec, length_insert. exact Hps. }
    rewrite Ec, length_insert in Hl. rewrite Ea in Hav.
    split; [exact Hl|]. split; [cbn [length]; lia|]. split.
    + intros x Hx. destruct (decide (x ∈ ps)) as [Hx'|Hx']; [now apply Hin|].
      apply elem_of_cons in Hx as [->|Hx]; [|contradiction].
      rewrite Hout, Ec by exact Hx'. now apply list_lookup_insert_eq.
    + intros x Hx. rewrite Hout, Ec.
      * apply list_lookup_insert_ne. intros ->. apply Hx, list_elem_of_here.
      * intros H. apply Hx. now apply list_elem_of_further.
Qed.

(** The loop of the destructor on a bottom level that leads to the tail. *)
Lemma destroy_loop_chain : forall xs q p fuel,
  chain q 0 p xs -> length xs + 2 <= fuel ->
  destroy_loop fuel q p = Ok (fold_left delete (p :: xs) q).
Proof.
  induction xs as [|x xs IH]; intros q p fuel Hc Hf;
    (destruct fuel as [|fuel]; [lia|]); cbn [destroy_loop].
  - cbn [chain] in Hc. unfold succ_of in Hc.
    destruct (deref q p) as [n| | | |] eqn:En; try discriminate Hc.
    destruct (deref_lt _ _ _ En) as (Hp & _).
    destruct (Nat.eqb_spec p nullptr); [contradiction|]. cbn [bind].
    inversion Hc as [E]. rewrite E, Nat.eqb_refl.
    destruct fuel as [|fuel]; [cbn [length] in Hf; lia|]. reflexivity.
  - pose proof (chain_NoDup _ _ _ _ Hc) as Hnd.
    cbn [chain] in Hc. destruct Hc as (Hs & Hx & Hc). unfold succ_of in Hs.
    destruct (deref q p) as [n| | | |] eqn:En; try discriminate Hs.
    destruct (deref_lt _ _ _ En) as (Hp & _).
    destruct (Nat.eqb_spec p nullptr); [contradiction|]. cbn [bind].
    inversion Hs as [E]. rewrite E.
    destruct (Nat.eqb_spec x (tail_ q)); [contradiction|].
    rewrite (IH (delete q p) x fuel); [reflexivity| |cbn [length] in Hf; lia].
    apply (chain_ext q); [reflexivity| |exact Hc].
    intros y Hy. unfold succ_of. rewrite deref_delete; [reflexivity|].
    intros ->. apply NoDup_cons in Hnd as (Hnd & _). contradiction.
Qed.

(** The destructor on a store whose bottom level holds [xs]. *)
Lemma destroy_bottom fuel q xs :
  well_formed q = true -> bottom q = Some xs -> length xs + 2 <= fuel ->
  destroy fuel q = Ok (fold_left delete (head_ q :: xs ++ [tail_ q]) q).
Proof.
  intros Hwf Hb Hf. apply level_nodes_chain in Hb.
  unfold destroy. rewrite (destroy_loop_chain xs q (head_ q) fuel Hb Hf).
  cbn [bind]. destruct (frame_deletes (head_ q :: xs) q) as (_ & Et & _).
  rewrite Et. destruct (wf_tail q Hwf) as (t & Etl & _).
  unfold delete_object. destruct (deref_lt _ _ _ Etl) as (Hn & _).
  destruct (Nat.eqb_spec (tail_ q) nullptr); [contradiction|].
  rewrite deref_deletes, Etl.
  - cbn [bind]. change (head_ q :: xs ++ [tail_ q]) with ((head_ q :: xs) ++ [tail_ q]).
    now rewrite fold_left_app.
  - intros H. apply elem_of_cons in H as [H|H].
    + symmetry in H. now apply wf_head_tail in H.
    + now apply chain_not_tail in Hb.
Qed.

(** What the destructor deletes. *)
Lemma destroy_deletes_cells fuel q xs :
  well_formed q = true -> bottom q = Some xs -> length xs + 2 <= fuel ->
  exists q',
    destroy fuel q = Ok q'
    /\ (forall x, x ∈ head_ q :: xs ++ [tail_ q] -> cells (mem q') !! x = Some None)
    /\ (forall x, x ∉ head_ q :: xs ++ [tail_ q] ->
          cells (mem q') !! x = cells (mem q) !! x)
    /\ avail (mem q') = avail (mem q) + length xs + 2
    /\ domain_ q' = domain_ q.
Proof.
  intros Hwf Hb Hf. eexists. split; [exact (destroy_bottom fuel q xs Hwf Hb Hf)|].
  destruct (cells_deletes (head_ q :: xs ++ [tail_ q]) q) as (_ & Hav & Hin & Hout).
  { apply level_nodes_chain in Hb. apply Forall_forall. intros x Hx.
    assert (exists n, deref q x = Ok n) as (n & En).
    { change (head_ q :: xs ++ [tail_ q]) with ((head_ q :: xs) ++ [tail_ q]) in Hx.
      apply elem_of_app in Hx as [Hx|Hx].
      - exact (chain_deref _ _ _ _ _ Hb Hx).
      - apply list_elem_of_singleton in Hx as ->.
        destruct (wf_tail q Hwf) as (t & Et & _). now exists t. }
    exact (deref_lt _ _ _ En). }
  split; [exact Hin|]. split; [exact Hout|]. split.
  - rewrite Hav. cbn [length]. rewrite length_app. cbn [length]. lia.
  - apply frame_deletes.
Qed.

(** X7.  On a well-formed store the destructor returns; it deletes the head,
    the nodes of the bottom level and the tail, each once, and nothing
    else: a node that [pop] unlinked and handed to the domain is not
    deleted, and the domain keeps its record of it. *)
Theorem destroy_deletes_the_bottom_level fuel q xs :
  well_formed q = true -> bottom q = Some xs -> length xs + 2 <= fuel ->
  exists q',
    destroy fuel q = Ok q'
    /\ (forall x, x ∈ head_ q :: xs ++ [tail_ q] -> cells (mem q') !! x = Some None)
    /\ (forall x, x ∉ head_ q :: xs ++ [tail_ q] ->
          cells (mem q') !! x = cells (mem q) !! x)
    /\ avail (mem q') = avail (mem q) + length xs + 2
    /\ domain_ q' = domain_ q.
Proof. exact (destroy_deletes_cells fuel q xs). Qed.

Lemma destroy_deletes_the_bottom_level_witness :
  exists q',
    destroy 4 (two_nodes HazardDomain.init 0) = Ok q'
    /\ cells (mem q') = [None; None; None; None; None]
    /\ avail (mem q') = 4.
Proof.
  destruct (destroy_deletes_the_bottom_level 4 (two_nodes HazardDomain.init 0) [4; 3])
    as (q' & E & _); [reflexivity|reflexivity|cbn [length]; lia|].
  exists q'. split; [exact E|].
  vm_compute in E. inversion E. split; reflexivity.
Defined.

(** X8.  Construction followed by destruction gives every object back to
    the allocator and leaves no object behind. *)
Theorem construct_then_destroy_returns_the_memory d a q fuel :
  construct d a = Ok q ->
  exists q',
    destroy (2 + fuel) q = Ok q'
    /\ avail (mem q') = a
    /\ cells (mem q') = [None; None; None].
Proof.
  intros H. destruct a as [|[|a]]; [discriminate H|discriminate H|].
  rewrite construct_fresh in H. inversion H; subst q.
  rewrite (destroy_bottom (2 + fuel) (fresh d a) []);
    [|apply fresh_well_formed|reflexivity|cbn [length]; lia].
  eexists. split; [reflexivity|]. split; reflexivity.
Qed.

Lemma construct_then_destroy_returns_the_memory_witness :
  exists q',
    destroy 2 (fresh HazardDomain.init 0) = Ok q'
    /\ avail (mem q') = 2
    /\ cells (mem q') = [None; None; None].
Proof.
  apply (construct_then_destroy_returns_the_memory
           HazardDomain.init 2 (fresh HazardDomain.init 0) 0).
  reflexivity.
Defined.

(* ------------------------------------------------------------------------- *)
(** ** Where [findNode] stops and where [push] inserts *)
(* ------------------------------------------------------------------------- *)

Lemma sorted_after (f : addr -> Z) : forall X c Y a,
  Sorted Z.le (map f (X ++ c :: Y)) -> a ∈ Y -> (f c <= f a)%Z.
Proof.
  intros X c Y a Hs Ha. apply Sorted_StronglySorted in Hs.
  2:{ intros x y z. apply Z.le_trans. }
  induction X as [|x X IH]; cbn [app map] in Hs;
    apply StronglySorted_inv in Hs as [Hs Hall].
  - rewrite Forall_forall in Hall. apply Hall.
    apply list_elem_of_In, in_map, list_elem_of_In. exact Ha.
  - now apply IH.
Qed.

Lemma last_elem {A} (xs : list A) (d : A) : xs <> [] -> List.last xs d ∈ xs.
Proof.
  destruct xs as [|x xs]; [congruence|]. intros _. rewrite last_cons.
  destruct (last_in xs x) as [E|E].
  - rewrite E. apply list_elem_of_here.
  - now apply list_elem_of_further.
Qed.

(** In an ordered list, every entry in front of [c] is below [key] as soon
    as the last of them is. *)
Lemma sorted_front_below (f : addr -> Z) (h : addr) (key : Z) A c B :
  Sorted Z.le (map f (A ++ c :: B)) ->
  (A = [] \/ (f (List.last A h) < key)%Z) ->
  Forall (fun x => (f x < key)%Z) A.
Proof.
  intros Hs Hl. destruct (decide (A = [])) as [->|Hne]; [constructor|].
  destruct Hl as [Hl|Hl]; [contradiction|].
  destruct (exists_last Hne) as (X & p & ->).
  rewrite last_last in Hl. rewrite <- app_assoc in Hs. cbn [app] in Hs.
  apply Forall_forall. intros a Ha. apply elem_of_app in Ha as [Ha|Ha].
  - pose proof (sorted_before f X p (c :: B) a Hs Ha). lia.
  - apply list_elem_of_singleton in Ha as ->. exact Hl.
Qed.

(** The splice point of an ordered level: the nodes in front of it have
    keys below [key], the nodes from it on do not. *)
Lemma splice_split q l key p c :
  levels_ordered q -> l <= MaxLevel -> splice_at q l key p c ->
  exists A B,
    level_nodes q l = Some (A ++ c :: B)
    /\ p = List.last A (head_ q)
    /\ Forall (fun x => (value_at q x < key)%Z) A
    /\ Forall (fun x => (key <= value_at q x)%Z) (c :: B).
Proof.
  intros Hord Hl (A & B & EL & Ep & Hp & Hc). exists A, B.
  split; [exact EL|]. split; [exact Ep|].
  pose proof (Hord l _ Hl EL) as Hs.
  pose proof (chain_NoDup _ _ _ _ (level_nodes_chain _ _ _ EL)) as Hnd.
  split.
  - apply (sorted_front_below (value_at q) (head_ q) key A c B Hs).
    destruct (decide (A = [])) as [->|Hne]; [now left|right].
    rewrite <- Ep. destruct Hp as [Hp|Hp]; [|exact Hp].
    exfalso. apply NoDup_cons in Hnd as [Hnd _]. apply Hnd.
    rewrite <- Hp, Ep. apply elem_of_app. left. now apply last_elem.
  - apply Forall_cons. split; [exact Hc|]. apply Forall_forall. intros y Hy.
    pose proof (sorted_after (value_at q) A c B y Hs Hy). lia.
Qed.

(** The flag [findNode] returns. *)
Lemma findNode_flag fuel q key ps ss q1 b p1 s1 :
  findNode fuel q key ps ss = Ok (q1, b, p1, s1) ->
  at_level s1 0 <> tail_ q1 ->
  b = (value_at q1 (at_level s1 0) =? key)%Z.
Proof.
  unfold findNode. intros H Hn. bind_inv H. destruct a as [[q2 p2] s2].
  destruct (Nat.eqb_spec (at_level s2 0) (tail_ q2)).
  - inversion H; subst. contradiction.
  - bind_inv H. inversion H; subst. unfold value_at. now rewrite E0.
Qed.

Lemma splice_not_tail q l key p c : splice_at q l key p c -> c <> tail_ q.
Proof.
  intros (A & B & EL & _) E. apply level_nodes_chain, chain_not_tail in EL.
  apply EL. rewrite <- E. apply elem_of_app. right. apply list_elem_of_here.
Qed.

(** X9.  On a well-formed store with ordered levels that holds a node of
    full height whose key is not below [key], [findNode] returns and leaves
    the store as it is; on every level [succs] is the first node whose key
    is not below [key] and [preds] the node in front of it; the flag tells
    whether [key] is among the keys of the bottom level. *)
Theorem findNode_locates_the_key fuel q key :
  well_formed q = true -> levels_ordered q -> has_stopper q key ->
  length (cells (mem q)) + 2 <= fuel ->
  exists b preds succs,
    findNode fuel q key no_nodes no_nodes = Ok (q, b, preds, succs)
    /\ (forall l, l <= MaxLevel ->
          exists A B,
            level_nodes q l = Some (A ++ at_level succs l :: B)
            /\ at_level preds l = List.last A (head_ q)
            /\ Forall (fun x => (value_at q x < key)%Z) A
            /\ Forall (fun x => (key <= value_at q x)%Z) (at_level succs l :: B))
    /\ (b = true <-> exists vs, bottom_values q = Some vs /\ key ∈ vs).
Proof.
  intros Hwf Hord Hst Hf.
  destruct (findNode_returns fuel q key Hwf Hord Hst Hf) as (b & preds & succs & E).
  exists b, preds, succs. split; [exact E|].
  pose proof E as Hsp.
  apply findNode_spec in Hsp; [|exact Hwf|reflexivity|reflexivity].
  destruct Hsp as (_ & _ & _ & Hsp).
  split.
  - intros l Hl. exact (splice_split q l key _ _ Hord Hl (Hsp l Hl)).
  - rewrite (findNode_flag _ _ _ _ _ _ _ _ _ E)
      by (eapply splice_not_tail, (Hsp 0); lia).
    destruct (splice_split q 0 key _ _ Hord (Nat.le_0_l _) (Hsp 0 (Nat.le_0_l _)))
      as (A & B & EL & _ & HA & HB).
    pose proof (Hord 0 _ (Nat.le_0_l _) EL) as Hs.
    unfold bottom_values, bottom. rewrite EL. cbn [option_map].
    rewrite Z.eqb_eq. split.
    + intros Ev. eexists. split; [reflexivity|]. rewrite <- Ev.
      apply list_elem_of_In, in_map, list_elem_of_In, elem_of_app. right.
      apply list_elem_of_here.
    + intros (vs & Evs & Hin). inversion Evs; subst vs. clear Evs.
      apply list_elem_of_In, in_map_iff in Hin as (y & Ey & Hy).
      apply list_elem_of_In, elem_of_app in Hy as [Hy|Hy].
      * rewrite Forall_forall in HA. specialize (HA y Hy). lia.
      * apply Forall_cons in HB as (Hc & _).
        apply elem_of_cons in Hy as [->|Hy]; [exact Ey|].
        pose proof (sorted_after (value_at q) A _ B y Hs Hy). lia.
Qed.

(** The example stores have ordered levels and a node of full height with
    key [10]. *)
Lemma one_tall_ordered d a : levels_ordered (one_tall d a).
Proof.
  intros l L Hl EL. assert (L = [3]) as ->.
  { do 17 (destruct l as [|l]; [vm_compute in EL; now inversion EL|]).
    unfold MaxLevel in Hl. lia. }
  change (Sorted Z.le [10]%Z). repeat constructor.
Qed.

Lemma two_nodes_ordered d a : levels_ordered (two_nodes d a).
Proof.
  intros l L Hl EL. assert (L = if l <=? 1 then [4; 3] else [3]) as ->.
  { do 17 (destruct l as [|l]; [vm_compute in EL; now inversion EL|]).
    unfold MaxLevel in Hl. lia. }
  destruct (l <=? 1);
    [change (Sorted Z.le [5; 10]%Z)|change (Sorted Z.le [10]%Z)];
    repeat (constructor; try lia).
Qed.

Lemma one_tall_stopper d a key : (key <= 10)%Z -> has_stopper (one_tall d a) key.
Proof.
  intros Hk. exists 3, [3]. split; [reflexivity|].
  split; [apply list_elem_of_here|exact Hk].
Qed.

Lemma two_nodes_stopper d a key : (key <= 10)%Z -> has_stopper (two_nodes d a) key.
Proof.
  intros Hk. exists 3, [3]. split; [reflexivity|].
  split; [apply list_elem_of_here|exact Hk].
Qed.

Lemma findNode_locates_the_key_witness :
  exists b preds succs,
    findNode 7 (two_nodes HazardDomain.init 0) 5 no_nodes no_nodes
    = Ok (two_nodes HazardDomain.init 0, b, preds, succs)
    /\ (b = true <-> exists vs, bottom_values (two_nodes HazardDomain.init 0) = Some vs
                                /\ 5%Z ∈ vs).
Proof.
  destruct (findNode_locates_the_key 7 (two_nodes HazardDomain.init 0) 5)
    as (b & preds & succs & E & _ & Hb).
  - reflexivity.
  - apply two_nodes_ordered.
  - apply two_nodes_stopper. lia.
  - cbn [two_nodes cells mem length]. lia.
  - exists b, preds, succs. split; [exact E|exact Hb].
Defined.

(** The keys of the bottom level before and after a completed [push]. *)
Lemma push_bottom_values fuel q item coin q' :
  well_formed q = true -> levels_ordered q ->
  push fuel q item coin = Ok q' ->
  exists A B,
    bottom_values q = Some (A ++ B)
    /\ bottom_values q' = Some (A ++ item :: B)
    /\ Forall (fun v => (v < item)%Z) A
    /\ Forall (fun v => (item <= v)%Z) B.
Proof.
  intros Hwf Hord H. apply noexcept_Ok in H.
  assert (randomLevel coin <= MaxLevel) as Hk by (apply randomLevel_loop_le, Nat.le_0_l).
  apply push_loop_spec in H; [|exact Hwf|exact Hk].
  destruct H as (preds & succs & Hsp & Hp).
  destruct (pushed_levels _ _ _ _ _ _ _ Hwf Hsp Hp 0 (Nat.le_0_l _)) as
    (A & c & B & EL & Ep & Ec & Hv & Hc & EL').
  cbn [Nat.leb] in EL'.
  destruct (splice_split q 0 item _ _ Hord (Nat.le_0_l _) (Hsp 0 (Nat.le_0_l _)))
    as (A0 & B0 & EL0 & _ & HA & HB).
  rewrite Ec, EL in EL0. inversion EL0 as [E0].
  pose proof (level_nodes_chain _ _ _ EL) as Hchain.
  pose proof (chain_NoDup _ _ _ _ Hchain) as Hnd.
  assert (A0 = A /\ B0 = B) as (-> & ->).
  { apply NoDup_cons in Hnd as [_ Hnd].
    assert (c ∉ A) as HcA.
    { intros Hin. apply NoDup_app in Hnd as (_ & Hd & _). apply (Hd c Hin).
      apply list_elem_of_here. }
    assert (c ∉ A0) as HcA0.
    { intros Hin. rewrite E0 in Hnd. apply NoDup_app in Hnd as (_ & Hd & _).
      apply (Hd c Hin). apply list_elem_of_here. }
    clear -E0 HcA HcA0. revert A0 E0 HcA0.
    induction A as [|a A IH]; intros [|a0 A0] E0 HcA0; cbn [app] in E0.
    - inversion E0. now split.
    - inversion E0; subst. exfalso. apply HcA0, list_elem_of_here.
    - inversion E0; subst. exfalso. apply HcA, list_elem_of_here.
    - inversion E0; subst.
      destruct (IH (fun H => HcA (list_elem_of_further _ _ _ H)) A0 H1
                  (fun H => HcA0 (list_elem_of_further _ _ _ H))) as (-> & ->).
      now split. }
  clear EL0 E0.
  destruct Hp as (_ & _ & _ & _ & Hold & (nd & End & Hnv & _) & _).
  assert (forall x, x ∈ A ++ c :: B -> value_at q' x = value_at q x) as Hsame.
  { intros x Hx.
    destruct (chain_deref _ _ _ _ x Hchain (list_elem_of_further _ _ _ Hx)) as (n & En).
    destruct (Hold x n En) as (n' & En' & F & _).
    eapply value_at_same; eauto. }
  exists (map (value_at q) A), (map (value_at q) (c :: B)).
  unfold bottom_values, bottom. rewrite EL, EL'. cbn [option_map].
  split; [now rewrite map_app|]. split.
  - f_equal. rewrite map_app. cbn [map]. f_equal.
    + apply map_ext_in. intros x Hx. apply Hsame, elem_of_app. left.
      now apply list_elem_of_In.
    + f_equal; [unfold value_at; now rewrite End|].
      change (map (value_at q') (c :: B) = map (value_at q) (c :: B)).
      apply map_ext_in. intros x Hx. apply Hsame, elem_of_app. right.
      now apply list_elem_of_In.
  - split; apply Forall_forall; intros v Hin;
      apply list_elem_of_In, in_map_iff in Hin as (x & <- & Hx);
      apply list_elem_of_In in Hx.
    + rewrite Forall_forall in HA. now apply HA.
    + rewrite Ec, Forall_forall in HB. now apply HB.
Qed.

(** X10.  A completed [push] on a well-formed store with ordered levels puts
    the key on the bottom level behind every smaller key and in front of
    every key that is not smaller, so in front of the keys equal to it; the
    other keys stay where they are. *)
Theorem push_inserts_in_key_order fuel q item coin q' :
  well_formed q = true -> levels_ordered q ->
  push fuel q item coin = Ok q' ->
  exists A B,
    bottom_values q = Some (A ++ B)
    /\ bottom_values q' = Some (A ++ item :: B)
    /\ Forall (fun v => (v < item)%Z) A
    /\ Forall (fun v => (item <= v)%Z) B.
Proof. exact (push_bottom_values fuel q item coin q'). Qed.

Lemma push_inserts_in_key_order_witness :
  exists A B,
    bottom_values (one_tall HazardDomain.init 1) = Some (A ++ B)
    /\ bottom_values (two_nodes HazardDomain.init 0) = Some (A ++ 5%Z :: B)
    /\ Forall (fun v => (v < 5)%Z) A
    /\ Forall (fun v => (5 <= v)%Z) B.
Proof.
  apply (push_inserts_in_key_order 3 (one_tall HazardDomain.init 1) 5 once).
  - reflexivity.
  - apply one_tall_ordered.
  - reflexivity.
Defined.

(** X11.  On a well-formed store with ordered levels [push] returns exactly
    when some node of full height has a key that is not below the item;
    without such a node the traversal walks past the tail sentinel and reads
    through [nullptr]. *)
Theorem push_returns_iff_a_full_height_key_stops_it q item coin fuel :
  well_formed q = true -> levels_ordered q -> avail (mem q) <> 0 ->
  let result := push (length (cells (mem q)) + 3 + fuel) q item coin in
  (has_stopper q item -> exists q', result = Ok q')
  /\ (~ has_stopper q item -> result = Fault NullDeref).
Proof.
  intros Hwf Hord Hav result. subst result. split.
  - intros Hst. apply push_returns; try assumption. lia.
  - intros Hno. apply push_faults_without_stopper; [exact Hwf|].
    intros L T EL HT. destruct (Z.lt_ge_cases (value_at q T) item) as [Hlt|Hge];
      [exact Hlt|].
    exfalso. apply Hno. exists T, L. split; [exact EL|]. split; [exact HT|lia].
Qed.

Lemma push_returns_iff_a_full_height_key_stops_it_witness :
  (exists q', push (4 + 3 + 0) (one_tall HazardDomain.init 1) 5 tails = Ok q')
  /\ push (4 + 3 + 0) (one_tall HazardDomain.init 1) 11 tails = Fault NullDeref.
Proof.
  split.
  - apply (push_returns_iff_a_full_height_key_stops_it
             (one_tall HazardDomain.init 1) 5 tails 0).
    + reflexivity.
    + apply one_tall_ordered.
    + cbn [one_tall mem avail]. lia.
    + apply one_tall_stopper. lia.
  - apply (push_returns_iff_a_full_height_key_stops_it
             (one_tall HazardDomain.init 1) 11 tails 0).
    + reflexivity.
    + apply one_tall_ordered.
    + cbn [one_tall mem avail]. lia.
    + intros (T & L & EL & HT & Hle). vm_compute in EL. inversion EL; subst L.
      apply list_elem_of_singleton in HT. subst T. vm_compute in Hle.
      now apply Hle.
Defined.

(* ------------------------------------------------------------------------- *)
(** ** Runs of pushes, and looking a pushed key up *)
(* ------------------------------------------------------------------------- *)

Lemma cells_length_update q p f :
  length (cells (mem (update q p f))) = length (cells (mem q)).
Proof.
  unfold update. cbn [mem with_mem cells].
  destruct (cells (mem q) !! p) as [[n|]|]; [apply length_insert|reflexivity..].
Qed.

Lemma cells_length_apply_stores sts : forall q,
  length (cells (mem (apply_stores q sts))) = length (cells (mem q)).
Proof.
  unfold apply_stores. induction sts as [|st sts IH]; intros q; [reflexivity|].
  cbn [fold_left]. rewrite IH. apply cells_length_update.
Qed.

(** A completed [push] on a well-formed store takes one object from the
    allocator and keeps it. *)
Lemma push_alloc fuel q item coin q' :
  well_formed q = true -> push fuel q item coin = Ok q' ->
  length (cells (mem q')) = S (length (cells (mem q)))
  /\ avail (mem q) = S (avail (mem q')).
Proof.
  intros Hwf H. apply noexcept_Ok in H.
  destruct fuel as [|fuel]; [discriminate H|].
  rewrite push_loop_unfold in H. bind_inv H. destruct a as [[[q1 b] preds] succs].
  apply findNode_spec in E; [|exact Hwf|reflexivity|reflexivity].
  destruct E as (-> & Hlp & Hls & Hsp).
  bind_inv H. destruct a as [q2 newNode].
  rewrite init_fold in H.
  assert (forall l, l <= MaxLevel ->
            exists n, deref q (at_level preds l) = Ok n
                      /\ next_at n l = at_level succs l) as Hcas.
  { intros l Hl. eapply splice_cas, Hsp, Hl. }
  destruct (new_node_obs _ _ _ _ E) as (-> & Hh2 & Ht2 & Hc2 & Hold2 & Hnew2).
  assert (randomLevel coin <= MaxLevel) as Hk by (apply randomLevel_loop_le, Nat.le_0_l).
  set (k := randomLevel coin) in *.
  set (newNode := length (cells (mem q))) in *.
  assert (forall l n, deref q (at_level preds l) = Ok n -> at_level preds l <> newNode)
    as Hfresh.
  { intros l n En. apply deref_lt in En. unfold newNode. lia. }
  set (q3 := apply_stores q2 (init_stores newNode succs k)) in *.
  assert (forall l, l <= MaxLevel ->
            exists n, deref q3 (at_level preds l) = Ok n
                      /\ next_at n l = at_level succs l) as Hcas3.
  { intros l Hl. destruct (Hcas l Hl) as (n & En & Enext).
    destruct (apply_stores_obs (init_stores newNode succs k) q2 _ n (Hold2 _ _ En))
      as (n' & En' & F & N).
    exists n'. split; [exact En'|]. rewrite N.
    - rewrite final_init. destruct (Nat.eqb_spec newNode (at_level preds l)) as [E1|_].
      + exfalso. apply (Hfresh l n En). now symmetry.
      + exact Enext.
    - rewrite (wf_sound q _ n Hwf En). lia. }
  bind_inv H. rename a into p0.
  destruct (Hcas3 0) as (p0' & Ep0 & Enext0); [lia|].
  assert (p0' = p0) by congruence. subst p0'.
  rewrite Enext0, Nat.eqb_refl in H.
  bind_inv H. rename a into q5.
  apply link_levels_spec in E1.
  2:{ intros l Hl. destruct (Hcas3 l) as (n & En & Enext); [lia|].
      destruct (store_next_obs q3 (at_level preds 0) 0 newNode _ _ En)
        as (n' & En' & F & N).
      exists n'. split; [exact En'|].
      destruct (Nat.lt_ge_cases l (length (next n))) as [Hlt|Hge].
      - rewrite N by exact Hlt. destruct (Nat.eqb_spec 0 l); [lia|].
        now rewrite andb_false_r.
      - unfold next_at in *. destruct F as (_ & _ & _ & _ & F).
        rewrite nth_overflow in * by lia. exact Enext. }
  inversion H; subst q'. clear H.
  assert (frame q5 = frame q2) as Hfr.
  { rewrite E1, apply_stores_frame, frame_store_next. unfold q3.
    apply apply_stores_frame. }
  apply frame_avail in Hfr.
  assert (length (cells (mem q5)) = length (cells (mem q2))) as Hl5.
  { rewrite E1, cells_length_apply_stores. unfold store_next.
    rewrite cells_length_update. unfold q3. apply cells_length_apply_stores. }
  unfold new_node in E. destruct (avail (mem q)) as [|a0] eqn:Ea; [discriminate E|].
  inversion E; subst q2. cbn [mem with_mem cells avail] in Hfr, Hl5.
  rewrite length_app in Hl5. cbn [length] in Hl5. split.
  - transitivity (length (cells (mem q5))); [|lia].
    exact (cells_length_update q5 newNode _).
  - change (S a0 = S (avail (mem q5))). now rewrite Hfr.
Qed.

(** X22.  On a well-formed store the compare-exchange of the bottom level
    never fails for a single thread, so a completed [push] takes exactly one
    object from the allocator, keeps it, and deletes nothing. *)
Theorem push_allocates_exactly_one_node fuel q item coin q' :
  well_formed q = true -> push fuel q item coin = Ok q' ->
  length (cells (mem q')) = S (length (cells (mem q)))
  /\ avail (mem q) = S (avail (mem q'))
  /\ forall x n, deref q x = Ok n -> exists n', deref q' x = Ok n'.
Proof.
  intros Hwf H. destruct (push_alloc fuel q item coin q' Hwf H) as (Hl & Ha).
  split; [exact Hl|]. split; [exact Ha|].
  apply noexcept_Ok in H.
  assert (randomLevel coin <= MaxLevel) as Hk by (apply randomLevel_loop_le, Nat.le_0_l).
  apply push_loop_spec in H; [|exact Hwf|exact Hk].
  destruct H as (preds & succs & _ & (_ & _ & _ & _ & Hold & _)).
  intros x n En. destruct (Hold x n En) as (n' & En' & _). now exists n'.
Qed.

Lemma push_allocates_exactly_one_node_witness :
  length (cells (mem (two_nodes HazardDomain.init 0)))
  = S (length (cells (mem (one_tall HazardDomain.init 1))))
  /\ avail (mem (one_tall HazardDomain.init 1))
     = S (avail (mem (two_nodes HazardDomain.init 0))).
Proof.
  destruct (push_allocates_exactly_one_node
              3 (one_tall HazardDomain.init 1) 5 once (two_nodes HazardDomain.init 0))
    as (Hl & Ha & _); [reflexivity|reflexivity|].
  split; [exact Hl|exact Ha].
Defined.

(** The keys of the bottom level are in order. *)
Lemma bottom_values_sorted q vs :
  levels_ordered q -> bottom_values q = Some vs -> Sorted Z.le vs.
Proof.
  intros Hord H. unfold bottom_values, bottom in H.
  destruct (level_nodes q 0) as [L|] eqn:EL; [|discriminate H].
  inversion H; subst vs. exact (Hord 0 L (Nat.le_0_l _) EL).
Qed.

Lemma stopper_below q bound key :
  has_stopper q bound -> (key <= bound)%Z -> has_stopper q key.
Proof.
  intros (T & L & EL & HT & Hle) Hk. exists T, L.
  split; [exact EL|]. split; [exact HT|lia].
Qed.

(** X12.  Pushes of keys that a node of full height bounds all return, as
    long as the allocator can provide a node for each; afterwards the store
    is well formed and the bottom level holds, in order, the keys it held
    before together with the pushed ones. *)
Theorem pushes_below_a_full_height_key_build_a_sorted_level
    fuel (items : list (Z * (nat -> bool))) : forall q bound vs,
  well_formed q = true -> levels_ordered q -> has_stopper q bound ->
  Forall (fun ic => (ic.1 <= bound)%Z) items ->
  length items <= avail (mem q) ->
  length (cells (mem q)) + length items + 3 <= fuel ->
  bottom_values q = Some vs ->
  exists q' vs',
    run fuel q (push_all items) = Ok (q', [])
    /\ well_formed q' = true /\ levels_ordered q'
    /\ bottom_values q' = Some vs'
    /\ Permutation (keys items ++ vs) vs'
    /\ Sorted Z.le vs'.
Proof.
  induction items as [|[item coin] items IH];
    intros q bound vs Hwf Hord Hst Hle Hav Hf Hvs.
  - exists q, vs. split; [reflexivity|]. split; [exact Hwf|]. split; [exact Hord|].
    split; [exact Hvs|]. split; [reflexivity|].
    exact (bottom_values_sorted q vs Hord Hvs).
  - apply Forall_cons in Hle as (Hi & Hle). cbn [fst] in Hi.
    cbn [length] in Hav, Hf.
    destruct (push_returns fuel q item coin Hwf Hord) as (q1 & E1);
      [exact (stopper_below q bound item Hst Hi)|lia|lia|].
    destruct (push_invariant fuel q item coin q1 bound Hwf Hord Hst E1)
      as (Hwf1 & Hord1 & Hst1).
    destruct (push_alloc fuel q item coin q1 Hwf E1) as (Hlen1 & Hav1).
    destruct (push_bottom_values fuel q item coin q1 Hwf Hord E1)
      as (A & B & EA & EB & _ & _).
    rewrite Hvs in EA. inversion EA; subst vs.
    destruct (IH q1 bound (A ++ item :: B) Hwf1 Hord1 Hst1 Hle) as
      (q' & vs' & Erun & Hwf' & Hord' & Evs' & Hperm & Hs'); [lia|lia|exact EB|].
    exists q', vs'. split.
    { cbn [push_all map run fst snd]. rewrite E1. cbn [bind]. exact Erun. }
    split; [exact Hwf'|]. split; [exact Hord'|]. split; [exact Evs'|].
    split; [|exact Hs'].
    etransitivity; [|exact Hperm]. unfold keys. cbn [map fst app].
    etransitivity; [apply Permutation_middle|].
    apply Permutation_app_head, Permutation_middle.
Qed.

Lemma pushes_below_a_full_height_key_build_a_sorted_level_witness :
  exists q' vs',
    run 10 (one_tall HazardDomain.init 3) (push_all [(7, once); (2, tails); (7, heads)]%Z)
    = Ok (q', [])
    /\ well_formed q' = true /\ levels_ordered q'
    /\ bottom_values q' = Some vs'
    /\ Permutation ([7; 2; 7] ++ [10])%Z vs'
    /\ Sorted Z.le vs'.
Proof.
  apply (pushes_below_a_full_height_key_build_a_sorted_level
           10 [(7, once); (2, tails); (7, heads)]%Z (one_tall HazardDomain.init 3) 10%Z).
  - reflexivity.
  - apply one_tall_ordered.
  - apply one_tall_stopper. lia.
  - repeat constructor; cbn [fst]; lia.
  - cbn [length one_tall mem avail]. lia.
  - cbn [length one_tall mem cells]. lia.
  - reflexivity.
Defined.

(** In a list cut twice at the first entry that fails [P], the two cuts are
    the same. *)
Lemma first_cut_unique {A} (P : A -> Prop) : forall X x Y X' x' Y',
  X ++ x :: Y = X' ++ x' :: Y' ->
  Forall P X -> ~ P x -> Forall P X' -> ~ P x' ->
  X = X' /\ x = x' /\ Y = Y'.
Proof.
  induction X as [|a X IH]; intros x Y [|a' X'] x' Y' E HX Hx HX' Hx';
    cbn [app] in E; inversion E; subst.
  - now repeat split.
  - apply Forall_cons in HX' as (Ha & _). contradiction.
  - apply Forall_cons in HX as (Ha & _). contradiction.
  - apply Forall_cons in HX as (_ & HX). apply Forall_cons in HX' as (_ & HX').
    destruct (IH _ _ _ _ _ H1 HX Hx HX' Hx') as (-> & -> & ->). now repeat split.
Qed.

(** X13.  A key that was pushed is found: on the store a completed [push]
    leaves, [findNode] for the pushed key returns [true], and the node it
    stops at on the bottom level is the node the [push] allocated, also
    when equal keys were there before. *)
Theorem pushed_key_is_found fuel q item coin q' fuel' :
  well_formed q = true -> levels_ordered q ->
  push fuel q item coin = Ok q' ->
  length (cells (mem q')) + 2 <= fuel' ->
  exists preds succs,
    findNode fuel' q' item no_nodes no_nodes = Ok (q', true, preds, succs)
    /\ at_level succs 0 = length (cells (mem q)).
Proof.
  intros Hwf Hord H Hf. pose proof H as H0. apply noexcept_Ok in H0.
  assert (randomLevel coin <= MaxLevel) as Hk by (apply randomLevel_loop_le, Nat.le_0_l).
  apply push_loop_spec in H0; [|exact Hwf|exact Hk].
  destruct H0 as (preds0 & succs0 & Hsp & Hp).
  assert (has_stopper q item) as Hst.
  { destruct (Hsp MaxLevel (Nat.le_refl _)) as (A & B & EL & _ & _ & Hc).
    eexists _, _. split; [exact EL|]. split; [|exact Hc].
    apply elem_of_app. right. apply list_elem_of_here. }
  destruct (push_invariant fuel q item coin q' item Hwf Hord Hst H)
    as (Hwf' & Hord' & Hst').
  destruct (findNode_returns fuel' q' item Hwf' Hord' Hst' Hf) as (b & preds & succs & E).
  pose proof E as Hsp'.
  apply findNode_spec in Hsp'; [|exact Hwf'|reflexivity|reflexivity].
  destruct Hsp' as (_ & _ & _ & Hsp').
  destruct (splice_split q' 0 item _ _ Hord' (Nat.le_0_l _) (Hsp' 0 (Nat.le_0_l _)))
    as (A' & B' & EL' & _ & HA' & HB').
  destruct (pushed_levels _ _ _ _ _ _ _ Hwf Hsp Hp 0 (Nat.le_0_l _)) as
    (A & c & B & EL & Ep & Ec & Hv & Hc & EL2).
  cbn [Nat.leb] in EL2.
  destruct (splice_split q 0 item _ _ Hord (Nat.le_0_l _) (Hsp 0 (Nat.le_0_l _)))
    as (A0 & B0 & EL0 & _ & HA0 & _).
  pose proof (level_nodes_chain _ _ _ EL) as Hchain.
  destruct Hp as (_ & _ & _ & _ & Hold & (nd & End & Hnv & _) & _).
  assert (value_at q' (length (cells (mem q))) = item) as Evn
    by (unfold value_at; now rewrite End).
  (* the nodes in front of the new node have smaller keys, also afterwards *)
  assert (Forall (fun x => (value_at q' x < item)%Z) A) as HA.
  { pose proof (Hord 0 _ (Nat.le_0_l _) EL) as Hs.
    assert (Forall (fun x => (value_at q x < item)%Z) A) as HAq.
    { apply (sorted_front_below (value_at q) (head_ q) item A c B Hs).
      destruct (decide (A = [])) as [->|Hne]; [now left|right].
      rewrite <- Ep. destruct Hv as [Hv|Hv]; [|exact Hv].
      exfalso. pose proof (chain_NoDup _ _ _ _ Hchain) as Hnd.
      apply NoDup_cons in Hnd as [Hnd _]. apply Hnd.
      rewrite <- Hv, Ep. apply elem_of_app. left. now apply last_elem. }
    apply Forall_forall. intros x Hx. rewrite Forall_forall in HAq.
    destruct (chain_deref _ _ _ _ x Hchain) as (n & En).
    { apply list_elem_of_further, elem_of_app. now left. }
    destruct (Hold x n En) as (n' & En' & F & _).
    rewrite (value_at_same q q' x n n' En En' F). now apply HAq. }
  rewrite EL2 in EL'. inversion EL' as [Ecut].
  apply Forall_cons in HB' as (Hc' & _).
  destruct (first_cut_unique (fun x => (value_at q' x < item)%Z) _ _ _ _ _ _ Ecut)
    as (_ & Enew & _); [exact HA|lia|exact HA'|lia|].
  exists preds, succs. split; [|now symmetry].
  rewrite E. repeat f_equal.
  rewrite (findNode_flag _ _ _ _ _ _ _ _ _ E)
    by (eapply splice_not_tail, (Hsp' 0); lia).
  rewrite <- Enew, Evn. apply Z.eqb_refl.
Qed.

Lemma pushed_key_is_found_witness :
  exists preds succs,
    findNode 7 (two_nodes HazardDomain.init 0) 5 no_nodes no_nodes
    = Ok (two_nodes HazardDomain.init 0, true, preds, succs)
    /\ at_level succs 0 = 4.
Proof.
  apply (pushed_key_is_found 3 (one_tall HazardDomain.init 1) 5 once
           (two_nodes HazardDomain.init 0) 7).
  - reflexivity.
  - apply one_tall_ordered.
  - reflexivity.
  - cbn [length two_nodes mem cells]. lia.
Defined.

(* ------------------------------------------------------------------------- *)
(** ** What [pop] returns *)
(* ------------------------------------------------------------------------- *)

(** The round of [pop] that returns a value. *)
Lemma pop_loop_hit fuel : forall q q' v,
  pop_loop fuel q = Ok (q', Some v) ->
  exists h n fuel' q2 b preds succs q3 node',
    deref q (head_ q) = Ok h /\ next_at h 0 <> tail_ q
    /\ deref q (next_at h 0) = Ok n
    /\ fullyLinked n = true /\ marked n = false /\ value n = v
    /\ findNode fuel' (store_marked q (next_at h 0) true) v no_nodes no_nodes
       = Ok (q2, b, preds, succs)
    /\ unlink_levels q2 (S (topLevel n)) (next_at h 0) preds = Ok (q3, node')
    /\ exists q4, retire_node q3 node' = Ok q4
                  /\ q' = with_count q4 (wrap (count_ q4 - 1)).
Proof.
  induction fuel as [|fuel IH]; intros q q' v H; [discriminate H|].
  cbn [pop_loop] in H. bind_inv H. rename a into h.
  destruct (Nat.eqb_spec (next_at h 0) (tail_ q)) as [|Hnt]; [discriminate H|].
  bind_inv H. rename a into n.
  destruct (fullyLinked n) eqn:Efl; cbn [negb] in H; [|now apply IH].
  destruct (marked n) eqn:Em; [now apply IH|].
  bind_inv H. destruct a as [[[q2 b] preds] succs].
  bind_inv H. destruct a as [q3 node'].
  bind_inv H. rename a into q4.
  inversion H; subst q' v.
  exists h, n, fuel, q2, b, preds, succs, q3, node'.
  repeat split; try assumption. exists q4. split; [assumption|reflexivity].
Qed.

(** X14.  A [pop] that returns a value on a well-formed store with ordered
    levels returns the key of the first node of the bottom level, which is
    the smallest key of the queue. *)
Theorem pop_returns_the_smallest_key fuel q q' v :
  well_formed q = true -> levels_ordered q ->
  pop fuel q = Ok (q', Some v) ->
  exists vs, bottom_values q = Some (v :: vs) /\ Forall (fun u => (v <= u)%Z) vs.
Proof.
  intros Hwf Hord H. apply noexcept_Ok, pop_loop_hit in H.
  destruct H as (h & n & _ & _ & _ & _ & _ & _ & _ & Eh & Hnt & En & _ & _ & Ev & _).
  destruct (wf_level q 0 Hwf (Nat.le_0_l _)) as (L & EL & Hc & _).
  pose proof (chain_succ_hd _ _ _ _ Hc) as Hs. unfold succ_of in Hs.
  rewrite Eh in Hs. inversion Hs as [E0]. clear Hs.
  destruct L as [|x L]; cbn [hd] in E0; [contradiction|].
  pose proof (Hord 0 _ (Nat.le_0_l _) EL) as Hsorted.
  exists (map (value_at q) L). unfold bottom_values, bottom. rewrite EL.
  cbn [option_map map].
  assert (value_at q x = v) as Evx by (unfold value_at; now rewrite <- E0, En).
  rewrite Evx. split; [reflexivity|].
  apply Forall_forall. intros u Hu.
  apply list_elem_of_In, in_map_iff in Hu as (y & <- & Hy).
  apply list_elem_of_In in Hy.
  pose proof (sorted_after (value_at q) [] x L y Hsorted Hy). lia.
Qed.

Lemma pop_returns_the_smallest_key_witness :
  exists vs, bottom_values (two_nodes HazardDomain.init 1) = Some (5%Z :: vs)
             /\ Forall (fun u => (5 <= u)%Z) vs.
Proof.
  destruct (pop 4 (two_nodes HazardDomain.init 1)) as [[q' [v|]]| | | |] eqn:E;
    try (vm_compute in E; discriminate E).
  assert (v = 5%Z) as -> by (vm_compute in E; now inversion E).
  apply (pop_returns_the_smallest_key 4 (two_nodes HazardDomain.init 1) q' 5).
  - reflexivity.
  - apply two_nodes_ordered.
  - exact E.
Defined.

(* ------------------------------------------------------------------------- *)
(** ** What [pop] hands to the domain *)
(* ------------------------------------------------------------------------- *)

Lemma sound_deref q p n :
  forallb sound_cell (cells (mem q)) = true -> deref q p = Ok n ->
  length (next n) = S MaxLevel.
Proof.
  intros H E. unfold deref in E. destruct (p =? nullptr); [discriminate|].
  destruct (cells (mem q) !! p) as [[m|]|] eqn:Ec; try discriminate.
  inversion E; subst m. rewrite forallb_forall in H.
  apply Nat.eqb_eq. apply (H (Some n)).
  apply list_elem_of_In. eapply list_elem_of_lookup_2, Ec.
Qed.

Lemma sound_store_next q p l v :
  forallb sound_cell (cells (mem q)) = true ->
  forallb sound_cell (cells (mem (store_next q p l v))) = true.
Proof.
  apply sound_update. intros n. cbn [next]. apply length_insert.
Qed.

(** A store to one successor cell, seen through [succ_of]. *)
Lemma succ_of_store q p l v l' x :
  forallb sound_cell (cells (mem q)) = true -> l' <= MaxLevel ->
  succ_of (store_next q p l v) l' x
  = match succ_of q l' x with
    | Some s => Some (if (p =? x) && (l =? l') then v else s)
    | None => None
    end.
Proof.
  intros Hs Hl. unfold succ_of at 2.
  destruct (deref q x) as [n| | | |] eqn:En.
  - destruct (store_next_obs q p l v x n En) as (n' & En' & _ & N).
    unfold succ_of. rewrite En'. f_equal. apply N.
    rewrite (sound_deref q x n Hs En). lia.
  - unfold succ_of, store_next. now rewrite deref_update, En.
  - unfold succ_of, store_next. now rewrite deref_update, En.
  - unfold succ_of, store_next. now rewrite deref_update, En.
  - unfold succ_of, store_next. now rewrite deref_update, En.
Qed.

Lemma node_marked_store_next q p l v x :
  node_marked (store_next q p l v) x = node_marked q x.
Proof.
  unfold node_marked, store_next. rewrite deref_update.
  destruct (deref q x); try reflexivity. now destruct (x =? p).
Qed.

Lemma live_node_marked q x : live q x = true <-> node_marked q x = Some false.
Proof.
  unfold live, node_marked. destruct (deref q x) as [n| | | |]; try easy.
  destruct (marked n); cbn [negb]; split; congruence.
Qed.

Lemma skip_marked_unfold fuel q level pred curr succ :
  skip_marked (S fuel) q level pred curr succ
  = (let* c := deref q curr in
     if marked c then
       let* p := deref q pred in
       if next_at p level =? curr then
         let q' := store_next q pred level succ in
         let* c' := deref q' succ in
         skip_marked fuel q' level pred succ (next_at c' level)
       else
         skip_marked fuel q level pred (next_at p level) succ
     else Ok (q, curr, succ)).
Proof. reflexivity. Qed.

(** The inner loop of the traversal on any store, when it is entered with
    [curr] the successor of [pred]: it leaves with [curr] unmarked and still
    the successor of [pred]; it changes no mark and no other level. *)
Lemma skip_marked_link fuel : forall q l pred curr succ q' c s,
  forallb sound_cell (cells (mem q)) = true -> l <= MaxLevel ->
  succ_of q l pred = Some curr -> succ_of q l curr = Some succ ->
  skip_marked fuel q l pred curr succ = Ok (q', c, s) ->
  forallb sound_cell (cells (mem q')) = true
  /\ succ_of q' l pred = Some c /\ succ_of q' l c = Some s
  /\ live q' c = true
  /\ (forall x, node_marked q' x = node_marked q x)
  /\ (forall x l', l' <> l -> l' <= MaxLevel -> succ_of q' l' x = succ_of q l' x).
Proof.
  induction fuel as [|fuel IH]; intros q l pred curr succ q' c s Hs Hl Hp Hc H;
    [discriminate H|].
  rewrite skip_marked_unfold in H. bind_inv H. rename a into c0.
  destruct (marked c0) eqn:Em.
  - bind_inv H. rename a into p.
    assert (next_at p l = curr) as Enext
      by (unfold succ_of in Hp; rewrite E0 in Hp; now inversion Hp).
    rewrite Enext, Nat.eqb_refl in H. cbn zeta in H.
    bind_inv H. rename a into c'.
    apply IH in H; [|now apply sound_store_next|exact Hl| |].
    + destruct H as (Hs' & Hp' & Hc' & Hlive & Hm & Ho).
      split; [exact Hs'|]. split; [exact Hp'|]. split; [exact Hc'|].
      split; [exact Hlive|]. split.
      * intros x. rewrite Hm. apply node_marked_store_next.
      * intros x l' Hne Hl'. rewrite Ho by assumption.
        rewrite succ_of_store by assumption.
        destruct (Nat.eqb_spec l l') as [->|_]; [contradiction|].
        rewrite andb_false_r. now destruct (succ_of q l' x).
    + rewrite succ_of_store, Hp by assumption. now rewrite !Nat.eqb_refl.
    + unfold succ_of. now rewrite E1.
  - inversion H; subst q' c s.
    split; [exact Hs|]. split; [exact Hp|]. split; [exact Hc|].
    split; [unfold live; now rewrite E, Em|]. split; reflexivity.
Qed.

(** The loop of one level on any store: at the [break] the node it stops at
    is unmarked, is not the tail, and is the successor of the predecessor it
    returns. *)
Lemma find_level_link fuel : forall q key l pred curr q1 p c,
  forallb sound_cell (cells (mem q)) = true -> l <= MaxLevel ->
  succ_of q l pred = Some curr ->
  find_level fuel q key l pred curr = Ok (q1, p, c) ->
  forallb sound_cell (cells (mem q1)) = true
  /\ succ_of q1 l p = Some c /\ live q1 c = true /\ c <> tail_ q1
  /\ (forall x, node_marked q1 x = node_marked q x)
  /\ (forall x l', l' <> l -> l' <= MaxLevel -> succ_of q1 l' x = succ_of q l' x).
Proof.
  induction fuel as [|fuel IH]; intros q key l pred curr q1 p c Hs Hl Hp H;
    [discriminate H|].
  rewrite find_level_unfold in H. bind_inv H. rename a into c0.
  bind_inv H. destruct a as [[q' curr1] succ1].
  apply skip_marked_link in E0; [|exact Hs|exact Hl|exact Hp|unfold succ_of; now rewrite E].
  destruct E0 as (Hs' & Hp' & Hc' & Hlive & Hm & Ho).
  assert (forall q2 p2 c2,
            find_level fuel q' key l curr1 succ1 = Ok (q2, p2, c2) ->
            forallb sound_cell (cells (mem q2)) = true
            /\ succ_of q2 l p2 = Some c2 /\ live q2 c2 = true /\ c2 <> tail_ q2
            /\ (forall x, node_marked q2 x = node_marked q x)
            /\ (forall x l', l' <> l -> l' <= MaxLevel ->
                  succ_of q2 l' x = succ_of q l' x)) as Hrec.
  { intros q2 p2 c2 H2. apply IH in H2; [|exact Hs'|exact Hl|exact Hc'].
    destruct H2 as (Hs2 & Hp2 & Hl2 & Ht2 & Hm2 & Ho2).
    repeat (split; [assumption|]). split.
    - intros x. now rewrite Hm2.
    - intros x l' Hne Hl'. rewrite Ho2 by assumption. now apply Ho. }
  destruct (Nat.eqb_spec curr1 (tail_ q')) as [|Hnt]; [now apply Hrec|].
  bind_inv H. rename a into c1.
  destruct (value c1 <? key)%Z; [now apply Hrec|].
  inversion H; subst q1 p c. repeat (split; [assumption|]). exact Ho.
Qed.

(** The loop over the levels on any store. *)
Lemma find_levels_link fuel key : forall n q pred preds succs q1 preds1 succs1,
  forallb sound_cell (cells (mem q)) = true -> n <= S MaxLevel ->
  length preds = S MaxLevel -> length succs = S MaxLevel ->
  find_levels fuel q key n pred preds succs = Ok (q1, preds1, succs1) ->
  forallb sound_cell (cells (mem q1)) = true
  /\ length preds1 = S MaxLevel /\ length succs1 = S MaxLevel
  /\ (forall l, l < n ->
        succ_of q1 l (at_level preds1 l) = Some (at_level succs1 l)
        /\ live q1 (at_level succs1 l) = true
        /\ at_level succs1 l <> tail_ q1)
  /\ (forall l, n <= l ->
        at_level preds1 l = at_level preds l /\ at_level succs1 l = at_level succs l)
  /\ (forall x, node_marked q1 x = node_marked q x)
  /\ (forall x l', n <= l' -> l' <= MaxLevel -> succ_of q1 l' x = succ_of q l' x).
Proof.
  induction n as [|level IH]; intros q pred preds succs q1 preds1 succs1 Hs Hn Hlp Hls H.
  - cbn [find_levels] in H. inversion H; subst. repeat (split; [assumption|]).
    split; [intros l Hl; lia|]. repeat split.
  - cbn [find_levels] in H. bind_inv H. rename a into p.
    bind_inv H. destruct a as [[q' pred1] curr1].
    apply find_level_link in E0; [|exact Hs|lia|unfold succ_of; now rewrite E].
    destruct E0 as (Hs' & Hp' & Hlive & Hnt & Hm & Ho).
    pose proof (find_levels_frame _ _ _ _ _ _ _ _ _ _ H) as Hfr.
    apply IH in H; [|exact Hs'|lia|now rewrite length_insert..].
    destruct H as (Hs1 & Hlp1 & Hls1 & Hlow & Hup & Hm1 & Ho1).
    split; [exact Hs1|]. split; [exact Hlp1|]. split; [exact Hls1|].
    split; [|split; [|split]].
    + intros l Hl. destruct (Nat.eq_dec l level) as [->|Hne]; [|apply Hlow; lia].
      destruct (Hup level (Nat.le_refl _)) as (-> & ->).
      rewrite !at_level_insert_eq by lia.
      rewrite Ho1 by lia. split; [exact Hp'|]. split.
      * apply live_node_marked. rewrite Hm1. now apply live_node_marked.
      * assert (tail_ q1 = tail_ q') as -> by (unfold frame in Hfr; now inversion Hfr).
        exact Hnt.
    + intros l Hl. destruct (Hup l) as (-> & ->); [lia|].
      rewrite !at_level_insert_ne by lia. now split.
    + intros x. now rewrite Hm1.
    + intros x l' Hl' Hle. rewrite Ho1 by lia. apply Ho; lia.
Qed.

(** [findNode] on any store: on every level the node in [succs] is unmarked
    and is the successor of the node in [preds]; no mark has changed. *)
Lemma findNode_link fuel q key q1 b preds succs :
  forallb sound_cell (cells (mem q)) = true ->
  findNode fuel q key no_nodes no_nodes = Ok (q1, b, preds, succs) ->
  forallb sound_cell (cells (mem q1)) = true
  /\ length preds = S MaxLevel
  /\ (forall l, l <= MaxLevel ->
        succ_of q1 l (at_level preds l) = Some (at_level succs l)
        /\ live q1 (at_level succs l) = true
        /\ at_level succs l <> tail_ q1)
  /\ (forall x, node_marked q1 x = node_marked q x).
Proof.
  intros Hs H. unfold findNode in H. bind_inv H. destruct a as [[q2 preds2] succs2].
  apply find_levels_link in E; [|exact Hs|lia|reflexivity..].
  destruct E as (Hs2 & Hlp & _ & Hlow & _ & Hm & _).
  assert (q2 = q1 /\ preds2 = preds /\ succs2 = succs) as (-> & -> & ->).
  { destruct (at_level succs2 0 =? tail_ q2); [now inversion H|].
    bind_inv H. now inversion H. }
  split; [exact Hs2|]. split; [exact Hlp|]. split; [|exact Hm].
  intros l Hl. apply Hlow. lia.
Qed.

(** X21.  On any store whose nodes have all their successor cells, also
    one with marked nodes still linked, a [findNode] that returns has on
    every level an unmarked node in [succs] that is not the tail sentinel
    and is the direct successor of the node in [preds]; it has changed no
    mark, and head, tail, counter, domain and allocator are as before. *)
Theorem findNode_returns_adjacent_unmarked_nodes fuel q key q1 b preds succs :
  forallb sound_cell (cells (mem q)) = true ->
  findNode fuel q key no_nodes no_nodes = Ok (q1, b, preds, succs) ->
  (forall l, l <= MaxLevel ->
     succ_of q1 l (at_level preds l) = Some (at_level succs l)
     /\ live q1 (at_level succs l) = true
     /\ at_level succs l <> tail_ q1)
  /\ (forall x, node_marked q1 x = node_marked q x)
  /\ frame q1 = frame q.
Proof.
  intros Hs H. destruct (findNode_link _ _ _ _ _ _ _ Hs H) as (_ & _ & Hlink & Hm).
  split; [exact Hlink|]. split; [exact Hm|].
  exact (findNode_frame _ _ _ _ _ _ _ _ _ H).
Qed.

Lemma findNode_returns_adjacent_unmarked_nodes_witness :
  match findNode 7 (store_marked (two_nodes HazardDomain.init 0) 4 true) 5
          no_nodes no_nodes with
  | Ok (q1, _, preds, succs) =>
      succ_of q1 0 (at_level preds 0) = Some (at_level succs 0)
      /\ live q1 (at_level succs 0) = true
      /\ node_marked q1 4 = Some true
  | _ => False
  end.
Proof.
  destruct (findNode 7 (store_marked (two_nodes HazardDomain.init 0) 4 true) 5
              no_nodes no_nodes) as [[[[q1 b] preds] succs]| | | |] eqn:E;
    [|vm_compute in E; discriminate E ..].
  destruct (findNode_returns_adjacent_unmarked_nodes
              7 (store_marked (two_nodes HazardDomain.init 0) 4 true) 5
              q1 b preds succs) as (Hlink & Hm & _); [reflexivity|exact E|].
  destruct (Hlink 0 (Nat.le_0_l _)) as (H1 & H2 & _).
  split; [exact H1|]. split; [exact H2|]. rewrite Hm. reflexivity.
Defined.

Lemma unlink_levels_unfold q lvl node preds :
  unlink_levels q (S lvl) node preds
  = (let* nd := deref q node in
     let* p := deref q (at_level preds lvl) in
     if next_at p lvl =? node then
       unlink_levels (store_next q (at_level preds lvl) lvl (next_at nd lvl)) lvl node preds
     else
       unlink_levels q lvl (next_at p lvl) preds).
Proof. reflexivity. Qed.

(** The unlink loop after a traversal: whatever [node] was when the loop
    was entered, it is [succs[0]] when the loop is left, because the
    compare-exchange of level [0] either finds [node] equal to it or stores
    it into [node]. *)
Lemma unlink_levels_last preds succs : forall n q node q' node',
  forallb sound_cell (cells (mem q)) = true -> n <= MaxLevel ->
  (forall l, l <= n -> succ_of q l (at_level preds l) = Some (at_level succs l)) ->
  unlink_levels q (S n) node preds = Ok (q', node') ->
  node' = at_level succs 0
  /\ (forall x, node_marked q' x = node_marked q x).
Proof.
  induction n as [|n IH]; intros q node q' node' Hs Hn Hlink H;
    rewrite unlink_levels_unfold in H; bind_inv H; rename a into nd;
    bind_inv H; rename a into p.
  - assert (next_at p 0 = at_level succs 0) as Enext.
    { specialize (Hlink 0 (Nat.le_refl _)). unfold succ_of in Hlink.
      rewrite E0 in Hlink. now inversion Hlink. }
    destruct (Nat.eqb_spec (next_at p 0) node) as [Eq|_];
      cbn [unlink_levels] in H; inversion H; subst q' node'.
    + split; [congruence|]. intros x. apply node_marked_store_next.
    + split; [exact Enext|reflexivity].
  - destruct (next_at p (S n) =? node).
    + apply IH in H; [|now apply sound_store_next|lia|].
      * destruct H as (-> & Hm). split; [reflexivity|].
        intros x. rewrite Hm. apply node_marked_store_next.
      * intros l Hl. rewrite succ_of_store by (assumption || lia).
        rewrite Hlink by lia. destruct (Nat.eqb_spec (S n) l); [lia|].
        now rewrite andb_false_r.
    + apply IH in H; [exact H|exact Hs|lia|]. intros l Hl. apply Hlink. lia.
Qed.

Section RetireFacts.
Context {W : Type}.

(** Below the threshold [retire] only appends. *)
Lemma retire_no_scan (d : HazardDomain.t W) p (del : addr -> W -> W) w :
  length (HazardDomain.retired_ d) < HazardDomain.MAX_HAZARD_POINTERS ->
  HazardDomain.retire d p del w
  = (HazardDomain.mk (HazardDomain.hp_ d)
       (HazardDomain.retired_ d ++ [HazardDomain.mkRetired p del]), w).
Proof.
  unfold HazardDomain.retire. cbn [HazardDomain.retired_ HazardDomain.hp_].
  rewrite length_app. cbn [length].
  generalize HazardDomain.MAX_HAZARD_POINTERS as N. intros N Hlt.
  destruct (Nat.ltb_spec N (length (HazardDomain.retired_ d) + 1)); [lia|reflexivity].
Qed.

(** [retire] writes no hazard slot. *)
Lemma retire_hp (d : HazardDomain.t W) p (del : addr -> W -> W) w :
  HazardDomain.hp_ (HazardDomain.retire d p del w).1 = HazardDomain.hp_ d.
Proof.
  unfold HazardDomain.retire. cbn [HazardDomain.retired_ HazardDomain.hp_].
  rewrite scan_filter.
  generalize HazardDomain.MAX_HAZARD_POINTERS as N. intros N.
  destruct (N <? _); reflexivity.
Qed.

End RetireFacts.

(** A store with the same objects reads the same. *)
Lemma deref_same_cells q q' p :
  cells (mem q') = cells (mem q) -> deref q' p = deref q p.
Proof. intros E. unfold deref. now rewrite E. Qed.

(** [retire] below the threshold of [scan]: when it returns, the objects are
    untouched and the record is the last of the list; the allocator has
    given one block if the vector had none, and the vector has a block
    from then on. *)
Lemma retire_node_no_scan q y q4 :
  length (HazardDomain.retired_ (domain_ q)) < HazardDomain.MAX_HAZARD_POINTERS ->
  retire_node q y = Ok q4 ->
  cells (mem q4) = cells (mem q)
  /\ head_ q4 = head_ q /\ tail_ q4 = tail_ q /\ count_ q4 = count_ q
  /\ domain_ q4
     = HazardDomain.mk (HazardDomain.hp_ (domain_ q))
         (HazardDomain.retired_ (domain_ q) ++ [HazardDomain.mkRetired y free])
  /\ avail (mem q4) = avail (mem q) - (if retired_capacity_ q =? 0 then 1 else 0)
  /\ retired_capacity_ q4 <> 0.
Proof.
  intros Hlen H. apply retire_node_Ok in H.
  destruct H as (q1 & Eg & Er & Hh & Ht & Hc & Hcap).
  rewrite retire_no_scan in Er by exact Hlen. inversion Er as [[Ed Em]].
  split; [|split; [exact Hh|split; [exact Ht|split; [exact Hc|split; [reflexivity|]]]]].
  - now apply grow_retired_Ok in Eg as (-> & _).
  - rewrite Hcap. clear -Eg. unfold grow_retired in Eg.
    destruct (Nat.ltb_spec (length (HazardDomain.retired_ (domain_ q)))
                (retired_capacity_ q)) as [Hlt|Hge].
    + inversion Eg; subst q1.
      destruct (Nat.eqb_spec (retired_capacity_ q) 0); lia.
    + destruct (avail (mem q)) as [|a] eqn:Ea; [discriminate Eg|].
      inversion Eg; subst q1. cbn [mem avail retired_capacity_].
      destruct (Nat.eqb_spec (retired_capacity_ q) 0); lia.
Qed.

(** Below the threshold [retire] returns when the vector has room left or
    the allocator can provide a block. *)
Lemma retire_node_returns q y :
  length (HazardDomain.retired_ (domain_ q)) < HazardDomain.MAX_HAZARD_POINTERS ->
  avail (mem q) <> 0
  \/ length (HazardDomain.retired_ (domain_ q)) < retired_capacity_ q ->
  exists q4, retire_node q y = Ok q4.
Proof.
  intros Hlen Hroom. unfold retire_node.
  assert (exists q1, grow_retired q = Ok q1 /\ domain_ q1 = domain_ q) as (q1 & Eg & Ed).
  { unfold grow_retired.
    destruct (Nat.ltb_spec (length (HazardDomain.retired_ (domain_ q)))
                (retired_capacity_ q)) as [Hlt|Hge].
    - now exists q.
    - destruct (avail (mem q)) as [|a] eqn:Ea; [lia|]. eexists. split; reflexivity. }
  rewrite Eg. cbn [bind]. rewrite Ed. cbn [HazardDomain.retired_].
  rewrite length_app. cbn [length].
  assert ((HazardDomain.MAX_HAZARD_POINTERS
           <? length (HazardDomain.retired_ (domain_ q)) + 1) = false) as ->
    by (apply Nat.ltb_ge; lia).
  cbn [andb]. rewrite retire_no_scan by exact Hlen. eexists. reflexivity.
Qed.

(** X15.  The node [pop] hands to the domain is never the node it marked
    and whose key it returns.  The failed compare-exchange of the unlink
    loop overwrites [node], so what is retired is the node [findNode]
    stopped at on the bottom level: an unmarked node that is still part of
    the queue.  The marked node is retired by nobody. *)
Theorem pop_retires_another_node fuel q q' v :
  forallb sound_cell (cells (mem q)) = true ->
  length (HazardDomain.retired_ (domain_ q)) < HazardDomain.MAX_HAZARD_POINTERS ->
  pop fuel q = Ok (q', Some v) ->
  exists x y,
    succ_of q 0 (head_ q) = Some x /\ value_at q x = v
    /\ node_marked q x = Some false /\ node_marked q' x = Some true
    /\ y <> x /\ live q y = true /\ live q' y = true
    /\ retired_addrs q' = retired_addrs q ++ [y].
Proof.
  intros Hs Hlen H. apply noexcept_Ok, pop_loop_hit in H.
  destruct H as (h & n & fuel' & q2 & b & preds & succs & q3 & node'
                 & Eh & Hnt & En & Efl & Em & Ev & Efind & Eunlink & q4 & Eret & ->).
  set (x := next_at h 0) in *.
  set (q1 := store_marked q x true) in *.
  assert (forallb sound_cell (cells (mem q1)) = true) as Hs1
    by (apply sound_update; [reflexivity|exact Hs]).
  assert (forall y, node_marked q1 y = if y =? x then Some true else node_marked q y)
    as Hm1.
  { intros y. unfold node_marked, q1, store_marked. rewrite deref_update.
    destruct (Nat.eqb_spec y x) as [->|_].
    - now rewrite En.
    - now destruct (deref q y). }
  pose proof (findNode_frame _ _ _ _ _ _ _ _ _ Efind) as Hfr2.
  pose proof (unlink_levels_frame _ _ _ _ _ _ Eunlink) as Hfr3.
  destruct (findNode_link _ _ _ _ _ _ _ Hs1 Efind) as (Hs2 & Hlp & Hlink & Hm2).
  assert (topLevel n <= MaxLevel \/ MaxLevel < topLevel n) as [Htl|Htl] by lia.
  2:{ (* a level above the arrays: [preds] has no such cell *)
      exfalso. clear -Eunlink Htl Hlp.
      rewrite unlink_levels_unfold in Eunlink. bind_inv Eunlink. bind_inv Eunlink.
      unfold at_level in E0. rewrite nth_overflow in E0 by lia. discriminate E0. }
  apply (unlink_levels_last preds succs) in Eunlink;
    [|exact Hs2|exact Htl|intros l Hl; apply Hlink; lia].
  destruct Eunlink as (-> & Hm3).
  destruct (Hlink 0 (Nat.le_0_l _)) as (_ & Hlive & _).
  set (y := at_level succs 0) in *.
  assert (node_marked q1 y = Some false) as Hy1
    by (rewrite <- Hm2; now apply live_node_marked).
  assert (y <> x) as Hyx.
  { intros E. rewrite Hm1, E, Nat.eqb_refl in Hy1. discriminate Hy1. }
  assert (domain_ q3 = domain_ q) as Ed.
  { unfold frame in Hfr2, Hfr3. inversion Hfr2. inversion Hfr3. congruence. }
  apply retire_node_no_scan in Eret; [|rewrite Ed; exact Hlen].
  destruct Eret as (Ecells & _ & _ & _ & Er & _). rewrite Ed in Er.
  assert (forall z, node_marked (with_count q4 (wrap (count_ q4 - 1))) z
                    = node_marked q1 z) as Hm'.
  { intros z. rewrite <- Hm2, <- Hm3. unfold node_marked.
    now rewrite (deref_same_cells q3 (with_count q4 _) z Ecells). }
  exists x, y. split; [unfold succ_of; now rewrite Eh|].
  split; [unfold value_at; now rewrite En|].
  split; [unfold node_marked; now rewrite En, Em|].
  split; [cbn [count_]; rewrite Hm', Hm1; now rewrite Nat.eqb_refl|].
  split; [exact Hyx|].
  assert (node_marked q y = Some false) as Hyq.
  { rewrite Hm1 in Hy1. now destruct (Nat.eqb_spec y x). }
  split; [now apply live_node_marked|].
  split; [apply live_node_marked; cbn [count_]; now rewrite Hm'|].
  unfold retired_addrs. cbn [domain_ with_count]. rewrite Er.
  cbn [HazardDomain.retired_]. now rewrite map_app.
Qed.

Lemma pop_retires_another_node_witness :
  exists x y,
    succ_of (two_nodes HazardDomain.init 1) 0 1 = Some x
    /\ value_at (two_nodes HazardDomain.init 1) x = 5%Z
    /\ y <> x /\ live (two_nodes HazardDomain.init 1) y = true.
Proof.
  destruct (pop 4 (two_nodes HazardDomain.init 1)) as [[q' [v|]]| | | |] eqn:E;
    try (vm_compute in E; discriminate E).
  assert (v = 5%Z) as -> by (vm_compute in E; now inversion E).
  destruct (pop_retires_another_node 4 (two_nodes HazardDomain.init 1) q' 5)
    as (x & y & Hx & Hv & _ & _ & Hyx & Hy & _).
  - reflexivity.
  - cbn. unfold HazardDomain.MAX_HAZARD_POINTERS. lia.
  - exact E.
  - exists x, y. repeat split; assumption.
Defined.

(* ------------------------------------------------------------------------- *)
(** ** When [pop] does not return *)
(* ------------------------------------------------------------------------- *)

Lemma pop_loop_unfold fuel q :
  pop_loop (S fuel) q
  = (let* h := deref q (head_ q) in
     let node := next_at h 0 in
     if node =? tail_ q then Ok (q, None)
     else
       let* n := deref q node in
       if negb (fullyLinked n) then pop_loop fuel q
       else if marked n then pop_loop fuel q
       else
         let q1 := store_marked q node true in
         let out := value n in
         let* (q2, _, preds, succs) := findNode fuel q1 out no_nodes no_nodes in
         let* (q3, node') := unlink_levels q2 (S (topLevel n)) node preds in
         let* q4 := retire_node q3 node' in
         Ok (with_count q4 (wrap (count_ q4 - 1)), Some out)).
Proof. reflexivity. Qed.

(** The traversal on the top level once the only node there is marked: it
    unlinks the node, reaches the tail, steps past it and reads through
    [nullptr]. *)
Lemma find_level_past_marked fuel q key l h x n t :
  head_ q <> tail_ q -> x <> tail_ q -> x <> head_ q ->
  deref q (head_ q) = Ok h -> length (next h) = S MaxLevel -> l <= MaxLevel ->
  next_at h l = x ->
  deref q x = Ok n -> marked n = true -> next_at n l = tail_ q ->
  deref q (tail_ q) = Ok t -> marked t = false -> next_at t l = nullptr ->
  find_level (3 + fuel) q key l (head_ q) x = Fault NullDeref.
Proof.
  intros Hht Hxt Hxh Eh Hlen Hl Ehx En Hm Enx Et Hmt Ent.
  change (3 + fuel) with (S (S (S fuel))).
  rewrite find_level_unfold, En. cbn [bind].
  rewrite skip_marked_unfold, En. cbn [bind]. rewrite Hm, Eh. cbn [bind].
  rewrite Ehx, Nat.eqb_refl. cbn zeta. rewrite Enx.
  set (q' := store_next q (head_ q) l (tail_ q)).
  assert (deref q' (tail_ q) = Ok t) as Et'.
  { unfold q', store_next. rewrite deref_update, Et.
    destruct (Nat.eqb_spec (tail_ q) (head_ q)); [congruence|reflexivity]. }
  rewrite Et'. cbn [bind].
  rewrite skip_marked_unfold, Et'. cbn [bind]. rewrite Hmt.
  cbn [bind]. change (tail_ q') with (tail_ q). rewrite Nat.eqb_refl.
  rewrite find_level_unfold, Ent. reflexivity.
Qed.

(** X16.  Popping the node that is the only one of full height, or popping
    when no node has full height, never returns a value: the traversal
    [pop] starts after marking the node walks past the tail sentinel and
    reads through [nullptr].  So the last node of a queue cannot be
    popped. *)
Theorem pop_without_another_full_height_node_faults fuel q x xs n :
  well_formed q = true ->
  bottom q = Some (x :: xs) -> deref q x = Ok n -> fullyLinked n = true ->
  (forall L T, level_nodes q MaxLevel = Some L -> T ∈ L -> T = x) ->
  pop (4 + fuel) q = Fault NullDeref.
Proof.
  intros Hwf Hb En Hfl Htop.
  destruct (wf_tail q Hwf) as (t & Et & Hmt & Hnt).
  pose proof (wf_head_tail q Hwf) as Hht.
  destruct (wf_level q 0 Hwf (Nat.le_0_l _)) as (L0 & EL0 & Hc0 & Hlive0).
  unfold bottom in Hb. rewrite Hb in EL0. inversion EL0; subst L0. clear EL0.
  pose proof (chain_NoDup _ _ _ _ Hc0) as Hnd0.
  pose proof (chain_not_tail _ _ _ _ Hc0) as Hnt0.
  assert (x <> tail_ q) as Hxt.
  { intros E. apply Hnt0. rewrite <- E. apply list_elem_of_here. }
  assert (x <> head_ q) as Hxh.
  { intros E. apply NoDup_cons in Hnd0 as [Hnd0 _]. apply Hnd0. rewrite <- E.
    apply list_elem_of_here. }
  assert (marked n = false) as Hm.
  { apply Forall_cons in Hlive0 as (Hx & _). apply live_node in Hx as (n' & En' & Hm).
    congruence. }
  destruct (chain_deref _ _ _ _ (head_ q) Hc0 (list_elem_of_here _ _)) as (h & Eh).
  assert (next_at h 0 = x) as Eh0.
  { destruct Hc0 as (Hs & _). unfold succ_of in Hs. rewrite Eh in Hs. now inversion Hs. }
  destruct (wf_level q MaxLevel Hwf (Nat.le_refl _)) as (L & EL & Hc & _).
  specialize (Htop L).
  unfold pop. change (4 + fuel) with (S (3 + fuel)).
  rewrite pop_loop_unfold, Eh. cbn [bind]. cbn zeta. rewrite Eh0.
  destruct (Nat.eqb_spec x (tail_ q)); [contradiction|].
  rewrite En. cbn [bind]. rewrite Hfl, Hm. cbn [negb].
  set (q1 := store_marked q x true).
  assert (forall y m, deref q y = Ok m ->
            deref q1 y = Ok (if y =? x
                             then {| value := value m; topLevel := topLevel m;
                                     next := next m; marked := true;
                                     fullyLinked := fullyLinked m |}
                             else m)) as Hq1.
  { intros y m Ey. unfold q1, store_marked. now rewrite deref_update, Ey. }
  assert (deref q1 (head_ q) = Ok h) as Eh1.
  { rewrite (Hq1 _ _ Eh). destruct (Nat.eqb_spec (head_ q) x); [congruence|reflexivity]. }
  assert (deref q1 (tail_ q) = Ok t) as Et1.
  { rewrite (Hq1 _ _ Et). destruct (Nat.eqb_spec (tail_ q) x); [congruence|reflexivity]. }
  assert (findNode (3 + fuel) q1 (value n) no_nodes no_nodes = Fault NullDeref) as ->;
    [|reflexivity].
  unfold findNode. cbn [find_levels]. change (head_ q1) with (head_ q).
  rewrite Eh1. cbn [bind].
  assert (find_level (3 + fuel) q1 (value n) MaxLevel (head_ q) (next_at h MaxLevel)
          = Fault NullDeref) as ->; [|reflexivity].
  destruct L as [|y L].
  - (* no node of full height *)
    assert (next_at h MaxLevel = tail_ q) as ->.
    { cbn [chain] in Hc. unfold succ_of in Hc. rewrite Eh in Hc. now inversion Hc. }
    apply (find_level_faults q1 (value n) MaxLevel t [] (head_ q) (3 + fuel)).
    + exact Et1.
    + exact Hmt.
    + apply Hnt. lia.
    + cbn [chain]. unfold succ_of. rewrite Eh1. f_equal.
      cbn [chain] in Hc. unfold succ_of in Hc. rewrite Eh in Hc. now inversion Hc.
    + constructor.
    + constructor.
    + cbn [length]. lia.
  - (* the node is the only one of full height *)
    assert (y = x) as -> by (apply Htop; [exact EL|apply list_elem_of_here]).
    assert (L = []) as ->.
    { destruct L as [|z L]; [reflexivity|]. exfalso.
      assert (z = x) as ->
        by (apply Htop; [exact EL|apply list_elem_of_further, list_elem_of_here]).
      apply chain_NoDup in Hc. apply NoDup_cons in Hc as (_ & Hc).
      apply NoDup_cons in Hc as (Hc & _). apply Hc, list_elem_of_here. }
    cbn [chain] in Hc. destruct Hc as (Hhx & _ & Hxt').
    unfold succ_of in Hhx, Hxt'. rewrite Eh in Hhx. rewrite En in Hxt'.
    inversion Hhx as [Ehx]. inversion Hxt' as [Ext]. rewrite Ehx.
    eapply (find_level_past_marked fuel q1 (value n) MaxLevel h x _ t).
    + exact Hht.
    + exact Hxt.
    + exact Hxh.
    + exact Eh1.
    + exact (wf_sound q _ h Hwf Eh).
    + lia.
    + exact Ehx.
    + rewrite (Hq1 _ _ En), Nat.eqb_refl. reflexivity.
    + reflexivity.
    + exact Ext.
    + exact Et1.
    + exact Hmt.
    + apply Hnt. lia.
Qed.

Lemma pop_without_another_full_height_node_faults_witness :
  pop (4 + 0) (one_tall HazardDomain.init 0) = Fault NullDeref.
Proof.
  apply (pop_without_another_full_height_node_faults
           0 (one_tall HazardDomain.init 0) 3 [] tall_node).
  - reflexivity.
  - reflexivity.
  - reflexivity.
  - reflexivity.
  - intros L T EL HT. vm_compute in EL. inversion EL; subst L.
    now apply list_elem_of_singleton in HT.
Defined.

(** X17.  While the node behind the head is marked or not yet fully linked,
    [pop] neither returns nor changes anything: it reads the same node
    again in every round, so a single thread never gets out of the loop. *)
Theorem pop_waits_behind_an_unfinished_node fuel q h n :
  deref q (head_ q) = Ok h -> next_at h 0 <> tail_ q ->
  deref q (next_at h 0) = Ok n ->
  marked n = true \/ fullyLinked n = false ->
  pop fuel q = OutOfFuel.
Proof.
  intros Hh Ht Hn Hm. unfold pop.
  induction fuel as [|fuel IH]; [reflexivity|].
  rewrite pop_loop_unfold, Hh. cbn [bind]. cbn zeta.
  destruct (Nat.eqb_spec (next_at h 0) (tail_ q)); [contradiction|].
  rewrite Hn. cbn [bind].
  destruct (fullyLinked n); cbn [negb].
  - destruct Hm as [->|Hm]; [exact IH|discriminate].
  - exact IH.
Qed.

Lemma pop_waits_behind_an_unfinished_node_witness :
  pop 100 (store_marked (one_tall HazardDomain.init 0) 3 true) = OutOfFuel.
Proof.
  eapply (pop_waits_behind_an_unfinished_node
            100 (store_marked (one_tall HazardDomain.init 0) 3 true)).
  - reflexivity.
  - cbn. discriminate.
  - reflexivity.
  - left. reflexivity.
Defined.

(* ------------------------------------------------------------------------- *)
(** ** The queue and the hazard slots *)
(* ------------------------------------------------------------------------- *)

Lemma frame_domain q q' : frame q' = frame q -> domain_ q' = domain_ q.
Proof. unfold frame. intros H. now inversion H. Qed.

(** A completed [push] leaves the domain alone. *)
Lemma push_loop_domain fuel : forall q item lvl preds succs q',
  push_loop fuel q item lvl preds succs = Ok q' -> domain_ q' = domain_ q.
Proof.
  induction fuel as [|fuel IH]; intros q item lvl preds succs q' H; [discriminate H|].
  rewrite push_loop_unfold in H.
  bind_inv H. destruct a as [[[q1 b] preds1] succs1].
  apply findNode_frame, frame_domain in E.
  bind_inv H. destruct a as [q2 newNode].
  assert (domain_ q2 = domain_ q1) as E2.
  { unfold new_node in E0. destruct (avail (mem q1)); [discriminate|].
    now inversion E0. }
  cbn zeta in H. bind_inv H.
  match type of H with
  | (if _ then _ else push_loop _ (delete ?q3 _) _ _ _ _) = _ =>
      assert (domain_ q3 = domain_ q2) as E3
        by (apply frame_domain; rewrite init_next_frame; reflexivity)
  end.
  destruct (next_at a 0 =? at_level succs1 0).
  - bind_inv H. apply link_levels_frame, frame_domain in E4.
    inversion H; subst. cbn [domain_ with_count store_fullyLinked update with_mem].
    cbn [domain_ store_next update with_mem] in E4. congruence.
  - apply IH in H. cbn [domain_ delete with_mem] in H. congruence.
Qed.

(** X18.  The queue never calls [protect]: no sequence of pushes and pops
    changes a hazard slot, so the snapshot a [scan] takes is the one the
    domain had before the queue was used, and a pushed or popped node is
    never protected by the queue itself. *)
Theorem queue_never_sets_a_hazard_slot fuel ops : forall q q' rs,
  run fuel q ops = Ok (q', rs) ->
  HazardDomain.hp_ (domain_ q') = HazardDomain.hp_ (domain_ q)
  /\ HazardDomain.snapshot (domain_ q') = HazardDomain.snapshot (domain_ q).
Proof.
  assert (forall q q' rs, run fuel q ops = Ok (q', rs) ->
            HazardDomain.hp_ (domain_ q') = HazardDomain.hp_ (domain_ q)) as Hhp.
  { induction ops as [|[item coin|] ops IH]; intros q q' rs H; cbn [run] in H.
    - now inversion H.
    - bind_inv H. rename a into q1. apply IH in H. rewrite H.
      apply noexcept_Ok, push_loop_domain in E. now rewrite E.
    - bind_inv H. destruct a as [q1 r]. bind_inv H. destruct a as [q2 rs2].
      inversion H; subst q' rs. apply IH in E0. rewrite E0.
      destruct r as [v|].
      + apply noexcept_Ok, pop_loop_hit in E.
        destruct E as (h & n & fuel' & qa & b & preds & succs & qb & node'
                       & _ & _ & _ & _ & _ & _ & Efind & Eunlink & q4 & Eret & ->).
        apply findNode_frame, frame_domain in Efind.
        apply unlink_levels_frame, frame_domain in Eunlink.
        cbn [domain_ with_count].
        apply retire_node_Ok in Eret as (qg & _ & Er & _).
        pose proof (retire_hp (domain_ qb) node' free (Some (mem qg))) as Hr.
        rewrite Er in Hr. cbn [fst] in Hr. rewrite Hr, Eunlink, Efind. reflexivity.
      + apply pop_result in E. now subst q1. }
  intros q q' rs H. specialize (Hhp q q' rs H). split; [exact Hhp|].
  unfold HazardDomain.snapshot. now rewrite Hhp.
Qed.

Lemma queue_never_sets_a_hazard_slot_witness :
  match run 4 (one_tall HazardDomain.init 3) [Push 5 once; Push 7 tails; Pop] with
  | Ok (q', _) => HazardDomain.snapshot (domain_ q') = []
  | _ => False
  end.
Proof.
  destruct (run 4 (one_tall HazardDomain.init 3) [Push 5 once; Push 7 tails; Pop])
    as [[q' rs]| | | |] eqn:E; [|vm_compute in E; discriminate E ..].
  exact (proj2 (queue_never_sets_a_hazard_slot 4 _ _ _ _ E)).
Defined.

(* ------------------------------------------------------------------------- *)
(** ** The demo driver: percentile index and histogram bins *)
(* ------------------------------------------------------------------------- *)

(** X19.  [percentile] reads inside [pops] exactly when [pops] is not empty.
    With at least one latency recorded the index is clamped to the last
    entry; with none, [pops.size() - 1] wraps around, the clamp does
    nothing, and the read is outside the vector. *)
Theorem percentile_reads_inside_iff_a_latency_was_recorded (x : Z) (pops : list Z) :
  (0 <= x)%Z -> (Z.of_nat (length pops) < size_max)%Z ->
  (Driver.percentile x pops = None <-> pops = [])
  /\ (pops <> [] ->
      Driver.percentile_index x pops = Z.min x (Z.of_nat (length pops) - 1)
      /\ exists v, Driver.percentile x pops = Some v /\ v ∈ pops).
Proof.
  intros Hx Hlen. unfold Driver.percentile, Driver.percentile_index.
  destruct pops as [|a pops].
  - split; [split; [reflexivity|intros _; apply lookup_nil]|]. congruence.
  - assert (wrap (Z.of_nat (length (a :: pops)) - 1) = Z.of_nat (length (a :: pops)) - 1)%Z
      as ->.
    { unfold wrap. apply Z.mod_small. cbn [length] in *. lia. }
    destruct (lookup_lt_is_Some_2 (a :: pops)
                (Z.to_nat (Z.min x (Z.of_nat (length (a :: pops)) - 1)))) as (v & Ev).
    { cbn [length] in *. lia. }
    rewrite Ev. split; [split; congruence|]. intros _. split; [reflexivity|].
    exists v. split; [reflexivity|]. eapply list_elem_of_lookup_2, Ev.
Qed.

Lemma percentile_reads_inside_iff_a_latency_was_recorded_witness :
  (Driver.percentile 0 [] = None <-> @nil Z = [])
  /\ (Driver.percentile 7 [120; 340; 560]%Z = Some 560%Z).
Proof.
  split.
  - apply (percentile_reads_inside_iff_a_latency_was_recorded 0 []).
    + lia.
    + vm_compute. reflexivity.
  - destruct (percentile_reads_inside_iff_a_latency_was_recorded 7 [120; 340; 560]%Z)
      as (_ & H).
    + lia.
    + vm_compute. reflexivity.
    + reflexivity.
Defined.

Lemma sorted_bounds (a : Z) : forall l v,
  Sorted Z.le (a :: l) -> v ∈ a :: l -> (a <= v <= List.last (a :: l) a)%Z.
Proof.
  intros l v Hs Hv. apply Sorted_StronglySorted in Hs.
  2:{ intros x y z. apply Z.le_trans. }
  revert a v Hs Hv. induction l as [|b l IH]; intros a v Hs Hv.
  - apply list_elem_of_singleton in Hv as ->. cbn [List.last]. lia.
  - apply StronglySorted_inv in Hs as [Hs Hall].
    rewrite !last_cons.
    assert (a <= b)%Z as Hab.
    { rewrite Forall_forall in Hall. apply Hall, list_elem_of_here. }
    assert (b <= List.last (b :: l) b)%Z as Hbl.
    { apply (IH b b Hs), list_elem_of_here. }
    rewrite last_cons in Hbl.
    apply elem_of_cons in Hv as [->|Hv]; [lia|].
    pose proof (IH b v Hs Hv) as Hb. rewrite last_cons in Hb. lia.
Qed.

Lemma ll_in_range z : (- 2 ^ 63 <= z < 2 ^ 63)%Z -> Driver.ll z = Some z.
Proof.
  intros H. unfold Driver.ll.
  destruct (Z.leb_spec (- 2 ^ 63) z), (Z.ltb_spec z (2 ^ 63)); try lia. reflexivity.
Qed.

(** The bin of a sample between the smallest and the largest latency. *)
Lemma bin_of_in_range (min_lat max_lat v : Z) :
  (min_lat <= v <= max_lat)%Z ->
  ((max_lat - min_lat + 1) * Driver.bins < 2 ^ 63)%Z ->
  let range := (max_lat - min_lat + 1)%Z in
  let b := ((v - min_lat) * Driver.bins / range)%Z in
  Driver.bin_of min_lat range v = Some b /\ (0 <= b < Driver.bins)%Z.
Proof.
  intros Hv Hr range b. unfold Driver.bins in *.
  assert (0 <= b < 10)%Z as Hb.
  { subst b range. split.
    - apply Z.div_pos; lia.
    - apply Z.div_lt_upper_bound; lia. }
  split; [|exact Hb]. unfold Driver.bin_of, Driver.bins.
  rewrite ll_in_range by lia. rewrite ll_in_range by lia.
  destruct (Z.eqb_spec range 0) as [E|_]; [subst range; lia|].
  rewrite Z.quot_div_nonneg by (subst range; lia). fold b.
  rewrite ll_in_range by lia.
  assert (Driver.to_int b = b) as ->.
  { unfold Driver.to_int. rewrite Z.mod_small by lia. lia. }
  destruct (Z.leb_spec 10 b); [lia|reflexivity].
Qed.

Lemma sum_alter_S (counts : list nat) (i : nat) :
  i < length counts ->
  fold_right Nat.add 0 (alter S i counts) = S (fold_right Nat.add 0 counts).
Proof.
  revert i. induction counts as [|c counts IH]; intros i Hi; cbn [length] in Hi; [lia|].
  destruct i as [|i]; cbn [alter list_alter fold_right].
  - reflexivity.
  - change (list_alter S i counts) with (alter S i counts).
    rewrite IH by lia. lia.
Qed.

(** The counting loop over samples that all lie in the range. *)
Lemma count_bins_total (min_lat max_lat : Z) : forall samples counts,
  Forall (fun v => (min_lat <= v <= max_lat)%Z) samples ->
  ((max_lat - min_lat + 1) * Driver.bins < 2 ^ 63)%Z ->
  length counts = Z.to_nat Driver.bins ->
  exists counts',
    Driver.count_bins min_lat (max_lat - min_lat + 1) samples counts = Some counts'
    /\ length counts' = Z.to_nat Driver.bins
    /\ fold_right Nat.add 0 counts' = fold_right Nat.add 0 counts + length samples.
Proof.
  induction samples as [|v samples IH]; intros counts Hall Hr Hlen.
  - exists counts. cbn [Driver.count_bins length]. repeat split; [exact Hlen|lia].
  - apply Forall_cons in Hall as (Hv & Hall).
    destruct (bin_of_in_range min_lat max_lat v Hv Hr) as (Eb & Hb).
    cbn [Driver.count_bins]. rewrite Eb.
    set (b := ((v - min_lat) * Driver.bins / (max_lat - min_lat + 1))%Z) in *.
    assert ((0 <=? b)%Z && (b <? Z.of_nat (length counts))%Z = true) as ->.
    { rewrite Hlen. unfold Driver.bins in *.
      apply andb_true_iff. split; [apply Z.leb_le|apply Z.ltb_lt]; lia. }
    destruct (IH (alter S (Z.to_nat b) counts) Hall Hr) as (counts' & E & Hl' & Hsum).
    { now rewrite length_alter. }
    exists counts'. split; [exact E|]. split; [exact Hl'|].
    rewrite Hsum, sum_alter_S; [cbn [length]; lia|].
    rewrite Hlen. unfold Driver.bins in *. lia.
Qed.

(** X20.  For the sorted, non-empty vector of latencies the histogram loop
    stays inside [counts]: every sample falls into a bin between [0] and
    [bins - 1], so the clamp [if (bin >= bins)] never fires, and the ten
    counts add up to the number of samples.  The spread of the latencies
    has to leave room for the product with [bins] in a [long long]. *)
Theorem histogram_counts_every_sample_once (front : Z) (rest : list Z) :
  let pops := front :: rest in
  let max_lat := List.last pops front in
  Sorted Z.le pops ->
  ((max_lat - front + 1) * Driver.bins < 2 ^ 63)%Z ->
  exists counts,
    Driver.histogram pops = Some counts
    /\ length counts = Z.to_nat Driver.bins
    /\ fold_right Nat.add 0 counts = length pops
    /\ forall v, v ∈ pops ->
         let b := ((v - front) * Driver.bins / (max_lat - front + 1))%Z in
         Driver.bin_of front (max_lat - front + 1) v = Some b
         /\ (0 <= b < Driver.bins)%Z.
Proof.
  intros pops max_lat Hs Hr.
  assert (forall v, v ∈ pops -> (front <= v <= max_lat)%Z) as Hbounds
    by (intros v Hv; exact (sorted_bounds front rest v Hs Hv)).
  assert (front <= max_lat)%Z as Hfm by (apply Hbounds, list_elem_of_here).
  destruct (count_bins_total front max_lat pops (replicate (Z.to_nat Driver.bins) 0))
    as (counts & E & Hl & Hsum).
  { apply Forall_forall. exact Hbounds. }
  { exact Hr. }
  { apply length_replicate. }
  exists counts. split.
  - change (Driver.histogram pops)
      with (match Driver.range_of front max_lat with
            | Some range =>
                Driver.count_bins front range pops (replicate (Z.to_nat Driver.bins) 0)
            | None => None
            end).
    unfold Driver.range_of. unfold Driver.bins in Hr.
    rewrite ll_in_range by lia. rewrite ll_in_range by lia. exact E.
  - split; [exact Hl|]. split.
    + rewrite Hsum. clear. induction (Z.to_nat Driver.bins) as [|k IH]; [reflexivity|].
      exact IH.
    + intros v Hv. exact (bin_of_in_range front max_lat v (Hbounds v Hv) Hr).
Qed.

Lemma histogram_counts_every_sample_once_witness :
  exists counts,
    Driver.histogram [100; 140; 180; 199]%Z = Some counts
    /\ length counts = 10
    /\ fold_right Nat.add 0 counts = 4.
Proof.
  destruct (histogram_counts_every_sample_once 100 [140; 180; 199]%Z)
    as (counts & E & Hl & Hsum & _).
  - repeat (constructor; try lia).
  - vm_compute. reflexivity.
  - exists counts. repeat split; assumption.
Defined.

(* ------------------------------------------------------------------------- *)
(** ** Popping a node that stands on the bottom level only *)
(* ------------------------------------------------------------------------- *)

Lemma forallb_same {A} (f g : A -> bool) (l : list A) :
  (forall a, f a = g a) -> forallb f l = forallb g l.
Proof.
  intros H. induction l as [|a l IH]; [reflexivity|]. cbn [forallb]. now rewrite H, IH.
Qed.

Lemma walk_same q q' l :
  (forall z, deref q' z = deref q z) -> tail_ q' = tail_ q ->
  forall gas p, walk gas q' l p = walk gas q l p.
Proof.
  intros Hd Ht. induction gas as [|gas IH]; intros p; [reflexivity|].
  cbn [walk]. rewrite Hd, Ht. destruct (deref q p); try reflexivity.
  destruct (next_at a l =? tail_ q); [reflexivity|]. now rewrite IH.
Qed.

(** Two queue states over the same objects see the same levels. *)
Lemma same_store q q' :
  cells (mem q') = cells (mem q) -> head_ q' = head_ q -> tail_ q' = tail_ q ->
  well_formed q' = well_formed q
  /\ (forall l, level_nodes q' l = level_nodes q l)
  /\ (forall z, deref q' z = deref q z).
Proof.
  intros Em Eh Et.
  assert (forall z, deref q' z = deref q z) as Hd
    by (intros z; unfold deref; now rewrite Em).
  assert (forall l, level_nodes q' l = level_nodes q l) as Hl.
  { intros l. unfold level_nodes. rewrite Em, Eh. now apply walk_same. }
  split; [|split; assumption].
  assert (forall z, live q' z = live q z) as Hlive
    by (intros z; unfold live; now rewrite Hd).
  unfold well_formed. rewrite Em. f_equal; [f_equal; [f_equal|]|].
  - unfold tail_ok. now rewrite Et, Hd.
  - apply forallb_same. intros l. unfold level_ok. rewrite Hl.
    destruct (level_nodes q l); [|reflexivity]. now apply forallb_same.
  - apply forallb_same. intros l. unfold contained. now rewrite !Hl.
Qed.

Lemma succ_of_store_marked q x b l z :
  succ_of (store_marked q x b) l z = succ_of q l z.
Proof.
  unfold succ_of, store_marked. rewrite deref_update.
  destruct (deref q z); try reflexivity. now destruct (z =? x).
Qed.

Lemma value_at_update q p f z :
  (forall n, value (f n) = value n) -> value_at (update q p f) z = value_at q z.
Proof.
  intros Hf. unfold value_at. rewrite deref_update.
  destruct (deref q z); try reflexivity. destruct (z =? p); [apply Hf|reflexivity].
Qed.

(** The loop of one level stops at once at an unmarked node whose key is not
    below [key]. *)
Lemma find_level_stop fuel q key l pred c nc :
  deref q c = Ok nc -> marked nc = false -> c <> tail_ q -> (key <= value nc)%Z ->
  find_level (S (S fuel)) q key l pred c = Ok (q, pred, c).
Proof.
  intros Ec Hm Ht Hv. rewrite find_level_unfold, Ec. cbn [bind].
  rewrite skip_marked_live by (unfold live; now rewrite Ec, Hm). cbn [bind].
  destruct (Nat.eqb_spec c (tail_ q)); [contradiction|]. rewrite Ec. cbn [bind].
  destruct (Z.ltb_spec (value nc) key); [lia|reflexivity].
Qed.

Section PopBottomOnly.

Variables (q : PQ) (x y : addr) (h n ny : Node).
Hypothesis Hht : head_ q <> tail_ q.
Hypothesis Hxh : x <> head_ q.
Hypothesis Hxt : x <> tail_ q.
Hypothesis Hyh : y <> head_ q.
Hypothesis Hyt : y <> tail_ q.
Hypothesis Hyx : y <> x.
Hypothesis Eh : deref q (head_ q) = Ok h.
Hypothesis Hlen : length (next h) = S MaxLevel.
Hypothesis Eh0 : next_at h 0 = x.
Hypothesis En : deref q x = Ok n.
Hypothesis Hfl : fullyLinked n = true.
Hypothesis Hm : marked n = false.
Hypothesis Htl : topLevel n = 0.
Hypothesis En0 : next_at n 0 = y.
Hypothesis Ey : deref q y = Ok ny.
Hypothesis Hmy : marked ny = false.
Hypothesis Hvy : (value n <= value ny)%Z.
Hypothesis Hupper : forall l, 1 <= l -> l <= MaxLevel ->
  exists nF, next_at h l <> x /\ next_at h l <> tail_ q
             /\ deref q (next_at h l) = Ok nF /\ marked nF = false
             /\ (value n <= value nF)%Z.

Local Abbreviation q1 := (store_marked q x true).
Local Abbreviation q2 := (store_next (store_marked q x true) (head_ q) 0 y).

Lemma pbo_deref1 z m :
  deref q z = Ok m -> z <> x -> deref q1 z = Ok m.
Proof.
  intros Ez Hz. unfold store_marked. rewrite deref_update, Ez.
  destruct (Nat.eqb_spec z x); [contradiction|reflexivity].
Qed.

Lemma pbo_deref1_x :
  deref q1 x = Ok {| value := value n; topLevel := topLevel n; next := next n;
                     marked := true; fullyLinked := fullyLinked n |}.
Proof. unfold store_marked. now rewrite deref_update, En, Nat.eqb_refl. Qed.

Lemma pbo_deref2 z m :
  deref q1 z = Ok m -> z <> head_ q -> deref q2 z = Ok m.
Proof.
  intros Ez Hz. unfold store_next. rewrite deref_update, Ez.
  destruct (Nat.eqb_spec z (head_ q)); [contradiction|reflexivity].
Qed.

Lemma pbo_deref2_head :
  deref q2 (head_ q)
  = Ok {| value := value h; topLevel := topLevel h; next := <[0 := y]> (next h);
          marked := marked h; fullyLinked := fullyLinked h |}.
Proof.
  unfold store_next. rewrite deref_update, (pbo_deref1 _ _ Eh) by congruence.
  now rewrite Nat.eqb_refl.
Qed.

(** The levels above the bottom: the traversal stays at the head. *)
Lemma pbo_upper fuel key : (key = value n) -> forall k preds succs,
  k <= MaxLevel ->
  exists preds' succs',
    find_levels (S (S fuel)) q1 key (S k) (head_ q) preds succs
    = find_levels (S (S fuel)) q1 key 1 (head_ q) preds' succs'
    /\ (length preds = S MaxLevel -> length preds' = S MaxLevel)
    /\ (length succs = S MaxLevel -> length succs' = S MaxLevel).
Proof.
  intros ->. induction k as [|k IH]; intros preds succs Hk.
  - exists preds, succs. repeat split; auto.
  - destruct (Hupper (S k)) as (nF & HFx & HFt & EF & HmF & HvF); [lia|lia|].
    change (find_levels (S (S fuel)) q1 (value n) (S (S k)) (head_ q) preds succs)
      with (let* p := deref q1 (head_ q) in
            let* (qa, pred1, curr1) :=
              find_level (S (S fuel)) q1 (value n) (S k) (head_ q) (next_at p (S k)) in
            find_levels (S (S fuel)) qa (value n) (S k) pred1
              (<[S k := pred1]> preds) (<[S k := curr1]> succs)).
    rewrite (pbo_deref1 _ _ Eh) by congruence. cbn [bind].
    rewrite (find_level_stop fuel q1 (value n) (S k) (head_ q) _ nF);
      [|now apply pbo_deref1|exact HmF|exact HFt|exact HvF].
    cbn [bind].
    destruct (IH (<[S k := head_ q]> preds) (<[S k := next_at h (S k)]> succs))
      as (preds' & succs' & E & Hp & Hs); [lia|].
    exists preds', succs'. split; [exact E|].
    split; intros Hl; [apply Hp|apply Hs]; now rewrite length_insert.
Qed.

(** The bottom level: the traversal unlinks the marked node and stops at
    its successor. *)
Lemma pbo_bottom fuel preds succs :
  find_levels (S (S (S fuel))) q1 (value n) 1 (head_ q) preds succs
  = Ok (q2, <[0 := head_ q]> preds, <[0 := y]> succs).
Proof.
  change (find_levels (S (S (S fuel))) q1 (value n) 1 (head_ q) preds succs)
    with (let* p := deref q1 (head_ q) in
          let* (qa, pred1, curr1) :=
            find_level (S (S (S fuel))) q1 (value n) 0 (head_ q) (next_at p 0) in
          Ok (qa, <[0 := pred1]> preds, <[0 := curr1]> succs)).
  rewrite (pbo_deref1 _ _ Eh) by congruence. cbn [bind]. rewrite Eh0.
  rewrite find_level_unfold, pbo_deref1_x. cbn [bind].
  rewrite skip_marked_unfold, pbo_deref1_x. cbn [bind marked].
  rewrite (pbo_deref1 _ _ Eh) by congruence. cbn [bind].
  rewrite Eh0, Nat.eqb_refl. cbn zeta.
  assert (forall b l,
            next_at {| value := value n; topLevel := topLevel n; next := next n;
                       marked := b; fullyLinked := fullyLinked n |} l
            = next_at n l) as Hnx by reflexivity.
  rewrite !Hnx, En0.
  assert (deref q2 y = Ok ny) as Ey2
    by (apply pbo_deref2; [now apply pbo_deref1|exact Hyh]).
  rewrite Ey2. cbn [bind].
  rewrite skip_marked_live by (unfold live; now rewrite Ey2, Hmy). cbn [bind].
  change (tail_ q2) with (tail_ q).
  destruct (Nat.eqb_spec y (tail_ q)); [contradiction|].
  rewrite Ey2. cbn [bind].
  destruct (Z.ltb_spec (value ny) (value n)); [lia|reflexivity].
Qed.

(** The call of [pop]: it ends as its call of [retire] does. *)
Lemma pbo_pop fuel :
  pop (4 + fuel) q
  = noexcept (let* q4 := retire_node q2 y in
              Ok (with_count q4 (wrap (count_ q4 - 1)), Some (value n))).
Proof.
  unfold pop. change (4 + fuel) with (S (S (S (S fuel)))).
  rewrite pop_loop_unfold, Eh. cbn [bind]. cbn zeta. rewrite Eh0.
  destruct (Nat.eqb_spec x (tail_ q)); [contradiction|].
  rewrite En. cbn [bind]. rewrite Hfl, Hm. cbn [negb].
  unfold findNode. change (head_ q1) with (head_ q).
  destruct (pbo_upper (S fuel) (value n) eq_refl MaxLevel no_nodes no_nodes (Nat.le_refl _))
    as (preds' & succs' & E & Hp & Hs).
  rewrite E, pbo_bottom. cbn [bind].
  rewrite at_level_insert_eq by (rewrite Hs; [lia|reflexivity]).
  change (tail_ q2) with (tail_ q).
  destruct (Nat.eqb_spec y (tail_ q)); [contradiction|].
  assert (deref q2 y = Ok ny) as Ey2
    by (apply pbo_deref2; [now apply pbo_deref1|exact Hyh]).
  rewrite Ey2. cbn [bind]. rewrite Htl, unlink_levels_unfold.
  rewrite (pbo_deref2 _ _ pbo_deref1_x Hxh). cbn [bind].
  rewrite at_level_insert_eq by (rewrite Hp; [lia|reflexivity]).
  rewrite pbo_deref2_head. cbn [bind].
  assert (forall v tl mk fl,
            next_at {| value := v; topLevel := tl; next := <[0 := y]> (next h);
                       marked := mk; fullyLinked := fl |} 0 = y) as Hny.
  { intros. unfold next_at. cbn [next].
    destruct (next h) as [|a nx]; [cbn [length] in Hlen; lia|reflexivity]. }
  rewrite !Hny.
  destruct (Nat.eqb_spec y x); [contradiction|]. reflexivity.
Qed.

End PopBottomOnly.

Lemma deref_update_ne q p f z : z <> p -> deref (update q p f) z = deref q z.
Proof.
  intros Hz. rewrite deref_update. destruct (deref q z); try reflexivity.
  destruct (Nat.eqb_spec z p); [contradiction|reflexivity].
Qed.

Lemma wf_parts q :
  well_formed q = true ->
  forallb sound_cell (cells (mem q)) = true /\ tail_ok q = true.
Proof. unfold well_formed. rewrite !andb_true_iff. tauto. Qed.

(** The store one [pop] leaves when the first node stands on the bottom
    level only, below a node of full height: the node is marked and the
    head points at the node behind it; that node is what the domain is
    handed. *)
Lemma pop_bottom_only_store fuel q x xs :
  well_formed q = true -> levels_ordered q ->
  bottom q = Some (x :: xs) -> bottom_only q x ->
  level_nodes q MaxLevel <> Some [] ->
  exists y rest,
    xs = y :: rest
    /\ let q2 := store_next (store_marked q x true) (head_ q) 0 y in
       pop (4 + fuel) q
       = noexcept (let* q4 := retire_node q2 y in
                   Ok (with_count q4 (wrap (count_ q4 - 1)), Some (value_at q x)))
       /\ well_formed q2 = true /\ levels_ordered q2
       /\ bottom q2 = Some xs
       /\ (forall l, 1 <= l -> l <= MaxLevel -> level_nodes q2 l = level_nodes q l)
       /\ (forall z, z <> x -> z <> head_ q -> deref q2 z = deref q z)
       /\ node_marked q2 x = Some true
       /\ succ_of q2 0 (head_ q) = Some y
       /\ (exists ny, deref q y = Ok ny)
       /\ y <> x /\ y <> head_ q
       /\ length (cells (mem q2)) = length (cells (mem q)).
Proof.
  intros Hwf Hord Hb ((n & En & Hfl & Htl) & Hnot1) Htop.
  assert (1 <= MaxLevel) as H1M by (unfold MaxLevel; lia).
  destruct (wf_parts q Hwf) as (Hsound & Htok).
  destruct (wf_tail q Hwf) as (t & Et & Hmt & Hnt).
  pose proof (wf_head_tail q Hwf) as Hht.
  destruct (wf_level q 0 Hwf (Nat.le_0_l _)) as (L0 & EL0 & Hc0 & Hlive0).
  unfold bottom in Hb. rewrite Hb in EL0. inversion EL0; subst L0. clear EL0.
  pose proof (chain_NoDup _ _ _ _ Hc0) as Hnd0.
  pose proof (chain_not_tail _ _ _ _ Hc0) as Hnt0.
  pose proof (Hord 0 _ (Nat.le_0_l _) Hb) as Hs0.
  destruct (chain_deref _ _ _ _ (head_ q) Hc0 (list_elem_of_here _ _)) as (h & Eh).
  assert (next_at h 0 = x) as Eh0.
  { destruct Hc0 as (Hs & _). unfold succ_of in Hs. rewrite Eh in Hs. now inversion Hs. }
  assert (x <> tail_ q) as Hxt.
  { intros E. apply Hnt0. rewrite <- E. apply list_elem_of_here. }
  assert (x <> head_ q) as Hxh.
  { intros E. apply NoDup_cons in Hnd0 as [Hnd0 _]. apply Hnd0. rewrite <- E.
    apply list_elem_of_here. }
  assert (marked n = false) as Hm.
  { apply Forall_cons in Hlive0 as (Hx & _). apply live_node in Hx as (n' & En' & Hm).
    congruence. }
  (* the levels of the store *)
  assert (forall l, l <= MaxLevel ->
            exists L, level_nodes q l = Some L /\ chain q l (head_ q) L
                      /\ Forall (fun z => live q z = true) L
                      /\ (forall z, z ∈ L -> z ∈ (x :: xs))
                      /\ (1 <= l -> (x ∉ L) /\ L <> [])) as Hlev.
  { intros l Hl. destruct (wf_level q l Hwf Hl) as (L & EL & Hc & Hlive).
    exists L. split; [exact EL|]. split; [exact Hc|]. split; [exact Hlive|]. split.
    - apply (wf_contained_le q Hwf l 0 L (x :: xs)); [lia|exact Hl|exact EL|exact Hb].
    - intros Hl1. destruct (wf_level q 1 Hwf) as (L1 & EL1 & _); [lia|]. split.
      + intros Hx. apply (Hnot1 L1 EL1).
        apply (wf_contained_le q Hwf l 1 L L1); [exact Hl1|exact Hl|exact EL|exact EL1|].
        exact Hx.
      + destruct (wf_level q MaxLevel Hwf (Nat.le_refl _)) as (LT & ELT & _).
        destruct LT as [|T LT]; [contradiction|]. intros ->.
        assert (T ∈ @nil addr) as HT.
        { apply (wf_contained_le q Hwf MaxLevel l (T :: LT) []);
            [exact Hl|lia|exact ELT|exact EL|apply list_elem_of_here]. }
        now apply elem_of_nil in HT. }
  (* the bottom level holds a second node *)
  destruct xs as [|y rest].
  { exfalso. destruct (Hlev 1) as (L1 & _ & _ & _ & Hin & Hne); [lia|].
    destruct Hne as (Hx1 & Hne); [lia|]. destruct L1 as [|z L1]; [contradiction|].
    specialize (Hin z (list_elem_of_here _ _)).
    apply list_elem_of_singleton in Hin. subst z. apply Hx1, list_elem_of_here. }
  cbn [chain] in Hc0. destruct Hc0 as (Hs0x & _ & Hsxy & Hyt & Hcy).
  assert (next_at n 0 = y) as En0.
  { unfold succ_of in Hsxy. rewrite En in Hsxy. now inversion Hsxy. }
  assert (y <> head_ q /\ y <> x) as (Hyh & Hyx).
  { apply NoDup_cons in Hnd0 as (Hh & Hnd0). apply NoDup_cons in Hnd0 as (Hx & _).
    split; intros E.
    - apply Hh. rewrite <- E. apply list_elem_of_further, list_elem_of_here.
    - apply Hx. rewrite <- E. apply list_elem_of_here. }
  assert (forall z, z ∈ y :: rest -> (value n <= value_at q z)%Z) as Hmin.
  { intros z Hz. pose proof (sorted_after (value_at q) [] x (y :: rest) z Hs0 Hz) as H.
    unfold value_at at 1 in H. now rewrite En in H. }
  destruct (live_node q y) as (ny & Ey & Hmy).
  { apply Forall_cons in Hlive0 as (_ & Hl). now apply Forall_cons in Hl as (Hl & _). }
  assert (value n <= value ny)%Z as Hvy.
  { specialize (Hmin y (list_elem_of_here _ _)). unfold value_at in Hmin.
    now rewrite Ey in Hmin. }
  assert (forall l, 1 <= l -> l <= MaxLevel ->
            exists nF, next_at h l <> x /\ next_at h l <> tail_ q
                       /\ deref q (next_at h l) = Ok nF /\ marked nF = false
                       /\ (value n <= value nF)%Z) as Hupper.
  { intros l Hl1 Hl. destruct (Hlev l Hl) as (L & _ & Hc & Hlive & Hin & Hne).
    destruct (Hne Hl1) as (Hx & HL). destruct L as [|F L]; [contradiction|].
    pose proof (chain_not_tail _ _ _ _ Hc) as HtL.
    cbn [chain] in Hc. destruct Hc as (HsF & HFt & _).
    unfold succ_of in HsF. rewrite Eh in HsF. inversion HsF as [EF]. rewrite EF.
    apply Forall_cons in Hlive as (HF & _). apply live_node in HF as (nF & EnF & HmF).
    exists nF. split; [intros E; apply Hx; rewrite <- E; apply list_elem_of_here|].
    split; [exact HFt|]. split; [exact EnF|]. split; [exact HmF|].
    specialize (Hin F (list_elem_of_here _ _)).
    apply elem_of_cons in Hin as [E|Hin].
    - exfalso. apply Hx. rewrite <- E. apply list_elem_of_here.
    - specialize (Hmin F Hin). unfold value_at in Hmin. now rewrite EnF in Hmin. }
  pose proof (wf_sound q _ h Hwf Eh) as Hlen.
  pose proof (pbo_pop q x y h n ny) as Hpop.
  repeat match type of Hpop with
         | ?A -> _ => let H := fresh in
                      assert A as H by assumption; specialize (Hpop H); clear H
         end.
  specialize (Hpop fuel). cbv zeta in Hpop.
  set (q1 := store_marked q x true) in *.
  set (q2 := store_next q1 (head_ q) 0 y) in *.
  (* the store after the call *)
  assert (forallb sound_cell (cells (mem q1)) = true) as Hs1
    by (apply sound_update; [reflexivity|exact Hsound]).
  assert (forallb sound_cell (cells (mem q2)) = true) as Hs2
    by (now apply sound_store_next).
  assert (forall z, z <> x -> z <> head_ q -> deref q2 z = deref q z) as Hd2.
  { intros z Hzx Hzh. unfold q2, store_next. rewrite deref_update_ne by exact Hzh.
    unfold q1, store_marked. now rewrite deref_update_ne. }
  assert (forall z l, l <= MaxLevel ->
            succ_of q2 l z
            = match succ_of q l z with
              | Some s => Some (if (head_ q =? z) && (0 =? l) then y else s)
              | None => None
              end) as Hsucc2.
  { intros z l Hl. unfold q2. rewrite succ_of_store by assumption.
    unfold q1. now rewrite succ_of_store_marked. }
  assert (forall z, z <> x -> live q2 z = live q z) as Hlive2.
  { intros z Hz. apply eq_true_iff_eq. rewrite !live_node_marked.
    unfold q2. rewrite node_marked_store_next. unfold node_marked, q1, store_marked.
    now rewrite deref_update_ne. }
  assert (forall z, value_at q2 z = value_at q z) as Hval2.
  { intros z. unfold q2, store_next. rewrite value_at_update by reflexivity.
    unfold q1, store_marked. now apply value_at_update. }
  assert (forall l, l <= MaxLevel ->
            exists L, level_nodes q l = Some L
                      /\ level_nodes q2 l = Some (if l =? 0 then y :: rest else L)) as Hlev2.
  { intros l Hl. destruct (Hlev l Hl) as (L & EL & Hc & _ & _ & _).
    exists L. split; [exact EL|]. apply chain_level_nodes.
    change (head_ q2) with (head_ q).
    destruct (Nat.eqb_spec l 0) as [->|Hl0].
    - cbn [chain]. rewrite Hsucc2, Hs0x, !Nat.eqb_refl by lia. cbn [andb].
      split; [reflexivity|]. split; [exact Hyt|].
      apply (chain_ext q); [reflexivity| |exact Hcy].
      intros z Hz. rewrite Hsucc2 by lia.
      destruct (Nat.eqb_spec (head_ q) z) as [E|_].
      + exfalso. apply NoDup_cons in Hnd0 as (Hh & _). apply Hh. rewrite E.
        now apply list_elem_of_further.
      + cbn [andb]. now destruct (succ_of q 0 z).
    - apply (chain_ext q); [reflexivity| |exact Hc].
      intros z Hz. rewrite Hsucc2 by exact Hl.
      destruct (Nat.eqb_spec 0 l); [lia|]. rewrite andb_false_r.
      now destruct (succ_of q l z). }
  assert (well_formed q2 = true) as Hwf2.
  { unfold well_formed. rewrite !andb_true_iff. repeat split.
    - exact Hs2.
    - unfold tail_ok in *. change (tail_ q2) with (tail_ q).
      rewrite Hd2 by congruence. exact Htok.
    - apply forallb_forall. intros l Hl. apply in_seq in Hl.
      destruct (Hlev2 l) as (L & EL & EL2); [lia|]. unfold level_ok. rewrite EL2.
      destruct (Hlev l) as (L' & EL' & _ & Hlive & _ & Hne); [lia|].
      rewrite EL in EL'. inversion EL'; subst L'. clear EL'.
      apply forallb_forall. intros z Hz. apply list_elem_of_In in Hz.
      destruct (Nat.eqb_spec l 0) as [->|Hl0].
      + rewrite Hb in EL. inversion EL; subst L.
        rewrite Hlive2.
        * rewrite Forall_forall in Hlive. apply Hlive. now apply list_elem_of_further.
        * intros ->. apply NoDup_cons in Hnd0 as (_ & Hnd0).
          apply NoDup_cons in Hnd0 as (Hx & _). contradiction.
      + destruct Hne as (Hx & _); [lia|]. rewrite Hlive2.
        * rewrite Forall_forall in Hlive. now apply Hlive.
        * intros ->. contradiction.
    - apply forallb_forall. intros l Hl. apply in_seq in Hl.
      destruct (Hlev2 (S l)) as (Lh & ELh & ELh2); [lia|].
      destruct (Hlev2 l) as (Ll & ELl & ELl2); [lia|].
      unfold contained. rewrite ELh2, ELl2. cbn [Nat.eqb].
      apply forallb_forall. intros z Hz. apply list_elem_of_In in Hz.
      apply existsb_elem.
      destruct (Hlev (S l)) as (Lh' & ELh' & _ & _ & Hin & Hne); [lia|].
      rewrite ELh in ELh'. inversion ELh'; subst Lh'. clear ELh'.
      destruct Hne as (Hx & _); [lia|].
      destruct (Nat.eqb_spec l 0) as [->|Hl0].
      + specialize (Hin z Hz). apply elem_of_cons in Hin as [->|Hin];
          [contradiction|exact Hin].
      + apply (wf_contained_le q Hwf (S l) l Lh Ll); [lia|lia|exact ELh|exact ELl|exact Hz]. }
  assert (levels_ordered q2) as Hord2.
  { intros l L Hl EL. destruct (Hlev2 l Hl) as (L' & EL' & EL2).
    rewrite EL in EL2. inversion EL2; subst L. clear EL2.
    erewrite map_ext by (intros z; apply Hval2).
    destruct (Nat.eqb_spec l 0) as [->|_].
    - cbn [map] in Hs0. now inversion Hs0.
    - exact (Hord l L' Hl EL'). }
  exists y, rest. split; [reflexivity|]. cbv zeta.
  split; [unfold value_at; rewrite En; exact Hpop|].
  split; [exact Hwf2|]. split; [exact Hord2|]. split.
  { unfold bottom. destruct (Hlev2 0 (Nat.le_0_l _)) as (L & _ & EL2). exact EL2. }
  split.
  { intros l Hl1 Hl. destruct (Hlev2 l Hl) as (L & EL & EL2).
    change (level_nodes q2 l = level_nodes q l).
    rewrite EL, EL2. destruct (Nat.eqb_spec l 0); [lia|reflexivity]. }
  split; [exact Hd2|]. split.
  { change (node_marked q2 x = Some true). unfold node_marked, q2, store_next.
    rewrite deref_update_ne by exact Hxh. unfold q1, store_marked.
    now rewrite deref_update, En, Nat.eqb_refl. }
  split.
  { change (succ_of q2 0 (head_ q) = Some y).
    rewrite Hsucc2, Hs0x, !Nat.eqb_refl by lia. reflexivity. }
  split; [now exists ny|]. split; [exact Hyx|]. split; [exact Hyh|].
  change (length (cells (mem q2)) = length (cells (mem q))).
  unfold q2, store_next. rewrite cells_length_update.
  unfold q1, store_marked. apply cells_length_update.
Qed.

(** One [pop] on a well-formed store whose first node stands on the bottom
    level only, below a node of full height, when [retire] gets the block
    it may need: the call returns the key of that node, the bottom level
    loses it, the levels above are as before, and the node behind it is what
    the domain is handed. *)
Lemma pop_bottom_only_step fuel q x xs :
  well_formed q = true -> levels_ordered q ->
  bottom q = Some (x :: xs) -> bottom_only q x ->
  level_nodes q MaxLevel <> Some [] ->
  length (HazardDomain.retired_ (domain_ q)) < HazardDomain.MAX_HAZARD_POINTERS ->
  avail (mem q) <> 0
  \/ length (HazardDomain.retired_ (domain_ q)) < retired_capacity_ q ->
  exists q' y rest,
    xs = y :: rest
    /\ pop (4 + fuel) q = Ok (q', Some (value_at q x))
    /\ well_formed q' = true /\ levels_ordered q'
    /\ bottom q' = Some xs
    /\ (forall l, 1 <= l -> l <= MaxLevel -> level_nodes q' l = level_nodes q l)
    /\ (forall z, z <> x -> z <> head_ q -> deref q' z = deref q z)
    /\ node_marked q' x = Some true
    /\ head_ q' = head_ q /\ tail_ q' = tail_ q
    /\ HazardDomain.hp_ (domain_ q') = HazardDomain.hp_ (domain_ q)
    /\ HazardDomain.retired_ (domain_ q')
       = HazardDomain.retired_ (domain_ q) ++ [HazardDomain.mkRetired y free]
    /\ count_ q' = wrap (count_ q - 1)
    /\ length (cells (mem q')) = length (cells (mem q))
    /\ avail (mem q') = avail (mem q) - (if retired_capacity_ q =? 0 then 1 else 0)
    /\ retired_capacity_ q' <> 0.
Proof.
  intros Hwf Hord Hb Hbo Htop Hret Hroom.
  destruct (pop_bottom_only_store fuel q x xs Hwf Hord Hb Hbo Htop)
    as (y & rest & -> & Hpop & Hwf2 & Hord2 & Hb2 & Hup2 & Hd2 & Hm2 & _ & _ & _ & _
        & Hlen2).
  set (q2 := store_next (store_marked q x true) (head_ q) 0 y) in *.
  destruct (retire_node_returns q2 y Hret Hroom) as (q4 & Er).
  rewrite Er in Hpop. cbn [bind noexcept] in Hpop.
  destruct (retire_node_no_scan q2 y q4 Hret Er)
    as (Ecells & Hh4 & Ht4 & Hc4 & Hd4 & Ha4 & Hcap4).
  match type of Hpop with _ = Ok (?qq, _) => set (q' := qq) in * end.
  destruct (same_store q2 q') as (Ewf & Elev & Eder);
    [exact Ecells|exact Hh4|exact Ht4|].
  exists q', y, rest. split; [reflexivity|]. split; [exact Hpop|].
  split; [now rewrite Ewf|]. split.
  { intros l L Hl EL. rewrite Elev in EL.
    erewrite map_ext; [exact (Hord2 l L Hl EL)|].
    intros z. unfold value_at. now rewrite Eder. }
  split; [unfold bottom; rewrite Elev; exact Hb2|].
  split; [intros l Hl1 Hl; rewrite Elev; now apply Hup2|].
  split; [intros z Hzx Hzh; rewrite Eder; now apply Hd2|].
  split; [unfold node_marked; rewrite Eder; exact Hm2|].
  split; [exact Hh4|]. split; [exact Ht4|].
  split; [cbn [domain_ q' with_count]; now rewrite Hd4|].
  split; [cbn [domain_ q' with_count]; now rewrite Hd4|].
  split; [cbn [count_ q' with_count]; now rewrite Hc4|].
  split; [cbn [mem q' with_count]; rewrite Ecells; exact Hlen2|].
  split; [exact Ha4|exact Hcap4].
Qed.

Lemma push_builds_low_and_tall d a :
  push 3 (one_tall d (S a)) 5 tails = Ok (low_and_tall d a).
Proof. reflexivity. Qed.

Lemma low_and_tall_ordered d a : levels_ordered (low_and_tall d a).
Proof.
  intros l L Hl EL. assert (L = if l <=? 0 then [4; 3] else [3]) as ->.
  { do 17 (destruct l as [|l]; [vm_compute in EL; now inversion EL|]).
    unfold MaxLevel in Hl. lia. }
  destruct (l <=? 0);
    [change (Sorted Z.le [5; 10]%Z)|change (Sorted Z.le [10]%Z)];
    repeat (constructor; try lia).
Qed.

Lemma low_and_tall_bottom_only d a : bottom_only (low_and_tall d a) 4.
Proof.
  split.
  - eexists. split; [reflexivity|]. split; reflexivity.
  - intros L EL. vm_compute in EL. inversion EL; subst L. intros H.
    apply list_elem_of_singleton in H. discriminate H.
Qed.

(** X23.  On a well-formed store with ordered levels, a [pop] whose front
    node stands on the bottom level only (height [0]) while some node has
    full height returns the key of the front node and takes exactly that
    node off the bottom level; the levels above are untouched and the store
    stays well formed and ordered.  The node handed to the domain is the
    next node of the bottom level, which stays linked.  The call of [retire]
    stays below the threshold of [scan], and the vector of retired records
    has room left or the allocator can provide the block it grows into
    (without it the [std::bad_alloc] ends the program inside [pop]). *)
Theorem pop_takes_a_bottom_only_node_off_the_bottom_level fuel q x xs :
  well_formed q = true -> levels_ordered q ->
  bottom q = Some (x :: xs) -> bottom_only q x ->
  level_nodes q MaxLevel <> Some [] ->
  length (HazardDomain.retired_ (domain_ q)) < HazardDomain.MAX_HAZARD_POINTERS ->
  avail (mem q) <> 0
  \/ length (HazardDomain.retired_ (domain_ q)) < retired_capacity_ q ->
  exists q',
    pop (4 + fuel) q = Ok (q', Some (value_at q x))
    /\ well_formed q' = true /\ levels_ordered q'
    /\ bottom q' = Some xs
    /\ (forall l, 1 <= l -> l <= MaxLevel -> level_nodes q' l = level_nodes q l)
    /\ node_marked q' x = Some true
    /\ retired_addrs q' = retired_addrs q ++ [hd nullptr xs]
    /\ size q' = wrap (size q - 1).
Proof.
  intros Hwf Hord Hb Hbo Htop Hret Hroom.
  destruct (pop_bottom_only_step fuel q x xs Hwf Hord Hb Hbo Htop Hret Hroom)
    as (q' & y & rest & -> & Hpop & Hwf' & Hord' & Hb' & Hup & _ & Hm & _ & _ & _
        & Hr & Hc & _).
  exists q'. repeat (split; [assumption|]). split.
  - unfold retired_addrs. rewrite Hr, map_app. reflexivity.
  - exact Hc.
Qed.

Lemma pop_takes_a_bottom_only_node_off_the_bottom_level_witness :
  exists q',
    pop (4 + 0) (low_and_tall HazardDomain.init 1) = Ok (q', Some 5%Z)
    /\ well_formed q' = true
    /\ bottom q' = Some [3]
    /\ retired_addrs q' = [3].
Proof.
  destruct (pop_takes_a_bottom_only_node_off_the_bottom_level
              0 (low_and_tall HazardDomain.init 1) 4 [3])
    as (q' & E & Hwf & _ & Hb & _ & _ & Hr & _).
  - reflexivity.
  - apply low_and_tall_ordered.
  - reflexivity.
  - apply low_and_tall_bottom_only.
  - vm_compute. discriminate.
  - cbn. unfold HazardDomain.MAX_HAZARD_POINTERS. lia.
  - left. cbn. discriminate.
  - exists q'. split; [exact E|]. split; [exact Hwf|]. split; [exact Hb|exact Hr].
Defined.

Lemma sorted_app_l (X Y : list Z) : Sorted Z.le (X ++ Y) -> Sorted Z.le X.
Proof.
  induction X as [|a X IH]; intros H; [constructor|].
  cbn [app] in H. inversion H as [|? ? H1 H2]; subst. constructor.
  - now apply IH.
  - destruct X; [constructor|]. inversion H2; subst. now constructor.
Qed.

(** A run of pops over bottom-only nodes.  The allocator can provide a
    block at every call of [retire], after the one the vector keeps when it
    had none. *)
Lemma pops_drain fuel : forall xs q rest,
  well_formed q = true -> levels_ordered q ->
  bottom q = Some (xs ++ rest) ->
  Forall (bottom_only q) xs ->
  level_nodes q MaxLevel <> Some [] ->
  length (HazardDomain.retired_ (domain_ q)) + length xs
  <= HazardDomain.MAX_HAZARD_POINTERS ->
  1 + (if retired_capacity_ q =? 0 then 1 else 0) <= avail (mem q) ->
  exists q',
    run (4 + fuel) q (repeat Pop (length xs))
    = Ok (q', map (fun x => Some (value_at q x)) xs)
    /\ Sorted Z.le (map (value_at q) xs)
    /\ well_formed q' = true /\ levels_ordered q'
    /\ bottom q' = Some rest
    /\ bottom_values q' = Some (map (value_at q) rest)
    /\ (forall l, 1 <= l -> l <= MaxLevel -> level_nodes q' l = level_nodes q l)
    /\ head_ q' = head_ q /\ tail_ q' = tail_ q
    /\ length (cells (mem q')) = length (cells (mem q))
    /\ length (HazardDomain.retired_ (domain_ q'))
       = length (HazardDomain.retired_ (domain_ q)) + length xs
    /\ 1 + (if retired_capacity_ q' =? 0 then 1 else 0) <= avail (mem q')
    /\ avail (mem q)
       <= avail (mem q') + (if retired_capacity_ q =? 0 then 1 else 0).
Proof.
  induction xs as [|x xs IH]; intros q rest Hwf Hord Hb Hall Htop Hret Hav.
  - exists q. cbn [length repeat run map]. split; [reflexivity|].
    split; [constructor|]. split; [exact Hwf|]. split; [exact Hord|].
    split; [exact Hb|]. split; [unfold bottom_values; cbn [app] in Hb; now rewrite Hb|].
    split; [reflexivity|]. do 3 (split; [reflexivity|]). split; [lia|].
    split; [exact Hav|lia].
  - apply Forall_cons in Hall as (Hx & Hall). cbn [length] in Hret.
    cbn [app] in Hb.
    pose proof (chain_NoDup _ _ _ _ (level_nodes_chain _ _ _ Hb)) as Hnd.
    destruct (pop_bottom_only_step fuel q x (xs ++ rest) Hwf Hord Hb Hx Htop)
      as (q1 & y & rest1 & Exs & Hpop & Hwf1 & Hord1 & Hb1 & Hup1 & Hd1 & _ & Hh1 & Ht1
          & _ & Hr1 & _ & Hlen1 & Ha1 & Hcap1); [lia|left; lia|].
    assert (forall z, z ∈ xs ++ rest -> deref q1 z = deref q z) as Hsame.
    { intros z Hz. apply Hd1; intros ->.
      - apply NoDup_cons in Hnd as (_ & Hnd). apply NoDup_cons in Hnd as (Hnd & _).
        contradiction.
      - apply NoDup_cons in Hnd as (Hnd & _). apply Hnd. now apply list_elem_of_further. }
    assert (forall z, z ∈ xs ++ rest -> value_at q1 z = value_at q z) as Hval.
    { intros z Hz. unfold value_at. now rewrite Hsame. }
    assert (1 <= MaxLevel) as H1M by (unfold MaxLevel; lia).
    destruct (IH q1 rest Hwf1 Hord1 Hb1) as
      (q' & Erun & Hs & Hwf' & Hord' & Hb' & Hbv' & Hup' & Hh' & Ht' & Hlen' & Hr'
       & Hav' & Hle').
    { apply Forall_forall. intros z Hz. rewrite Forall_forall in Hall.
      destruct (Hall z Hz) as ((nz & Enz & Hz1) & Hz2). split.
      - exists nz. split; [|exact Hz1].
        rewrite Hsame; [exact Enz|]. apply elem_of_app. now left.
      - intros L EL. rewrite Hup1 in EL by lia. now apply Hz2. }
    { rewrite Hup1 by lia. exact Htop. }
    { rewrite Hr1, length_app. cbn [length]. lia. }
    { rewrite Ha1. destruct (Nat.eqb_spec (retired_capacity_ q1) 0); [contradiction|].
      destruct (retired_capacity_ q =? 0); lia. }
    exists q'. split.
    { cbn [length repeat run map]. rewrite Hpop. cbn [bind]. rewrite Erun. cbn [bind].
      do 3 f_equal. apply map_ext_in. intros z Hz. f_equal. apply Hval, elem_of_app.
      left. now apply list_elem_of_In. }
    split.
    { pose proof (Hord 0 _ (Nat.le_0_l _) Hb) as Hsorted.
      change (x :: xs ++ rest) with ((x :: xs) ++ rest) in Hsorted.
      rewrite map_app in Hsorted. exact (sorted_app_l _ _ Hsorted). }
    split; [exact Hwf'|]. split; [exact Hord'|]. split; [exact Hb'|]. split.
    { rewrite Hbv'. f_equal. apply map_ext_in. intros z Hz. apply Hval, elem_of_app.
      right. now apply list_elem_of_In. }
    split; [intros l Hl1 Hl; rewrite Hup' by assumption; now apply Hup1|].
    split; [congruence|]. split; [congruence|]. split; [congruence|].
    split; [rewrite Hr', Hr1, length_app; cbn [length]; lia|].
    split; [exact Hav'|].
    rewrite Ha1 in Hle'.
    destruct (Nat.eqb_spec (retired_capacity_ q1) 0); [contradiction|].
    destruct (retired_capacity_ q =? 0); lia.
Qed.

(** X24.  Pops drain bottom-only nodes in key order: when the first nodes of
    the bottom level stand on that level only and some node has full height,
    as many pops as there are such nodes all return, and they return the
    keys of these nodes from front to back, which is ascending order; the
    rest of the bottom level and the levels above stay as they are.  The
    retired list stays below the scan threshold, and the allocator can
    provide two blocks: the one the vector of retired records keeps when
    it has none, and the one it needs while it grows. *)
Theorem pops_drain_bottom_only_nodes_in_key_order fuel : forall xs q rest,
  well_formed q = true -> levels_ordered q ->
  bottom q = Some (xs ++ rest) ->
  Forall (bottom_only q) xs ->
  level_nodes q MaxLevel <> Some [] ->
  length (HazardDomain.retired_ (domain_ q)) + length xs
  <= HazardDomain.MAX_HAZARD_POINTERS ->
  2 <= avail (mem q) ->
  exists q',
    run (4 + fuel) q (repeat Pop (length xs))
    = Ok (q', map (fun x => Some (value_at q x)) xs)
    /\ Sorted Z.le (map (value_at q) xs)
    /\ well_formed q' = true /\ levels_ordered q'
    /\ bottom q' = Some rest
    /\ bottom_values q' = Some (map (value_at q) rest)
    /\ (forall l, 1 <= l -> l <= MaxLevel -> level_nodes q' l = level_nodes q l).
Proof.
  intros xs q rest Hwf Hord Hb Hall Htop Hret Hav.
  destruct (pops_drain fuel xs q rest Hwf Hord Hb Hall Htop Hret)
    as (q' & Erun & Hs & Hwf' & Hord' & Hb' & Hbv' & Hup' & _).
  { destruct (retired_capacity_ q =? 0); lia. }
  exists q'. repeat (split; [assumption|]). exact Hup'.
Qed.

Lemma pops_drain_bottom_only_nodes_in_key_order_witness :
  exists q',
    run (4 + 0) (low_and_tall HazardDomain.init 2) (repeat Pop 1) = Ok (q', [Some 5%Z])
    /\ bottom q' = Some [3].
Proof.
  destruct (pops_drain_bottom_only_nodes_in_key_order
              0 [4] (low_and_tall HazardDomain.init 2) [3])
    as (q' & E & _ & _ & _ & Hb & _).
  - reflexivity.
  - apply low_and_tall_ordered.
  - reflexivity.
  - constructor; [apply low_and_tall_bottom_only|constructor].
  - vm_compute. discriminate.
  - cbn. unfold HazardDomain.MAX_HAZARD_POINTERS. lia.
  - cbn. lia.
  - exists q'. split; [exact E|exact Hb].
Defined.

(* ------------------------------------------------------------------------- *)
(** ** Pushes of height [0] followed by pops *)
(* ------------------------------------------------------------------------- *)

Lemma run_app fuel : forall ops1 q ops2 q1 rs1,
  run fuel q ops1 = Ok (q1, rs1) ->
  run fuel q (ops1 ++ ops2)
  = let* (q2, rs2) := run fuel q1 ops2 in Ok (q2, rs1 ++ rs2).
Proof.
  induction ops1 as [|[item coin|] ops1 IH]; intros q ops2 q1 rs1 H; cbn [run app] in *.
  - inversion H; subst. now destruct (run fuel q1 ops2) as [[q2 rs2]| | | |].
  - bind_inv H. rewrite E. cbn [bind]. now apply IH.
  - bind_inv H. destruct a as [qa r]. bind_inv H. destruct a as [qb rs].
    inversion H; subst. rewrite E. cbn [bind]. rewrite (IH _ ops2 _ _ E0).
    now destruct (run fuel q1 ops2) as [[q2 rs2]| | | |].
Qed.

(** A list cut in two ways: when the front of the first cut satisfies [P]
    and the back of the second does not, the first front is a prefix of the
    second. *)
Lemma split_prefix {A} (P : A -> Prop) : forall X R N O,
  X ++ R = N ++ O -> Forall P X -> Forall (fun a => ~ P a) O ->
  exists N2, N = X ++ N2 /\ R = N2 ++ O.
Proof.
  induction X as [|a X IH]; intros R N O E HX HO.
  - exists N. split; [reflexivity|exact E].
  - apply Forall_cons in HX as (Ha & HX). destruct N as [|b N]; cbn [app] in E.
    + subst O. apply Forall_cons in HO as (Hna & _). contradiction.
    + inversion E; subst b. destruct (IH R N O H1 HX HO) as (N2 & -> & ->).
      exists N2. split; reflexivity.
Qed.

Lemma insert_key_split (v : Z) : forall X Y,
  Forall (fun a => (a < v)%Z) X ->
  match Y with [] => True | y :: _ => (v <= y)%Z end ->
  insert_key v (X ++ Y) = X ++ v :: Y.
Proof.
  induction X as [|a X IH]; intros Y HX HY; cbn [app insert_key].
  - destruct Y as [|y Y]; [reflexivity|]. cbn [insert_key].
    destruct (Z.ltb_spec y v); [lia|reflexivity].
  - apply Forall_cons in HX as (Ha & HX).
    destruct (Z.ltb_spec a v); [|lia]. now rewrite IH.
Qed.

Lemma insert_key_perm (v : Z) : forall l, Permutation (v :: l) (insert_key v l).
Proof.
  induction l as [|k l IH]; cbn [insert_key]; [reflexivity|].
  destruct (k <? v)%Z; [|reflexivity].
  etransitivity; [apply perm_swap|]. now apply perm_skip.
Qed.

Lemma frame_capacity q q' :
  frame q' = frame q -> retired_capacity_ q' = retired_capacity_ q.
Proof. unfold frame. intros H. now inversion H. Qed.

(** A completed [push] leaves the vector of the domain alone. *)
Lemma push_loop_capacity fuel : forall q item lvl preds succs q',
  push_loop fuel q item lvl preds succs = Ok q' ->
  retired_capacity_ q' = retired_capacity_ q.
Proof.
  induction fuel as [|fuel IH]; intros q item lvl preds succs q' H; [discriminate H|].
  rewrite push_loop_unfold in H.
  bind_inv H. destruct a as [[[q1 b] preds1] succs1].
  apply findNode_frame, frame_capacity in E.
  bind_inv H. destruct a as [q2 newNode].
  assert (retired_capacity_ q2 = retired_capacity_ q1) as E2.
  { unfold new_node in E0. destruct (avail (mem q1)); [discriminate|].
    now inversion E0. }
  cbn zeta in H. bind_inv H.
  match type of H with
  | (if _ then _ else push_loop _ (delete ?q3 _) _ _ _ _) = _ =>
      assert (retired_capacity_ q3 = retired_capacity_ q2) as E3
        by (apply frame_capacity; rewrite init_next_frame; reflexivity)
  end.
  destruct (next_at a 0 =? at_level succs1 0).
  - bind_inv H. apply link_levels_frame, frame_capacity in E4.
    inversion H; subst.
    cbn [retired_capacity_ with_count store_fullyLinked update with_mem].
    cbn [retired_capacity_ store_next update with_mem] in E4. congruence.
  - apply IH in H. cbn [retired_capacity_ delete with_mem] in H. congruence.
Qed.

(** One push of height [0] in front of the keys that were there. *)
Lemma push_low_step fuel q v coin N O :
  randomLevel coin = 0 ->
  well_formed q = true -> levels_ordered q ->
  bottom q = Some (N ++ O) -> Forall (bottom_only q) N ->
  level_nodes q MaxLevel <> Some [] ->
  Forall (fun z => (v <= value_at q z)%Z) O ->
  avail (mem q) <> 0 -> length (cells (mem q)) + 3 <= fuel ->
  exists q1 N1,
    push fuel q v coin = Ok q1
    /\ well_formed q1 = true /\ levels_ordered q1
    /\ bottom q1 = Some (N1 ++ O) /\ Forall (bottom_only q1) N1
    /\ map (value_at q1) N1 = insert_key v (map (value_at q) N)
    /\ (forall z, z ∈ O -> value_at q1 z = value_at q z)
    /\ (forall l, 1 <= l -> l <= MaxLevel -> level_nodes q1 l = level_nodes q l)
    /\ domain_ q1 = domain_ q
    /\ length (cells (mem q1)) = S (length (cells (mem q)))
    /\ avail (mem q) = S (avail (mem q1))
    /\ retired_capacity_ q1 = retired_capacity_ q.
Proof.
  intros Hk Hwf Hord Hb Hall Htop HO Hav Hf.
  assert (1 <= MaxLevel) as H1M by (unfold MaxLevel; lia).
  (* a node of full height bounds the key *)
  assert (has_stopper q v) as Hst.
  { destruct (wf_level q MaxLevel Hwf (Nat.le_refl _)) as (LT & ELT & _).
    destruct LT as [|T LT]; [contradiction|].
    exists T, (T :: LT). split; [exact ELT|]. split; [apply list_elem_of_here|].
    assert (T ∈ N ++ O) as HT.
    { apply (wf_contained_le q Hwf MaxLevel 0 (T :: LT) (N ++ O));
        [lia|lia|exact ELT|exact Hb|apply list_elem_of_here]. }
    apply elem_of_app in HT as [HT|HT].
    - exfalso. rewrite Forall_forall in Hall. destruct (Hall T HT) as (_ & Hnot).
      destruct (wf_level q 1 Hwf H1M) as (L1 & EL1 & _). apply (Hnot L1 EL1).
      apply (wf_contained_le q Hwf MaxLevel 1 (T :: LT) L1);
        [lia|lia|exact ELT|exact EL1|apply list_elem_of_here].
    - rewrite Forall_forall in HO. now apply HO. }
  destruct (push_returns fuel q v coin Hwf Hord Hst Hav Hf) as (q1 & E1).
  destruct (push_invariant fuel q v coin q1 v Hwf Hord Hst E1) as (Hwf1 & Hord1 & _).
  destruct (push_alloc fuel q v coin q1 Hwf E1) as (Hlen1 & Hav1).
  exists q1.
  pose proof E1 as H0. apply noexcept_Ok in H0.
  pose proof (push_loop_domain _ _ _ _ _ _ _ H0) as Hdom.
  pose proof (push_loop_capacity _ _ _ _ _ _ _ H0) as Hcap.
  apply push_loop_spec in H0; [|exact Hwf|apply randomLevel_loop_le, Nat.le_0_l].
  destruct H0 as (preds & succs & Hsp & Hp).
  rewrite Hk in Hp.
  pose proof (pushed_levels _ _ _ _ _ _ _ Hwf Hsp Hp) as Hlev.
  destruct (Hlev 0 (Nat.le_0_l _)) as (A & c & B & EL & Ep & Ec & Hv & Hc & EL').
  cbn [Nat.leb] in EL'. unfold bottom in Hb. rewrite Hb in EL. inversion EL as [Ecut].
  pose proof (level_nodes_chain _ _ _ Hb) as Hchain.
  pose proof (Hord 0 _ (Nat.le_0_l _) Hb) as Hs. rewrite Ecut in Hs.
  assert (Forall (fun x => (value_at q x < v)%Z) A) as HA.
  { apply (sorted_front_below (value_at q) (head_ q) v A c B Hs).
    destruct (decide (A = [])) as [->|Hne]; [now left|right].
    rewrite <- Ep. destruct Hv as [Hv|Hv]; [|exact Hv].
    exfalso. pose proof (chain_NoDup _ _ _ _ Hchain) as Hnd.
    apply NoDup_cons in Hnd as [Hnd _]. apply Hnd.
    rewrite <- Hv, Ep, Ecut. apply elem_of_app. left. now apply last_elem. }
  destruct (split_prefix (fun x => (value_at q x < v)%Z) A (c :: B) N O)
    as (N2 & EN & ER); [now symmetry|exact HA| |].
  { apply Forall_forall. intros z Hz. rewrite Forall_forall in HO.
    specialize (HO z Hz). lia. }
  destruct Hp as (_ & _ & _ & _ & Hold & (nd & End & Hnv & Hnt & _ & Hnf & _) & _).
  set (newNode := length (cells (mem q))) in *.
  assert (forall z, z ∈ N ++ O -> exists n n', deref q z = Ok n /\ deref q1 z = Ok n'
                                             /\ same_fields n n') as Hkeep.
  { intros z Hz.
    destruct (chain_deref _ _ _ _ z Hchain (list_elem_of_further _ _ _ Hz)) as (n & En).
    destruct (Hold z n En) as (n' & En' & F & _). now exists n, n'. }
  assert (forall z, z ∈ N ++ O -> value_at q1 z = value_at q z) as Hval.
  { intros z Hz. destruct (Hkeep z Hz) as (n & n' & En & En' & F).
    exact (value_at_same q q1 z n n' En En' F). }
  assert (forall l, 1 <= l -> l <= MaxLevel -> level_nodes q1 l = level_nodes q l) as Hup.
  { intros l Hl1 Hl. destruct (Hlev l Hl) as (A' & c' & B' & E' & _ & _ & _ & _ & E1').
    destruct (Nat.leb_spec l 0); [lia|]. now rewrite E', E1'. }
  exists (A ++ newNode :: N2). split; [exact E1|]. split; [exact Hwf1|].
  split; [exact Hord1|]. split.
  { unfold bottom. rewrite EL', ER, <- app_assoc. reflexivity. }
  split.
  { apply Forall_forall. intros z Hz.
    assert (z ∈ N \/ z = newNode) as [HzN | ->].
    { rewrite EN. apply elem_of_app in Hz as [Hz|Hz]; [left; apply elem_of_app; now left|].
      apply elem_of_cons in Hz as [->|Hz]; [now right|].
      left. apply elem_of_app. now right. }
    - rewrite Forall_forall in Hall. destruct (Hall z HzN) as ((n & En & Hfl & Htl) & Hnot).
      destruct (Hkeep z) as (n0 & n' & En0 & En' & F); [apply elem_of_app; now left|].
      assert (n0 = n) by congruence. subst n0.
      destruct F as (_ & Ft & _ & Ff & _). split.
      + exists n'. split; [exact En'|]. split; congruence.
      + intros L EL1. rewrite Hup in EL1 by lia. now apply Hnot.
    - split.
      + exists nd. split; [exact End|]. split; [exact Hnf|exact Hnt].
      + intros L EL1 Hin. rewrite Hup in EL1 by lia.
        destruct (chain_deref _ _ _ _ newNode (level_nodes_chain _ _ _ EL1)
                    (list_elem_of_further _ _ _ Hin)) as (n & En).
        apply deref_lt in En. unfold newNode in En. lia. }
  split.
  { rewrite EN, !map_app. cbn [map].
    assert (value_at q1 newNode = v) as -> by (unfold value_at; now rewrite End).
    erewrite (map_ext_in (value_at q1) (value_at q) A).
    2:{ intros z Hz. apply Hval. rewrite EN. apply elem_of_app. left.
        apply elem_of_app. left. now apply list_elem_of_In. }
    erewrite (map_ext_in (value_at q1) (value_at q) N2).
    2:{ intros z Hz. apply Hval. rewrite EN. apply elem_of_app. left.
        apply elem_of_app. right. now apply list_elem_of_In. }
    symmetry. apply insert_key_split.
    - apply Forall_forall. intros u Hu.
      apply list_elem_of_In, in_map_iff in Hu as (z & <- & Hz).
      rewrite Forall_forall in HA. apply HA. now apply list_elem_of_In.
    - destruct N2 as [|c' N2]; [exact I|]. cbn [map app] in *.
      inversion ER; subst c'. exact Hc. }
  split; [intros z Hz; apply Hval, elem_of_app; now right|].
  split; [exact Hup|]. split; [exact Hdom|]. split; [exact Hlen1|].
  split; [exact Hav1|exact Hcap].
Qed.

(** A run of pushes of height [0]. *)
Lemma pushes_low fuel : forall vs q N O,
  well_formed q = true -> levels_ordered q ->
  bottom q = Some (N ++ O) -> Forall (bottom_only q) N ->
  level_nodes q MaxLevel <> Some [] ->
  Forall (fun v => Forall (fun z => (v <= value_at q z)%Z) O) vs ->
  length vs <= avail (mem q) ->
  length (cells (mem q)) + length vs + 3 <= fuel ->
  exists q1 N1,
    run fuel q (push_all (map (fun v => (v, tails)) vs)) = Ok (q1, [])
    /\ well_formed q1 = true /\ levels_ordered q1
    /\ bottom q1 = Some (N1 ++ O) /\ Forall (bottom_only q1) N1
    /\ Permutation (vs ++ map (value_at q) N) (map (value_at q1) N1)
    /\ (forall z, z ∈ O -> value_at q1 z = value_at q z)
    /\ (forall l, 1 <= l -> l <= MaxLevel -> level_nodes q1 l = level_nodes q l)
    /\ domain_ q1 = domain_ q
    /\ avail (mem q) = avail (mem q1) + length vs
    /\ retired_capacity_ q1 = retired_capacity_ q.
Proof.
  induction vs as [|v vs IH]; intros q N O Hwf Hord Hb Hall Htop HO Hav Hf.
  - exists q, N. split; [reflexivity|]. repeat (split; [assumption|]).
    split; [reflexivity|]. repeat split. cbn [length]. lia.
  - apply Forall_cons in HO as (Hv & HO). cbn [length] in Hav, Hf.
    destruct (push_low_step fuel q v tails N O eq_refl Hwf Hord Hb Hall Htop Hv) as
      (q1 & N1 & E1 & Hwf1 & Hord1 & Hb1 & Hall1 & Hins1 & Hval1 & Hup1 & Hdom1
       & Hlen1 & Hav1 & Hcap1); [lia|lia|].
    assert (Permutation (v :: map (value_at q) N) (map (value_at q1) N1)) as Hperm1
      by (rewrite Hins1; apply insert_key_perm).
    assert (1 <= MaxLevel) as H1M by (unfold MaxLevel; lia).
    destruct (IH q1 N1 O Hwf1 Hord1 Hb1 Hall1) as
      (q2 & N2 & E2 & Hwf2 & Hord2 & Hb2 & Hall2 & Hperm2 & Hval2 & Hup2 & Hdom2
       & Hav2 & Hcap2).
    { rewrite Hup1 by lia. exact Htop. }
    { apply Forall_forall. intros u Hu. rewrite Forall_forall in HO.
      specialize (HO u Hu). apply Forall_forall. intros z Hz.
      rewrite Forall_forall in HO. rewrite Hval1 by exact Hz. now apply HO. }
    { lia. }
    { lia. }
    exists q2, N2. split.
    { cbn [map push_all run fst snd]. rewrite E1. cbn [bind]. exact E2. }
    split; [exact Hwf2|]. split; [exact Hord2|]. split; [exact Hb2|].
    split; [exact Hall2|]. split.
    { etransitivity; [|exact Hperm2]. cbn [app].
      etransitivity; [apply Permutation_middle|].
      apply Permutation_app_head. exact Hperm1. }
    split; [intros z Hz; rewrite Hval2 by exact Hz; now apply Hval1|].
    split; [intros l Hl1 Hl; rewrite Hup2 by assumption; now apply Hup1|].
    split; [congruence|]. split; [cbn [length]; lia|congruence].
Qed.

(** X25.  The sorted drain, in front of a node of full height: push keys
    that are at most the keys already in the queue, each with height [0],
    then pop as many times; every call returns, and the pops return the
    pushed keys in ascending order, equal keys included.  Afterwards the
    queue holds the keys it held before.  The allocator can provide a node
    for every push and two blocks more for the vector of retired records
    (the one it keeps, and the one it needs while it grows); the retired
    list stays below the scan threshold. *)
Theorem pushes_of_height_0_then_pops_return_the_keys_in_order
    fuel q (vs old : list Z) :
  well_formed q = true -> levels_ordered q ->
  level_nodes q MaxLevel <> Some [] ->
  bottom_values q = Some old ->
  Forall (fun v => Forall (fun o => (v <= o)%Z) old) vs ->
  length vs + 2 <= avail (mem q) ->
  length (HazardDomain.retired_ (domain_ q)) + length vs
  <= HazardDomain.MAX_HAZARD_POINTERS ->
  length (cells (mem q)) + length vs + 4 <= fuel ->
  exists q' ks,
    run fuel q (push_all (map (fun v => (v, tails)) vs) ++ repeat Pop (length vs))
    = Ok (q', map Some ks)
    /\ Permutation vs ks /\ Sorted Z.le ks
    /\ well_formed q' = true /\ levels_ordered q'
    /\ bottom_values q' = Some old.
Proof.
  intros Hwf Hord Htop Hold Hle Hav Hret Hf.
  unfold bottom_values in Hold. destruct (bottom q) as [O|] eqn:Hb; [|discriminate Hold].
  cbn [option_map] in Hold. inversion Hold; subst old. clear Hold.
  destruct (pushes_low fuel vs q [] O Hwf Hord Hb) as
    (q1 & N1 & E1 & Hwf1 & Hord1 & Hb1 & Hall1 & Hperm1 & Hval1 & Hup1 & Hdom1
     & Hav1 & Hcap1).
  { constructor. }
  { exact Htop. }
  { apply Forall_forall. intros v Hv. rewrite Forall_forall in Hle.
    specialize (Hle v Hv). apply Forall_forall. intros z Hz.
    rewrite Forall_forall in Hle. apply Hle.
    apply list_elem_of_In, in_map, list_elem_of_In. exact Hz. }
  { lia. }
  { lia. }
  cbn [map] in Hperm1. rewrite app_nil_r in Hperm1.
  assert (length N1 = length vs) as HlenN.
  { apply Permutation_length in Hperm1. now rewrite length_map in Hperm1. }
  assert (1 <= MaxLevel) as H1M by (unfold MaxLevel; lia).
  replace fuel with (4 + (fuel - 4)) in * by lia.
  destruct (pops_drain (fuel - 4) N1 q1 O
              Hwf1 Hord1 Hb1 Hall1) as
    (q' & Erun & Hs & Hwf' & Hord' & Hb' & Hbv' & _).
  { rewrite Hup1 by lia. exact Htop. }
  { rewrite Hdom1, HlenN. exact Hret. }
  { destruct (retired_capacity_ q1 =? 0); lia. }
  exists q', (map (value_at q1) N1).
  split.
  { rewrite (run_app _ _ _ _ _ _ E1), <- HlenN, Erun. cbn [bind app].
    now rewrite map_map. }
  split; [exact Hperm1|]. split; [exact Hs|]. split; [exact Hwf'|].
  split; [exact Hord'|].
  rewrite Hbv'. f_equal. apply map_ext_in. intros z Hz. apply Hval1.
  now apply list_elem_of_In.
Qed.

Lemma pushes_of_height_0_then_pops_return_the_keys_in_order_witness :
  exists q' ks,
    run 11 (one_tall HazardDomain.init 5)
      (push_all (map (fun v => (v, tails)) [3; 1; 3]%Z) ++ repeat Pop 3)
    = Ok (q', map Some ks)
    /\ Permutation [3; 1; 3]%Z ks /\ Sorted Z.le ks.
Proof.
  destruct (pushes_of_height_0_then_pops_return_the_keys_in_order
              11 (one_tall HazardDomain.init 5) [3; 1; 3]%Z [10]%Z)
    as (q' & ks & E & Hp & Hs & _).
  - reflexivity.
  - apply one_tall_ordered.
  - vm_compute. discriminate.
  - reflexivity.
  - repeat (constructor; try lia).
  - cbn [length one_tall mem avail]. lia.
  - cbn. unfold HazardDomain.MAX_HAZARD_POINTERS. lia.
  - cbn [length one_tall mem cells]. lia.
  - exists q', ks. split; [exact E|]. split; [exact Hp|exact Hs].
Defined.

(** A run of pops and of pushes of height [0] against the reference; the
    allocator can provide a node for every push of the run and a block at
    every call of [retire], after the one the vector keeps when it had
    none. *)
Lemma low_runs fuel : forall ops q N O bound ks' rs,
  well_formed q = true -> levels_ordered q ->
  bottom q = Some (N ++ O) -> Forall (bottom_only q) N ->
  level_nodes q MaxLevel <> Some [] ->
  Forall (fun z => (bound <= value_at q z)%Z) O ->
  Forall (low_op bound) ops ->
  pushes ops + 1 + (if retired_capacity_ q =? 0 then 1 else 0) <= avail (mem q) ->
  length (HazardDomain.retired_ (domain_ q)) + pops ops
  <= HazardDomain.MAX_HAZARD_POINTERS ->
  length (cells (mem q)) + pushes ops + 4 <= fuel ->
  model_run (map (value_at q) N) ops = Some (ks', rs) ->
  exists q',
    run fuel q ops = Ok (q', rs)
    /\ well_formed q' = true /\ levels_ordered q'
    /\ bottom_values q' = Some (ks' ++ map (value_at q) O).
Proof.
  assert (1 <= MaxLevel) as H1M by (unfold MaxLevel; lia).
  induction ops as [|[v coin|] ops IH];
    intros q N O bound ks' rs Hwf Hord Hb Hall Htop HO Hlow Hav Hret Hf Hmodel.
  - cbn [model_run] in Hmodel. inversion Hmodel; subst ks' rs.
    exists q. split; [reflexivity|]. split; [exact Hwf|]. split; [exact Hord|].
    unfold bottom_values. rewrite Hb. cbn [option_map]. now rewrite map_app.
  - apply Forall_cons in Hlow as ((Hk & Hv) & Hlow). cbn [model_run] in Hmodel.
    change (pushes (Push v coin :: ops)) with (S (pushes ops)) in Hav, Hf.
    change (pops (Push v coin :: ops)) with (pops ops) in Hret.
    destruct (push_low_step fuel q v coin N O Hk Hwf Hord Hb Hall Htop) as
      (q1 & N1 & E1 & Hwf1 & Hord1 & Hb1 & Hall1 & Hins1 & Hval1 & Hup1 & Hdom1
       & Hlen1 & Hav1 & Hcap1); [|lia|lia|].
    { apply Forall_forall. intros z Hz. rewrite Forall_forall in HO.
      specialize (HO z Hz). lia. }
    destruct (IH q1 N1 O bound ks' rs Hwf1 Hord1 Hb1 Hall1) as
      (q' & Erun & Hwf' & Hord' & Hbv').
    { rewrite Hup1 by lia. exact Htop. }
    { apply Forall_forall. intros z Hz. rewrite Forall_forall in HO.
      rewrite Hval1 by exact Hz. now apply HO. }
    { exact Hlow. }
    { rewrite Hcap1. lia. }
    { rewrite Hdom1. exact Hret. }
    { lia. }
    { rewrite Hins1. exact Hmodel. }
    exists q'. split; [cbn [run]; rewrite E1; exact Erun|].
    split; [exact Hwf'|]. split; [exact Hord'|].
    rewrite Hbv'. do 2 f_equal. apply map_ext_in. intros z Hz. apply Hval1.
    now apply list_elem_of_In.
  - apply Forall_cons in Hlow as (_ & Hlow).
    change (pushes (Pop :: ops)) with (pushes ops) in Hav, Hf.
    change (pops (Pop :: ops)) with (S (pops ops)) in Hret.
    destruct N as [|x N]; [discriminate Hmodel|]. cbn [map model_run] in Hmodel.
    destruct (model_run (map (value_at q) N) ops) as [[ks2 rs2]|] eqn:Em;
      [|discriminate Hmodel].
    inversion Hmodel; subst ks' rs. clear Hmodel.
    apply Forall_cons in Hall as (Hx & Hall). cbn [app] in Hb.
    pose proof (chain_NoDup _ _ _ _ (level_nodes_chain _ _ _ Hb)) as Hnd.
    replace fuel with (4 + (fuel - 4)) in * by lia.
    destruct (pop_bottom_only_step (fuel - 4) q x (N ++ O) Hwf Hord Hb Hx Htop)
      as (q1 & y & rest1 & Exs & Hpop & Hwf1 & Hord1 & Hb1 & Hup1 & Hd1 & _ & Hh1 & _
          & _ & Hr1 & _ & Hlen1 & Hav1 & Hcap1); [lia|left; lia|].
    assert (forall z, z ∈ N ++ O -> deref q1 z = deref q z) as Hsame.
    { intros z Hz. apply Hd1; intros ->.
      - apply NoDup_cons in Hnd as (_ & Hnd). apply NoDup_cons in Hnd as (Hnd & _).
        contradiction.
      - apply NoDup_cons in Hnd as (Hnd & _). apply Hnd. now apply list_elem_of_further. }
    assert (forall z, z ∈ N ++ O -> value_at q1 z = value_at q z) as Hval.
    { intros z Hz. unfold value_at. now rewrite Hsame. }
    destruct (IH q1 N O bound ks2 rs2 Hwf1 Hord1 Hb1) as
      (q' & Erun & Hwf' & Hord' & Hbv').
    { apply Forall_forall. intros z Hz. rewrite Forall_forall in Hall.
      destruct (Hall z Hz) as ((nz & Enz & Hz1) & Hz2). split.
      - exists nz. split; [|exact Hz1].
        rewrite Hsame; [exact Enz|]. apply elem_of_app. now left.
      - intros L EL. rewrite Hup1 in EL by lia. now apply Hz2. }
    { rewrite Hup1 by lia. exact Htop. }
    { apply Forall_forall. intros z Hz. rewrite Forall_forall in HO.
      rewrite Hval by (apply elem_of_app; now right). now apply HO. }
    { exact Hlow. }
    { rewrite Hav1. destruct (Nat.eqb_spec (retired_capacity_ q1) 0); [contradiction|].
      destruct (retired_capacity_ q =? 0); lia. }
    { rewrite Hr1, length_app. cbn [length]. lia. }
    { lia. }
    { erewrite map_ext_in; [exact Em|]. intros z Hz. apply Hval, elem_of_app.
      left. now apply list_elem_of_In. }
    exists q'. split.
    { cbn [run]. rewrite Hpop. cbn [bind]. rewrite Erun. reflexivity. }
    split; [exact Hwf'|]. split; [exact Hord'|].
    rewrite Hbv'. do 2 f_equal. apply map_ext_in. intros z Hz. apply Hval, elem_of_app.
    right. now apply list_elem_of_In.
Qed.

(** X26.  In front of a node of full height, single-threaded runs of pops
    and of pushes of height [0] behave like a sorted list of keys: a push
    puts its key in front of the first key that is not below it, a pop
    returns and removes the first key.  As long as the reference list is
    not popped when empty, every call of the run returns, the results are
    those of the reference, and the bottom level holds the keys of the
    reference followed by the keys that were there before.  The allocator
    can provide a node for every push and two blocks more for the vector of
    retired records (the one it keeps, and the one it needs while it
    grows); the retired list stays below the scan threshold. *)
Theorem low_runs_behave_like_a_sorted_list fuel : forall ops q N O bound ks' rs,
  well_formed q = true -> levels_ordered q ->
  bottom q = Some (N ++ O) -> Forall (bottom_only q) N ->
  level_nodes q MaxLevel <> Some [] ->
  Forall (fun z => (bound <= value_at q z)%Z) O ->
  Forall (low_op bound) ops ->
  pushes ops + 2 <= avail (mem q) ->
  length (HazardDomain.retired_ (domain_ q)) + pops ops
  <= HazardDomain.MAX_HAZARD_POINTERS ->
  length (cells (mem q)) + pushes ops + 4 <= fuel ->
  model_run (map (value_at q) N) ops = Some (ks', rs) ->
  exists q',
    run fuel q ops = Ok (q', rs)
    /\ well_formed q' = true /\ levels_ordered q'
    /\ bottom_values q' = Some (ks' ++ map (value_at q) O).
Proof.
  intros ops q N O bound ks' rs Hwf Hord Hb Hall Htop HO Hlow Hav Hret Hf Hmodel.
  apply (low_runs fuel ops q N O bound ks' rs); try assumption.
  destruct (retired_capacity_ q =? 0); lia.
Qed.

Lemma low_runs_behave_like_a_sorted_list_witness :
  exists q',
    run 13 (one_tall HazardDomain.init 5)
      [Push 3 tails; Push 1 tails; Pop; Push 3 tails; Pop; Pop]
    = Ok (q', [Some 1; Some 3; Some 3]%Z)
    /\ well_formed q' = true
    /\ bottom_values q' = Some [10]%Z.
Proof.
  destruct (low_runs_behave_like_a_sorted_list
              13 [Push 3 tails; Push 1 tails; Pop; Push 3 tails; Pop; Pop]
              (one_tall HazardDomain.init 5) [] [3] 10%Z [] [Some 1; Some 3; Some 3]%Z)
    as (q' & E & Hwf & _ & Hb).
  - reflexivity.
  - apply one_tall_ordered.
  - reflexivity.
  - constructor.
  - vm_compute. discriminate.
  - repeat constructor. vm_compute. discriminate.
  - repeat constructor; try reflexivity; lia.
  - vm_compute. lia.
  - vm_compute. lia.
  - vm_compute. lia.
  - reflexivity.
  - exists q'. split; [exact E|]. split; [exact Hwf|exact Hb].
Defined.

(* ------------------------------------------------------------------------- *)
(** ** The [pop] that triggers a scan *)
(* ------------------------------------------------------------------------- *)

Section ScanAll.
Context {W : Type}.

(** At the threshold, with no hazard slot set, [retire] runs every deleter. *)
Lemma retire_scan_all (d : HazardDomain.t W) p (del : addr -> W -> W) w :
  HazardDomain.snapshot d = [] ->
  HazardDomain.MAX_HAZARD_POINTERS <= length (HazardDomain.retired_ d) ->
  HazardDomain.retire d p del w
  = (HazardDomain.mk (HazardDomain.hp_ d) [],
     HazardDomain.run_deleters
       (HazardDomain.retired_ d ++ [HazardDomain.mkRetired p del]) w).
Proof.
  intros Hs. unfold HazardDomain.retire.
  cbn [HazardDomain.retired_ HazardDomain.hp_].
  rewrite scan_filter. cbn [HazardDomain.retired_ HazardDomain.hp_].
  rewrite snapshot_hp, Hs, length_app. cbn [length].
  generalize (HazardDomain.retired_ d ++ [HazardDomain.mkRetired p del]) as rs.
  generalize HazardDomain.MAX_HAZARD_POINTERS as N. intros N rs Hle.
  destruct (Nat.ltb_spec N (length (HazardDomain.retired_ d) + 1)); [|lia].
  f_equal.
  - f_equal. unfold HazardDomain.spec_kept.
    induction rs as [|r l IH]; [reflexivity|exact IH].
  - f_equal. unfold HazardDomain.spec_deleted.
    induction rs as [|r l IH]; [reflexivity|].
    cbn [List.filter HazardDomain.protected_by existsb negb]. now f_equal.
Qed.

End ScanAll.

(** The deleters the queue registers all call [delete]. *)
Lemma run_free rs : forall w,
  Forall (fun r : HazardDomain.Retired (option Heap) => HazardDomain.deleter r = free) rs ->
  HazardDomain.run_deleters rs w
  = fold_left (fun w r => free (HazardDomain.ptr r) w) rs w.
Proof.
  unfold HazardDomain.run_deleters.
  induction rs as [|r rs IH]; intros w H; [reflexivity|].
  apply Forall_cons in H as (Hr & H). cbn [fold_left]. rewrite Hr. now apply IH.
Qed.

(** After undefined behaviour nothing is known any more. *)
Lemma frees_None (rs : list (HazardDomain.Retired (option Heap))) :
  fold_left (fun w r => free (HazardDomain.ptr r) w) rs None = None.
Proof. induction rs as [|r rs IH]; [reflexivity|exact IH]. Qed.

Lemma free_live p m n :
  p <> nullptr -> cells m !! p = Some (Some n) ->
  free p (Some m)
  = Some {| cells := <[p := None]> (cells m); avail := S (avail m) |}.
Proof.
  intros Hp E. unfold free, release.
  destruct (Nat.eqb_spec p nullptr); [contradiction|]. now rewrite E.
Qed.

Lemma free_dead p m :
  p <> nullptr -> (forall n, cells m !! p <> Some (Some n)) -> free p (Some m) = None.
Proof.
  intros Hp E. unfold free. destruct (Nat.eqb_spec p nullptr); [contradiction|].
  destruct (cells m !! p) as [[n0|]|] eqn:El; [|reflexivity..].
  exfalso. now apply (E n0).
Qed.

(** A deleter that returns has emptied at most one cell and revived none. *)
Lemma free_Some p m m1 :
  free p (Some m) = Some m1 ->
  length (cells m1) = length (cells m)
  /\ (forall z, (forall n, cells m !! z <> Some (Some n)) ->
                forall n, cells m1 !! z <> Some (Some n))
  /\ (p <> nullptr -> forall n, cells m1 !! p <> Some (Some n)).
Proof.
  unfold free, release. destruct (Nat.eqb_spec p nullptr) as [|Hp].
  - intros H. inversion H; subst m1. split; [reflexivity|]. split; [auto|contradiction].
  - destruct (cells m !! p) as [[n0|]|] eqn:El; try discriminate.
    intros H. inversion H; subst m1. cbn [cells].
    assert (p < length (cells m)) as Hlt by (eapply lookup_lt_Some, El).
    split; [apply length_insert|]. split.
    + intros z Hz n. destruct (Nat.eq_dec z p) as [->|Hne].
      * now rewrite list_lookup_insert_eq.
      * rewrite list_lookup_insert_ne by congruence. apply Hz.
    + intros _ n. now rewrite list_lookup_insert_eq.
Qed.

(** An object that is gone stays gone while deleters run. *)
Lemma frees_keep_dead (rs : list (HazardDomain.Retired (option Heap))) :
  forall m m1 z,
    fold_left (fun w r => free (HazardDomain.ptr r) w) rs (Some m) = Some m1 ->
    (forall n, cells m !! z <> Some (Some n)) ->
    forall n, cells m1 !! z <> Some (Some n).
Proof.
  induction rs as [|r rs IH]; intros m m1 z H Hz; cbn [fold_left] in H.
  - now inversion H; subst m1.
  - destruct (free (HazardDomain.ptr r) (Some m)) as [m2|] eqn:E;
      [|rewrite frees_None in H; discriminate H].
    apply (IH m2 m1 z H). now apply (free_Some _ _ _ E).
Qed.

(** Deleters that return leave every pointer they were given dead. *)
Lemma frees_dead (rs : list (HazardDomain.Retired (option Heap))) :
  forall m m1 p,
    fold_left (fun w r => free (HazardDomain.ptr r) w) rs (Some m) = Some m1 ->
    p <> nullptr -> p ∈ map HazardDomain.ptr rs ->
    forall n, cells m1 !! p <> Some (Some n).
Proof.
  induction rs as [|r rs IH]; intros m m1 p H Hp Hin; cbn [fold_left map] in *.
  - now apply elem_of_nil in Hin.
  - destruct (free (HazardDomain.ptr r) (Some m)) as [m2|] eqn:E;
      [|rewrite frees_None in H; discriminate H].
    apply elem_of_cons in Hin as [->|Hin].
    + apply (frees_keep_dead rs m2 m1 _ H). now apply (free_Some _ _ _ E).
    + now apply (IH m2 m1 p H).
Qed.

(** Deleting a pointer that is in the list a second time is undefined. *)
Lemma frees_twice (rs : list (HazardDomain.Retired (option Heap))) m p :
  p <> nullptr -> p ∈ map HazardDomain.ptr rs ->
  fold_left (fun w r => free (HazardDomain.ptr r) w)
    (rs ++ [HazardDomain.mkRetired p free]) (Some m) = None.
Proof.
  intros Hp Hin. rewrite fold_left_app. cbn [fold_left HazardDomain.ptr].
  destruct (fold_left _ rs (Some m)) as [m1|] eqn:E; [|reflexivity].
  apply free_dead; [exact Hp|]. exact (frees_dead rs m m1 p E Hp Hin).
Qed.

(** Deleting distinct live objects deletes each of them and nothing else. *)
Lemma frees_distinct (rs : list (HazardDomain.Retired (option Heap))) : forall m,
  NoDup (map HazardDomain.ptr rs) ->
  Forall (fun p => p <> nullptr /\ exists n, cells m !! p = Some (Some n))
    (map HazardDomain.ptr rs) ->
  exists m',
    fold_left (fun w r => free (HazardDomain.ptr r) w) rs (Some m) = Some m'
    /\ length (cells m') = length (cells m)
    /\ (forall z, z ∈ map HazardDomain.ptr rs -> cells m' !! z = Some None)
    /\ (forall z, z ∉ map HazardDomain.ptr rs -> cells m' !! z = cells m !! z)
    /\ avail m' = avail m + length rs.
Proof.
  induction rs as [|r rs IH]; intros m Hnd Hlive; cbn [map fold_left length] in *.
  - exists m. split; [reflexivity|]. split; [reflexivity|]. split.
    + intros z Hz. now apply elem_of_nil in Hz.
    + split; [reflexivity|lia].
  - apply NoDup_cons in Hnd as (Hnotin & Hnd).
    apply Forall_cons in Hlive as ((Hp & n & En) & Hlive).
    set (p := HazardDomain.ptr r) in *.
    assert (p < length (cells m)) as Hlt by (eapply lookup_lt_Some, En).
    rewrite (free_live p m n Hp En).
    destruct (IH {| cells := <[p := None]> (cells m); avail := S (avail m) |} Hnd)
      as (m' & E & Hlen & Hin & Hout & Hav).
    { apply Forall_forall. intros z Hz. rewrite Forall_forall in Hlive.
      destruct (Hlive z Hz) as (Hz0 & nz & Enz). split; [exact Hz0|]. exists nz.
      cbn [cells]. rewrite list_lookup_insert_ne; [exact Enz|].
      intros ->. contradiction. }
    exists m'. split; [exact E|]. cbn [cells avail] in *.
    split; [now rewrite Hlen, length_insert|]. split.
    + intros z Hz. apply elem_of_cons in Hz as [->|Hz]; [|now apply Hin].
      rewrite Hout by exact Hnotin. now apply list_lookup_insert_eq.
    + split; [|lia]. intros z Hz. apply not_elem_of_cons in Hz as (Hzp & Hz).
      rewrite Hout by exact Hz. apply list_lookup_insert_ne. congruence.
Qed.

(** [retire] at the threshold, with no hazard slot set, a vector that holds
    its records and an allocator that can provide the block of the
    snapshot: every deleter runs, the one of the new record last. *)
Lemma retire_node_scan_all q y :
  HazardDomain.snapshot (domain_ q) = [] ->
  HazardDomain.MAX_HAZARD_POINTERS <= length (HazardDomain.retired_ (domain_ q)) ->
  Forall (fun r => HazardDomain.deleter r = free) (HazardDomain.retired_ (domain_ q)) ->
  avail (mem q) <> 0 ->
  length (HazardDomain.retired_ (domain_ q)) <= retired_capacity_ q ->
  exists c,
    retire_node q y
    = match fold_left (fun w r => free (HazardDomain.ptr r) w)
              (HazardDomain.retired_ (domain_ q) ++ [HazardDomain.mkRetired y free])
              (Some (mem q)) with
      | Some m =>
          Ok {| mem := m; head_ := head_ q; tail_ := tail_ q; count_ := count_ q;
                domain_ := HazardDomain.mk (HazardDomain.hp_ (domain_ q)) [];
                retired_capacity_ := c |}
      | None => Fault DoubleFree
      end.
Proof.
  intros Hsnap Hlen Hfree Hav Hcap.
  assert (exists q1, grow_retired q = Ok q1 /\ mem q1 = mem q /\ head_ q1 = head_ q
                     /\ tail_ q1 = tail_ q /\ count_ q1 = count_ q
                     /\ domain_ q1 = domain_ q) as (q1 & Eg & Em & Eh & Et & Ec & Ed).
  { unfold grow_retired.
    destruct (Nat.ltb_spec (length (HazardDomain.retired_ (domain_ q)))
                (retired_capacity_ q)) as [Hlt|Hge].
    - exists q. repeat split.
    - destruct (avail (mem q)) as [|a] eqn:Ea; [contradiction|].
      assert (retired_capacity_ q <> 0) as Hc0.
      { assert (0 < HazardDomain.MAX_HAZARD_POINTERS) as HN
          by (unfold HazardDomain.MAX_HAZARD_POINTERS; lia).
        lia. }
      destruct (Nat.eqb_spec (retired_capacity_ q) 0); [contradiction|].
      eexists. split; [reflexivity|]. cbn [mem head_ tail_ count_ domain_].
      split; [|repeat split]. destruct (mem q) as [cs av].
      cbn [cells avail] in Ea |- *. now subst av. }
  exists (retired_capacity_ q1). unfold retire_node. rewrite Eg. cbn [bind].
  rewrite Ed, Em. cbn [HazardDomain.retired_].
  destruct (avail (mem q)) as [|a] eqn:Ea; [contradiction|].
  cbn [Nat.eqb]. rewrite andb_false_r.
  rewrite retire_scan_all by assumption.
  rewrite run_free by (apply Forall_app; split; [exact Hfree|now repeat constructor]).
  destruct (fold_left _ _ _) as [m|]; [|reflexivity].
  now rewrite Eh, Et, Ec.
Qed.

(** An object that can be read lives in its cell. *)
Lemma deref_cell q p n :
  deref q p = Ok n -> p <> nullptr /\ cells (mem q) !! p = Some (Some n).
Proof.
  unfold deref. destruct (Nat.eqb_spec p nullptr) as [|Hp]; [discriminate|].
  destruct (cells (mem q) !! p) as [[c|]|]; try discriminate.
  intros H. inversion H; subst. now split.
Qed.

(** X27.  The queue sets no hazard slot, so the [pop] whose [retire] makes
    the retired list exceed the threshold deletes every retired node at
    once, the node it has just retired included; that node is the new
    front of the bottom level, still linked and unmarked.  The queue is
    left pointing at freed memory: the next [pop] reads it.  The retired
    pointers are distinct live objects, none of them the node retired now
    (a pointer that stands in the list twice is deleted twice); the vector
    holds its records and the allocator can provide the block of the
    snapshot. *)
Theorem pop_at_the_scan_threshold_frees_the_new_front_node fuel fuel' q x y rest :
  well_formed q = true -> levels_ordered q ->
  bottom q = Some (x :: y :: rest) -> bottom_only q x ->
  level_nodes q MaxLevel <> Some [] ->
  HazardDomain.snapshot (domain_ q) = [] ->
  HazardDomain.MAX_HAZARD_POINTERS <= length (HazardDomain.retired_ (domain_ q)) ->
  Forall (fun r => HazardDomain.deleter r = free) (HazardDomain.retired_ (domain_ q)) ->
  NoDup (retired_addrs q ++ [y]) ->
  Forall (fun p => exists n, deref q p = Ok n) (retired_addrs q) ->
  avail (mem q) <> 0 ->
  length (HazardDomain.retired_ (domain_ q)) <= retired_capacity_ q ->
  exists q',
    pop (4 + fuel) q = Ok (q', Some (value_at q x))
    /\ live q y = true
    /\ HazardDomain.retired_ (domain_ q') = []
    /\ deref q' y = Fault UseAfterFree
    /\ pop (S fuel') q' = Fault UseAfterFree.
Proof.
  intros Hwf Hord Hb Hbo Htop Hsnap Hlen Hfree Hnd Hobj Hav Hcap.
  destruct (pop_bottom_only_store fuel q x (y :: rest) Hwf Hord Hb Hbo Htop)
    as (y0 & rest0 & Exs & Hpop & Hwf2 & _ & Hb2 & _ & _ & _ & Hs2 & (ny & Ey) & Hyx & Hyh
        & Hlen2).
  inversion Exs; subst y0 rest0. clear Exs.
  set (q2 := store_next (store_marked q x true) (head_ q) 0 y) in *.
  (* the node behind the front *)
  assert (live q y = true) as Hlive.
  { destruct (wf_level q 0 Hwf (Nat.le_0_l _)) as (L0 & EL0 & _ & Hl0).
    unfold bottom in Hb. rewrite Hb in EL0. inversion EL0; subst L0.
    apply Forall_cons in Hl0 as (_ & Hl0). now apply Forall_cons in Hl0 as (Hl0 & _). }
  destruct (deref_lt _ _ _ Ey) as (Hy0 & Hylt).
  assert (y <> tail_ q) as Hyt.
  { unfold bottom in Hb. apply level_nodes_chain, chain_not_tail in Hb.
    intros E. apply Hb. rewrite <- E. apply list_elem_of_further, list_elem_of_here. }
  assert (forall p n, deref q p = Ok n -> exists n', deref q2 p = Ok n') as Hkeep.
  { intros p n E. unfold q2, store_next, store_marked.
    rewrite !deref_update, E. eexists. reflexivity. }
  (* what the scan leaves of the store *)
  set (rs := HazardDomain.retired_ (domain_ q)) in *.
  destruct (retire_node_scan_all q2 y Hsnap Hlen Hfree Hav Hcap) as (c & Er).
  change (domain_ q2) with (domain_ q) in Er. fold rs in Er.
  destruct (frees_distinct (rs ++ [HazardDomain.mkRetired y free]) (mem q2))
    as (m & Em & Hlm & Hin & Hout & _).
  { rewrite map_app. exact Hnd. }
  { rewrite map_app. apply Forall_app. split.
    - apply Forall_forall. intros p Hp. rewrite Forall_forall in Hobj.
      destruct (Hobj p Hp) as (n & En). destruct (Hkeep p n En) as (n' & En').
      apply deref_cell in En' as (Hp0 & Ec). split; [exact Hp0|now exists n'].
    - repeat constructor; [exact Hy0|]. destruct (Hkeep y ny Ey) as (n' & En').
      apply deref_cell in En' as (_ & Ec). now exists n'. }
  rewrite Em in Er. rewrite Er in Hpop. cbn [bind noexcept count_] in Hpop.
  match type of Hpop with _ = Ok (?qq, _) => set (q' := qq) in * end.
  assert (cells (mem q') !! y = Some None) as Hcy.
  { apply Hin. rewrite map_app. apply elem_of_app. right. apply list_elem_of_here. }
  assert (deref q' y = Fault UseAfterFree) as Hdy.
  { unfold deref. destruct (Nat.eqb_spec y nullptr); [contradiction|]. now rewrite Hcy. }
  unfold succ_of in Hs2. destruct (deref q2 (head_ q)) as [h2| | | |] eqn:Eh2;
    try discriminate Hs2.
  assert (next_at h2 0 = y) as Eh2y by (now inversion Hs2). clear Hs2.
  destruct (deref_cell _ _ _ Eh2) as (Hh0 & Ech).
  (* the head sentinel is freed as well when it stands in the list *)
  assert (deref q' (head_ q) = Fault UseAfterFree \/ deref q' (head_ q) = Ok h2)
    as Hhead.
  { unfold deref. destruct (Nat.eqb_spec (head_ q) nullptr); [contradiction|].
    change (cells (mem q')) with (cells m).
    destruct (decide (head_ q ∈ map HazardDomain.ptr (rs ++ [HazardDomain.mkRetired y free])))
      as [Hi|Hni].
    - left. now rewrite (Hin _ Hi).
    - right. now rewrite (Hout _ Hni), Ech. }
  exists q'. split; [exact Hpop|]. split; [exact Hlive|].
  split; [reflexivity|]. split; [exact Hdy|].
  (* the next call *)
  unfold pop. rewrite pop_loop_unfold. change (head_ q') with (head_ q).
  change (tail_ q') with (tail_ q).
  destruct Hhead as [Eh'|Eh']; rewrite Eh'; [reflexivity|].
  cbn [bind]. cbn zeta. rewrite Eh2y.
  destruct (Nat.eqb_spec y (tail_ q)); [contradiction|].
  rewrite Hdy. reflexivity.
Qed.

Lemma objects_forallb q ps :
  forallb (fun p => match deref q p with Ok _ => true | _ => false end) ps = true ->
  Forall (fun p => exists n, deref q p = Ok n) ps.
Proof.
  intros H. apply Forall_forall. intros p Hp.
  rewrite forallb_forall in H. specialize (H p (proj1 (list_elem_of_In _ _) Hp)).
  destruct (deref q p) as [n| | | |]; try discriminate H. now exists n.
Qed.

Lemma low_and_tall_beside_ordered : levels_ordered (low_and_tall_beside 128 1).
Proof.
  intros l L Hl EL. assert (L = if l <=? 0 then [4; 3] else [3]) as ->.
  { do 17 (destruct l as [|l]; [vm_compute in EL; now inversion EL|]).
    unfold MaxLevel in Hl. lia. }
  destruct (l <=? 0);
    [change (Sorted Z.le [5; 10]%Z)|change (Sorted Z.le [10]%Z)];
    repeat (constructor; try lia).
Qed.

Lemma pop_at_the_scan_threshold_frees_the_new_front_node_witness :
  exists q',
    pop (4 + 0) (low_and_tall_beside 128 1) = Ok (q', Some 5%Z)
    /\ deref q' 3 = Fault UseAfterFree
    /\ pop (S 0) q' = Fault UseAfterFree.
Proof.
  destruct (pop_at_the_scan_threshold_frees_the_new_front_node
              0 0 (low_and_tall_beside 128 1) 4 3 [])
    as (q' & E & _ & _ & Hd & Hp).
  - vm_compute. reflexivity.
  - apply low_and_tall_beside_ordered.
  - vm_compute. reflexivity.
  - split.
    + eexists. split; [reflexivity|]. split; reflexivity.
    + intros L EL. vm_compute in EL. inversion EL; subst L. intros H.
      apply list_elem_of_singleton in H. discriminate H.
  - vm_compute. discriminate.
  - vm_compute. reflexivity.
  - apply Nat.leb_le. vm_compute. reflexivity.
  - apply Forall_forall. intros r Hr.
    apply list_elem_of_In, in_map_iff in Hr as (p & <- & _). reflexivity.
  - apply (bool_decide_eq_true_1 (NoDup _)). vm_compute. reflexivity.
  - apply objects_forallb. vm_compute. reflexivity.
  - cbn. discriminate.
  - apply Nat.leb_le. vm_compute. reflexivity.
  - exists q'. split; [exact E|]. split; [exact Hd|exact Hp].
Defined.

(* ------------------------------------------------------------------------- *)
(** ** A node retired twice *)
(* ------------------------------------------------------------------------- *)

(** X30.  [pop] retires the node behind the one it returns, which stays in
    the queue, so the same node is retired again by a later [pop] (the
    tall node, by every [pop] of the node in front of it).  The scan then
    calls [delete] on it once for each record: the [pop] whose [retire]
    reaches the threshold while the node it retires is in the list already
    deletes that node twice. *)
Theorem pop_retiring_a_node_again_deletes_it_twice fuel q x y rest :
  well_formed q = true -> levels_ordered q ->
  bottom q = Some (x :: y :: rest) -> bottom_only q x ->
  level_nodes q MaxLevel <> Some [] ->
  HazardDomain.snapshot (domain_ q) = [] ->
  HazardDomain.MAX_HAZARD_POINTERS <= length (HazardDomain.retired_ (domain_ q)) ->
  Forall (fun r => HazardDomain.deleter r = free) (HazardDomain.retired_ (domain_ q)) ->
  y ∈ retired_addrs q ->
  avail (mem q) <> 0 ->
  length (HazardDomain.retired_ (domain_ q)) <= retired_capacity_ q ->
  pop (4 + fuel) q = Fault DoubleFree.
Proof.
  intros Hwf Hord Hb Hbo Htop Hsnap Hlen Hfree Hy Hav Hcap.
  destruct (pop_bottom_only_store fuel q x (y :: rest) Hwf Hord Hb Hbo Htop)
    as (y0 & rest0 & Exs & Hpop & _ & _ & _ & _ & _ & _ & _ & (ny & Ey) & _).
  inversion Exs; subst y0 rest0. clear Exs.
  set (q2 := store_next (store_marked q x true) (head_ q) 0 y) in *.
  destruct (deref_lt _ _ _ Ey) as (Hy0 & _).
  destruct (retire_node_scan_all q2 y Hsnap Hlen Hfree Hav Hcap) as (c & Er).
  change (domain_ q2) with (domain_ q) in Er.
  rewrite (frees_twice (HazardDomain.retired_ (domain_ q)) (mem q2) y Hy0 Hy) in Er.
  rewrite Hpop, Er. reflexivity.
Qed.

Lemma pop_retiring_a_node_again_deletes_it_twice_witness :
  pop (4 + 0) (low_and_tall (tall_retired 128) 1) = Fault DoubleFree.
Proof.
  apply (pop_retiring_a_node_again_deletes_it_twice
           0 (low_and_tall (tall_retired 128) 1) 4 3 []).
  - reflexivity.
  - apply low_and_tall_ordered.
  - reflexivity.
  - apply low_and_tall_bottom_only.
  - vm_compute. discriminate.
  - vm_compute. reflexivity.
  - apply Nat.leb_le. vm_compute. reflexivity.
  - apply Forall_forall. intros r Hr.
    apply elem_of_replicate in Hr as (-> & _). reflexivity.
  - apply list_elem_of_In. vm_compute. now left.
  - cbn. discriminate.
  - apply Nat.leb_le. vm_compute. reflexivity.
Defined.

(** The rounds that lead there: a push in front of the tall node and a pop,
    again and again.  Each pop retires the tall node; after [128] rounds
    the list holds [128] records of it, and the pop of round [129] runs the
    scan that deletes it twice. *)
Lemma rounds_of_push_and_pop_end_in_a_double_delete :
  (exists q', run 6 (one_tall HazardDomain.init 131) (rounds 128)
              = Ok (q', repeat (Some 5%Z) 128)
              /\ retired_addrs q' = repeat 3 128
              /\ bottom_values q' = Some [10%Z])
  /\ run 6 (one_tall HazardDomain.init 131) (rounds 129) = Fault DoubleFree.
Proof.
  split; [eexists; split; [vm_compute; reflexivity|split; reflexivity]|].
  vm_compute. reflexivity.
Qed.

(* ------------------------------------------------------------------------- *)
(** ** The destructor after a [pop] *)
(* ------------------------------------------------------------------------- *)

(** X28.  What is left when a queue is destroyed after a [pop]: the popped
    node, which [pop] marked and unlinked but did not retire, is still
    allocated and nothing refers to it any more, while the node [pop]
    retired in its place has been deleted by the destructor and its record
    is still in the retired list of the domain, whose next scan deletes it
    a second time.  ([pop] returns: the vector of retired records has room
    left or the allocator can provide the block it grows into.) *)
Theorem destructor_after_pop_leaks_the_popped_node fuel fuel' q x xs :
  well_formed q = true -> levels_ordered q ->
  bottom q = Some (x :: xs) -> bottom_only q x ->
  level_nodes q MaxLevel <> Some [] ->
  length (HazardDomain.retired_ (domain_ q)) < HazardDomain.MAX_HAZARD_POINTERS ->
  avail (mem q) <> 0
  \/ length (HazardDomain.retired_ (domain_ q)) < retired_capacity_ q ->
  x ∉ retired_addrs q ->
  length xs + 2 <= fuel' ->
  exists q1 q2 y n,
    pop (4 + fuel) q = Ok (q1, Some (value_at q x))
    /\ destroy fuel' q1 = Ok q2
    /\ cells (mem q2) !! x = Some (Some n) /\ marked n = true
    /\ (x ∉ retired_addrs q2)
    /\ hd_error xs = Some y
    /\ cells (mem q2) !! y = Some None
    /\ y ∈ retired_addrs q2.
Proof.
  intros Hwf Hord Hb Hbo Htop Hret Hroom Hxr Hf.
  pose proof (chain_NoDup _ _ _ _ (level_nodes_chain _ _ _ Hb)) as Hnd.
  pose proof (chain_not_tail _ _ _ _ (level_nodes_chain _ _ _ Hb)) as Hnt.
  destruct (pop_bottom_only_step fuel q x xs Hwf Hord Hb Hbo Htop Hret Hroom)
    as (q1 & y & rest & -> & Hpop & Hwf1 & _ & Hb1 & _ & _ & Hm1 & Hh1 & Ht1 & _
        & Hr1 & _).
  destruct (destroy_deletes_cells fuel' q1 (y :: rest) Hwf1 Hb1 Hf)
    as (q2 & Ed & Hin & Hout & _ & Hdom).
  unfold node_marked in Hm1.
  destruct (deref q1 x) as [n| | | |] eqn:En; try discriminate Hm1.
  injection Hm1 as Hmn.
  assert (x ∉ head_ q1 :: (y :: rest) ++ [tail_ q1]) as Hx.
  { rewrite Hh1, Ht1. intros H. apply elem_of_cons in H as [->|H].
    - apply NoDup_cons in Hnd as (Hnd & _). apply Hnd, list_elem_of_here.
    - apply elem_of_app in H as [H|H].
      + apply NoDup_cons in Hnd as (_ & Hnd). apply NoDup_cons in Hnd as (Hnd & _).
        contradiction.
      + apply list_elem_of_singleton in H. subst x. apply Hnt, list_elem_of_here. }
  assert (retired_addrs q2 = retired_addrs q ++ [y]) as Er.
  { unfold retired_addrs. now rewrite Hdom, Hr1, map_app. }
  exists q1, q2, y, n. split; [exact Hpop|]. split; [exact Ed|]. split.
  { rewrite Hout by exact Hx. unfold deref in En.
    destruct (x =? nullptr); [discriminate En|].
    destruct (cells (mem q1) !! x) as [[m|]|]; try discriminate En. congruence. }
  split; [exact Hmn|]. split.
  { rewrite Er. intros H. apply elem_of_app in H as [H|H]; [contradiction|].
    apply list_elem_of_singleton in H. subst x.
    apply NoDup_cons in Hnd as (_ & Hnd). apply NoDup_cons in Hnd as (Hnd & _).
    apply Hnd, list_elem_of_here. }
  split; [reflexivity|]. split.
  { apply Hin. apply list_elem_of_further, elem_of_app. left. apply list_elem_of_here. }
  rewrite Er. apply elem_of_app. right. apply list_elem_of_here.
Qed.

Lemma destructor_after_pop_leaks_the_popped_node_witness :
  exists q1 q2,
    pop (4 + 0) (low_and_tall HazardDomain.init 1) = Ok (q1, Some 5%Z)
    /\ destroy 3 q1 = Ok q2
    /\ option_map (option_map marked) (cells (mem q2) !! 4) = Some (Some true)
    /\ cells (mem q2) !! 3 = Some None
    /\ retired_addrs q2 = [3].
Proof.
  destruct (destructor_after_pop_leaks_the_popped_node
              0 3 (low_and_tall HazardDomain.init 1) 4 [3])
    as (q1 & q2 & y & n & Ep & Ed & Ex & Hm & _ & Hy & Ey & _).
  - reflexivity.
  - apply low_and_tall_ordered.
  - reflexivity.
  - apply low_and_tall_bottom_only.
  - vm_compute. discriminate.
  - cbn. unfold HazardDomain.MAX_HAZARD_POINTERS. lia.
  - left. cbn. discriminate.
  - cbn. apply not_elem_of_nil.
  - cbn [length]. lia.
  - exists q1, q2. vm_compute in Ep. inversion Ep; subst q1.
    vm_compute in Ed. inversion Ed; subst q2. repeat split; reflexivity.
Defined.

(* ------------------------------------------------------------------------- *)
(** ** [pop] and the allocator *)
(* ------------------------------------------------------------------------- *)

(** X29.  [pop] is [noexcept] and allocates inside [retire]: the vector of
    retired records grows when it is full, and a scan reserves its
    snapshot.  When the allocator has nothing left at that point, the
    [std::bad_alloc] ends the program: [pop] has marked the front node,
    unlinked it and written its key to [out], and the caller gets neither
    the key nor an error. *)
Theorem pop_terminates_when_retire_cannot_allocate fuel q x xs :
  well_formed q = true -> levels_ordered q ->
  bottom q = Some (x :: xs) -> bottom_only q x ->
  level_nodes q MaxLevel <> Some [] ->
  avail (mem q) = 0 ->
  retired_capacity_ q <= length (HazardDomain.retired_ (domain_ q))
  \/ HazardDomain.MAX_HAZARD_POINTERS <= length (HazardDomain.retired_ (domain_ q)) ->
  pop (4 + fuel) q = Terminate.
Proof.
  intros Hwf Hord Hb Hbo Htop Hav Hfull.
  destruct (pop_bottom_only_store fuel q x xs Hwf Hord Hb Hbo Htop)
    as (y & rest & -> & Hpop & _).
  set (q2 := store_next (store_marked q x true) (head_ q) 0 y) in *.
  rewrite Hpop. unfold retire_node, grow_retired.
  change (domain_ q2) with (domain_ q).
  change (retired_capacity_ q2) with (retired_capacity_ q).
  change (avail (mem q2)) with (avail (mem q)). rewrite Hav.
  destruct (Nat.ltb_spec (length (HazardDomain.retired_ (domain_ q)))
              (retired_capacity_ q)) as [Hlt|Hge]; [|reflexivity].
  destruct Hfull as [Hfull|Hfull]; [lia|].
  cbn [bind]. change (domain_ q2) with (domain_ q).
  change (avail (mem q2)) with (avail (mem q)). rewrite Hav.
  cbn [HazardDomain.retired_]. rewrite length_app. cbn [length Nat.eqb].
  assert ((HazardDomain.MAX_HAZARD_POINTERS
           <? length (HazardDomain.retired_ (domain_ q)) + 1) = true) as ->
    by (apply Nat.ltb_lt; lia).
  reflexivity.
Qed.

Lemma pop_terminates_when_retire_cannot_allocate_witness :
  pop (4 + 0) (low_and_tall HazardDomain.init 0) = Terminate.
Proof.
  apply (pop_terminates_when_retire_cannot_allocate
           0 (low_and_tall HazardDomain.init 0) 4 [3]).
  - reflexivity.
  - apply low_and_tall_ordered.
  - reflexivity.
  - apply low_and_tall_bottom_only.
  - vm_compute. discriminate.
  - reflexivity.
  - left. cbn. lia.
Defined.
